(** * cfcalls: a single-peer WebRTC echo relay (src/main.go)

    Shallow embedding of [main.go] and of the parts of the Go standard
    library it calls ([encoding/base64], [encoding/json], [unicode/utf8],
    [strings], [bufio]), followed by the properties of the relay that the
    specification states.

    Conventions.
    - a Go [string] is a [String.string]; a Go [[]byte] is a [list byte];
      [[]byte(s)] is [list_byte_of_string] and [string(b)] is
      [string_of_list_byte];
    - a byte value, a [uint] and a [rune] are numbers in [N], with the shifts
      and masks of the Go code written with [N.shiftl], [N.shiftr], [N.land],
      [N.lor];
    - a Go function returning [(T, error)] returns a [result T];
    - a [for] loop whose trip count is bounded by the length of its input runs
      on a fuel argument initialised with that length. *)

From Stdlib Require Import List NArith ZArith Lia Bool.
From Stdlib Require Import Strings.String Strings.Ascii Strings.Byte DecimalString.
Import ListNotations.

Set Implicit Arguments.
Set Warnings "-register-all".

(** ** Bytes *)

Definition u8 (b : byte) : N := Byte.to_N b.

(** Go's conversion [byte(x)] of an unsigned integer: the low eight bits. *)
Definition byte_of_N (n : N) : byte :=
  match Byte.of_N (N.land n 255) with
  | Some b => b
  | None => x00
  end.

Definition bytes (s : string) : list byte := list_byte_of_string s.

Definition byte_in (c : byte) (s : string) : bool :=
  existsb (Byte.eqb c) (bytes s).

Definition bytes_eqb (a b : list byte) : bool :=
  if list_eq_dec Byte.byte_eq_dec a b then true else false.

(** ** Errors *)

(** The [error] values that reach [main.go]. *)
Inductive error : Type :=
| CorruptInputError (offset : N)       (* encoding/base64 *)
| SyntaxError                          (* encoding/json: malformed or
                                          truncated text *)
| UnmarshalTypeError (field : string)  (* encoding/json: value of the wrong kind *)
| ErrUnknownType                       (* webrtc: SDP type not recognised *)
| ErrEOF                               (* io.EOF *)
| Errorf (msg : string)                (* fmt.Errorf *)
| External (msg : string).             (* an error of the network, the
                                          console or the transport library *)

Inductive result (A : Type) : Type :=
| Ok (a : A)
| Err (e : error).

Arguments Ok {A} a.
Arguments Err {A} e.

(** ** encoding/base64, [StdEncoding] *)

Module base64.
Local Open Scope N_scope.

Definition encodeStd : string :=
  "ABCDEFGHIJKLMNOPQRSTUVWXYZabcdefghijklmnopqrstuvwxyz0123456789+/".

Definition padChar : byte := "="%byte.

(** [enc.encode[i]] *)
Definition encode (i : N) : byte := nth (N.to_nat i) (bytes encodeStd) x00.

Fixpoint index_from (i : N) (c : byte) (l : list byte) : N :=
  match l with
  | [] => 255
  | x :: l' => if Byte.eqb c x then i else index_from (N.succ i) c l'
  end.

(** [enc.decodeMap[c]]: the position of [c] in the alphabet, [0xff] for a
    byte outside it. *)
Definition decodeMap (c : byte) : N := index_from 0 c (bytes encodeStd).

(** [Encoding.Encode]: three source bytes make four characters; a final
    block of one or two bytes is padded. *)
Fixpoint Encode (src : list byte) : list byte :=
  match src with
  | [] => []
  | [s0] =>
      let val := N.shiftl (u8 s0) 16 in
      [encode (N.land (N.shiftr val 18) 63);
       encode (N.land (N.shiftr val 12) 63);
       padChar; padChar]
  | [s0; s1] =>
      let val := N.lor (N.shiftl (u8 s0) 16) (N.shiftl (u8 s1) 8) in
      [encode (N.land (N.shiftr val 18) 63);
       encode (N.land (N.shiftr val 12) 63);
       encode (N.land (N.shiftr val 6) 63);
       padChar]
  | s0 :: s1 :: s2 :: rest =>
      let val := N.lor (N.lor (N.shiftl (u8 s0) 16) (N.shiftl (u8 s1) 8))
                       (u8 s2) in
      encode (N.land (N.shiftr val 18) 63)
      :: encode (N.land (N.shiftr val 12) 63)
      :: encode (N.land (N.shiftr val 6) 63)
      :: encode (N.land val 63)
      :: Encode rest
  end.

Definition EncodeToString (src : list byte) : string :=
  string_of_list_byte (Encode src).

Definition is_newline (c : byte) : bool :=
  Byte.eqb c x0a || Byte.eqb c x0d.

(** [for si < len(src) && (src[si] == '\n' || src[si] == '\r') { si++ }] *)
Fixpoint skip_newlines (si : N) (src : list byte) : N * list byte :=
  match src with
  | c :: rest =>
      if is_newline c then skip_newlines (N.succ si) rest else (si, src)
  | [] => (si, [])
  end.

(** What the reading loop of [decodeQuantum] leaves: the sextets read
    ([dbuf[0..dlen)]), the input position and the unread input, and the
    error it noted for bytes after the padding. *)
Record quantum : Type := Quantum {
  q_dbuf : list N;
  q_si : N;
  q_rest : list byte;
  q_err : option error
}.

(** The [for j := 0; j < len(dbuf); j++] loop of [decodeQuantum], [dbuf]
    holding the [j] sextets read so far and [len] being [len(src)]. *)
Fixpoint read_quantum (len : N) (dbuf : list N) (si : N) (src : list byte)
  {struct src} : result quantum :=
  let j := N.of_nat (List.length dbuf) in
  if 4 <=? j then Ok (Quantum dbuf si src None) else
  match src with
  | [] =>
      if j =? 0 then Ok (Quantum [] si [] None)
      else Err (CorruptInputError (si - j))
  | c :: rest =>
      let si := N.succ si in
      let out := decodeMap c in
      if negb (out =? 255) then read_quantum len (dbuf ++ [out]) si rest
      else if is_newline c then read_quantum len dbuf si rest
      else if negb (Byte.eqb c padChar) then Err (CorruptInputError (si - 1))
      else
        (* We've reached the end and there's padding *)
        if j <? 2 then Err (CorruptInputError (si - 1))
        else if j =? 2 then
          (* "==" is expected, the first "=" is already consumed. *)
          let (si1, rest1) := skip_newlines si rest in
          match rest1 with
          | [] => Err (CorruptInputError len)
          | c1 :: rest2 =>
              if negb (Byte.eqb c1 padChar)
              then Err (CorruptInputError (si1 - 1))
              else
                let (si3, rest3) := skip_newlines (N.succ si1) rest2 in
                Ok (Quantum dbuf si3 rest3
                      (match rest3 with
                       | [] => None
                       | _ => Some (CorruptInputError si3)
                       end))
          end
        else
          let (si3, rest3) := skip_newlines si rest in
          Ok (Quantum dbuf si3 rest3
                (match rest3 with
                 | [] => None
                 | _ => Some (CorruptInputError si3)
                 end))
  end.

(** "Convert 4x 6bit source bytes into 3 bytes": [dlen - 1] bytes come out
    of [dlen] sextets. *)
Definition assemble (dbuf : list N) : list byte :=
  let d := fun i => nth i dbuf 0 in
  let val := N.lor (N.lor (N.lor (N.shiftl (d 0%nat) 18)
                                 (N.shiftl (d 1%nat) 12))
                          (N.shiftl (d 2%nat) 6))
                   (d 3%nat) in
  firstn (List.length dbuf - 1)
    [byte_of_N (N.shiftr val 16); byte_of_N (N.shiftr val 8);
     byte_of_N (N.shiftr val 0)].

(** [Encoding.Decode], one [decodeQuantum] per round.  The two loops that
    decode eight and four characters at a time fall back on [decodeQuantum]
    at the first byte outside the alphabet and compute what it computes.
    On an error the bytes already decoded are dropped: [main.go] panics on
    it without looking at them. *)
Fixpoint Decode (fuel : nat) (len si : N) (src : list byte)
  : result (list byte) :=
  match src with
  | [] => Ok []
  | _ :: _ =>
      match fuel with
      | O => Err (CorruptInputError si)
      | S fuel =>
          match read_quantum len [] si src with
          | Err e => Err e
          | Ok q =>
              match q_err q with
              | Some e => Err e
              | None =>
                  match Decode fuel len (q_si q) (q_rest q) with
                  | Err e => Err e
                  | Ok out => Ok (assemble (q_dbuf q) ++ out)
                  end
              end
          end
      end
  end.

Definition DecodeString (s : string) : result (list byte) :=
  let src := bytes s in
  Decode (List.length src) (N.of_nat (List.length src)) 0 src.

End base64.

(** ** unicode/utf8 and unicode/utf16 *)

Module utf8.
Local Open Scope N_scope.

Definition RuneError : N := 0xFFFD.
Definition RuneSelf : N := 0x80.
Definition MaxRune : N := 0x10FFFF.
Definition surrogateMin : N := 0xD800.
Definition surrogateMax : N := 0xDFFF.

Definition locb : N := 0x80.
Definition hicb : N := 0xBF.

(** The table [first]: for a leading byte, [0xF0] (ASCII), [0xF1] (not a
    leading byte), or the index of its accept range in the high nibble and
    the length of the sequence in the low one. *)
Definition first (p0 : N) : N :=
  if p0 <? 0x80 then 0xF0
  else if p0 <? 0xC2 then 0xF1
  else if p0 <? 0xE0 then 0x02
  else if p0 =? 0xE0 then 0x13
  else if p0 <? 0xED then 0x03
  else if p0 =? 0xED then 0x23
  else if p0 <? 0xF0 then 0x03
  else if p0 =? 0xF0 then 0x34
  else if p0 <? 0xF4 then 0x04
  else if p0 =? 0xF4 then 0x44
  else 0xF1.

Definition acceptRanges (i : N) : N * N :=
  if i =? 0 then (locb, hicb)
  else if i =? 1 then (0xA0, hicb)
  else if i =? 2 then (locb, 0x9F)
  else if i =? 3 then (0x90, hicb)
  else (locb, 0x8F).

(** [DecodeRune]: the first rune of [p] and its width in bytes;
    [(RuneError, 1)] for an encoding that is not well formed, [(RuneError, 0)]
    for the empty input. *)
Definition DecodeRune (p : list byte) : N * nat :=
  match p with
  | [] => (RuneError, 0%nat)
  | c0 :: p1 =>
      let p0 := u8 c0 in
      let x := first p0 in
      if 0xF0 <=? x then
        ((if x =? 0xF0 then p0 else RuneError), 1%nat)
      else
        let sz := N.land x 7 in
        let (lo, hi) := acceptRanges (N.shiftr x 4) in
        match p1 with
        | [] => (RuneError, 1%nat)
        | c1 :: p2 =>
            let b1 := u8 c1 in
            if (b1 <? lo) || (hi <? b1) then (RuneError, 1%nat)
            else if sz <=? 2 then
              (N.lor (N.shiftl (N.land p0 0x1F) 6) (N.land b1 0x3F), 2%nat)
            else
              match p2 with
              | [] => (RuneError, 1%nat)
              | c2 :: p3 =>
                  let b2 := u8 c2 in
                  if (b2 <? locb) || (hicb <? b2) then (RuneError, 1%nat)
                  else if sz <=? 3 then
                    (N.lor (N.lor (N.shiftl (N.land p0 0x0F) 12)
                                  (N.shiftl (N.land b1 0x3F) 6))
                           (N.land b2 0x3F), 3%nat)
                  else
                    match p3 with
                    | [] => (RuneError, 1%nat)
                    | c3 :: _ =>
                        let b3 := u8 c3 in
                        if (b3 <? locb) || (hicb <? b3)
                        then (RuneError, 1%nat)
                        else
                          (N.lor (N.lor (N.lor
                             (N.shiftl (N.land p0 0x07) 18)
                             (N.shiftl (N.land b1 0x3F) 12))
                             (N.shiftl (N.land b2 0x3F) 6))
                             (N.land b3 0x3F), 4%nat)
                    end
              end
        end
  end.

(** [EncodeRune] / [AppendRune]: the UTF-8 encoding of [r], that of
    [RuneError] for a surrogate or a value above [MaxRune]. *)
Definition EncodeRune (r : N) : list byte :=
  if r <=? 0x7F then [byte_of_N r]
  else if r <=? 0x7FF then
    [byte_of_N (N.lor 0xC0 (N.shiftr r 6));
     byte_of_N (N.lor 0x80 (N.land r 0x3F))]
  else
    let r3 := if (MaxRune <? r) || ((surrogateMin <=? r) && (r <=? surrogateMax))
              then Some RuneError
              else if r <=? 0xFFFF then Some r else None in
    match r3 with
    | Some r =>
        [byte_of_N (N.lor 0xE0 (N.shiftr r 12));
         byte_of_N (N.lor 0x80 (N.land (N.shiftr r 6) 0x3F));
         byte_of_N (N.lor 0x80 (N.land r 0x3F))]
    | None =>
        [byte_of_N (N.lor 0xF0 (N.shiftr r 18));
         byte_of_N (N.lor 0x80 (N.land (N.shiftr r 12) 0x3F));
         byte_of_N (N.lor 0x80 (N.land (N.shiftr r 6) 0x3F));
         byte_of_N (N.lor 0x80 (N.land r 0x3F))]
    end.

(** [RuneStart]: [b] is not a continuation byte. *)
Definition RuneStart (b : byte) : bool :=
  negb (N.land (u8 b) 0xC0 =? 0x80).

(** [Valid] / [ValidString]: [p] consists of well-formed encodings only. *)
Fixpoint Valid_loop (fuel : nat) (p : list byte) : bool :=
  match p with
  | [] => true
  | _ :: _ =>
      match fuel with
      | O => false
      | S fuel =>
          let (r, size) := DecodeRune p in
          if (r =? RuneError) && Nat.eqb size 1 then false
          else Valid_loop fuel (skipn size p)
      end
  end.

Definition Valid (p : list byte) : bool := Valid_loop (List.length p) p.
Definition ValidString (s : string) : bool := Valid (bytes s).

(** [DecodeLastRune]: the last rune of [p] and its width.  The loop looks
    back over at most [UTFMax] bytes for the byte that starts the rune. *)
Fixpoint back (fuel : nat) (p : list byte) (lim start : Z) : Z :=
  match fuel with
  | O => start
  | S fuel =>
      if (start <? lim)%Z then start
      else if RuneStart (nth (Z.to_nat start) p x00) then start
      else back fuel p lim (start - 1)%Z
  end.

Definition DecodeLastRune (p : list byte) : N * nat :=
  let end_ := Z.of_nat (List.length p) in
  match rev p with
  | [] => (RuneError, 0%nat)
  | last :: _ =>
      if u8 last <? RuneSelf then (u8 last, 1%nat)
      else
        let lim := Z.max (end_ - 4) 0 in
        let start := Z.max (back 4 p lim (end_ - 2)%Z) 0 in
        let (r, size) := DecodeRune (skipn (Z.to_nat start) p) in
        if (start + Z.of_nat size =? end_)%Z then (r, size)
        else (RuneError, 1%nat)
  end.

End utf8.

Module utf16.
Local Open Scope N_scope.

Definition surr1 : N := 0xd800.
Definition surr2 : N := 0xdc00.
Definition surr3 : N := 0xe000.
Definition surrSelf : N := 0x10000.
Definition replacementChar : N := 0xFFFD.

Definition IsSurrogate (r : N) : bool := (surr1 <=? r) && (r <? surr3).

(** [DecodeRune(r1, r2)], [r2] being absent where Go passes [-1]. *)
Definition DecodeRune (r1 : N) (r2 : option N) : N :=
  match r2 with
  | Some r2 =>
      if (surr1 <=? r1) && (r1 <? surr2) && (surr2 <=? r2) && (r2 <? surr3)
      then N.lor (N.shiftl (r1 - surr1) 10) (r2 - surr2) + surrSelf
      else replacementChar
  | None => replacementChar
  end.
End utf16.

(** ** unicode and strings *)

Module unicode.
Local Open Scope N_scope.

(** [unicode.ToLower].  The case tables are not reproduced: outside ASCII
    only the two runes whose lower case is an ASCII letter are mapped
    (U+0130 to [i], U+212A KELVIN SIGN to [k]); any other rune is returned
    as it is, which the tables map to a rune outside ASCII as well. *)
Definition ToLower (r : N) : N :=
  if (0x41 <=? r) && (r <=? 0x5A) then r + 0x20
  else if r =? 0x0130 then 0x69
  else if r =? 0x212A then 0x6B
  else r.

(** [unicode.IsSpace]: the White_Space property. *)
Definition IsSpace (r : N) : bool :=
  if r <=? 0xFF then
    ((0x09 <=? r) && (r <=? 0x0D)) || (r =? 0x20) || (r =? 0x85) || (r =? 0xA0)
  else
    (r =? 0x1680) || ((0x2000 <=? r) && (r <=? 0x200A)) || (r =? 0x2028)
    || (r =? 0x2029) || (r =? 0x202F) || (r =? 0x205F) || (r =? 0x3000).
End unicode.

Module strings.
Local Open Scope N_scope.

(** [strings.Map] on the bytes of a string, for a mapping that drops no
    rune: every rune is decoded, mapped and encoded again, a byte that is
    not well-formed UTF-8 coming out as the encoding of [RuneError]. *)
Fixpoint Map_loop (fuel : nat) (mapping : N -> N) (s : list byte) : list byte :=
  match s with
  | [] => []
  | _ :: _ =>
      match fuel with
      | O => []
      | S fuel =>
          let (r, size) := utf8.DecodeRune s in
          utf8.EncodeRune (mapping r) ++ Map_loop fuel mapping (skipn size s)
      end
  end.

Definition Map (mapping : N -> N) (s : list byte) : list byte :=
  Map_loop (List.length s) mapping s.

Definition ToLower (s : string) : string :=
  string_of_list_byte (Map unicode.ToLower (bytes s)).
(** [asciiSpace[c]] *)
Definition asciiSpace (c : byte) : bool :=
  ((0x09 <=? u8 c) && (u8 c <=? 0x0D)) || (u8 c =? 0x20).

(** [TrimLeftFunc(s, f)]: [s] from the first rune that [f] rejects on. *)
Fixpoint TrimLeftFunc_loop (fuel : nat) (f : N -> bool) (s : list byte)
  : list byte :=
  match s with
  | [] => []
  | _ :: _ =>
      match fuel with
      | O => []
      | S fuel =>
          let (r, size) := utf8.DecodeRune s in
          if f r then TrimLeftFunc_loop fuel f (skipn size s) else s
      end
  end.

Definition TrimLeftFunc (s : list byte) (f : N -> bool) : list byte :=
  TrimLeftFunc_loop (List.length s) f s.

(** [lastIndexFunc(s, f, false)]: the index where the last rune that [f]
    rejects starts, [None] for [-1]; [p] is [s[0:i]]. *)
Fixpoint lastIndexFunc_loop (fuel : nat) (f : N -> bool) (p : list byte)
  : option nat :=
  match p with
  | [] => None
  | _ :: _ =>
      match fuel with
      | O => None
      | S fuel =>
          let (r, size) := utf8.DecodeLastRune p in
          let i := (List.length p - size)%nat in
          if negb (f r) then Some i
          else lastIndexFunc_loop fuel f (firstn i p)
      end
  end.

Definition TrimRightFunc (s : list byte) (f : N -> bool) : list byte :=
  match lastIndexFunc_loop (List.length s) f s with
  | Some i =>
      if utf8.RuneSelf <=? u8 (nth i s x00) then
        let (_, wid) := utf8.DecodeRune (skipn i s) in
        firstn (i + wid) s
      else firstn (i + 1) s
  | None => []
  end.

Definition TrimFunc (s : list byte) (f : N -> bool) : list byte :=
  TrimRightFunc (TrimLeftFunc s f) f.

(** The second loop of [TrimSpace], on [s[start:]]: the first ASCII
    non-space byte from the end. *)
Fixpoint TrimSpace_stop (s : list byte) (stop : nat) : list byte :=
  match stop with
  | O => []
  | S k =>
      let c := nth k s x00 in
      if utf8.RuneSelf <=? u8 c then
        TrimRightFunc (firstn stop s) unicode.IsSpace
      else if asciiSpace c then TrimSpace_stop s k
      else firstn stop s
  end.

(** The first loop of [TrimSpace]: the first ASCII non-space byte, with the
    fall back on [TrimFunc] at a byte outside ASCII. *)
Fixpoint TrimSpace_start (s : list byte) : list byte :=
  match s with
  | [] => []
  | c :: rest =>
      if utf8.RuneSelf <=? u8 c then TrimFunc s unicode.IsSpace
      else if asciiSpace c then TrimSpace_start rest
      else TrimSpace_stop s (List.length s)
  end.

Definition TrimSpace (s : string) : string :=
  string_of_list_byte (TrimSpace_start (bytes s)).

End strings.

(** ** The types of the transport library that cross the codec *)

Module webrtc.

(** [webrtc.SDPType] with its zero value. *)
Inductive SDPType : Type :=
| SDPTypeUnknown
| SDPTypeOffer
| SDPTypePranswer
| SDPTypeAnswer
| SDPTypeRollback.

(** [SDPType.String]; the zero value prints as [ErrUnknownType.Error()]. *)
Definition SDPType_String (t : SDPType) : string :=
  match t with
  | SDPTypeOffer => "offer"
  | SDPTypePranswer => "pranswer"
  | SDPTypeAnswer => "answer"
  | SDPTypeRollback => "rollback"
  | SDPTypeUnknown => "unknown"
  end.

(** [webrtc.SessionDescription]: the two fields that are exported and
    serialized, [Type] (key [type]) and [SDP] (key [sdp]).  The unexported
    [parsed] field is a cache of the parsed [SDP] text, is not serialized
    and is not part of the value. *)
Record SessionDescription : Type := {
  Type_ : SDPType;
  SDP : string
}.

Definition zero : SessionDescription :=
  {| Type_ := SDPTypeUnknown; SDP := EmptyString |}.

(** [webrtc.PeerConnectionState] *)
Inductive PeerConnectionState : Type :=
| PeerConnectionStateUnknown
| PeerConnectionStateNew
| PeerConnectionStateConnecting
| PeerConnectionStateConnected
| PeerConnectionStateDisconnected
| PeerConnectionStateFailed
| PeerConnectionStateClosed.

Definition PeerConnectionState_String (s : PeerConnectionState) : string :=
  match s with
  | PeerConnectionStateNew => "new"
  | PeerConnectionStateConnecting => "connecting"
  | PeerConnectionStateConnected => "connected"
  | PeerConnectionStateDisconnected => "disconnected"
  | PeerConnectionStateFailed => "failed"
  | PeerConnectionStateClosed => "closed"
  | PeerConnectionStateUnknown => "unknown"
  end.

Definition PeerConnectionState_eqb (a b : PeerConnectionState) : bool :=
  match a, b with
  | PeerConnectionStateUnknown, PeerConnectionStateUnknown
  | PeerConnectionStateNew, PeerConnectionStateNew
  | PeerConnectionStateConnecting, PeerConnectionStateConnecting
  | PeerConnectionStateConnected, PeerConnectionStateConnected
  | PeerConnectionStateDisconnected, PeerConnectionStateDisconnected
  | PeerConnectionStateFailed, PeerConnectionStateFailed
  | PeerConnectionStateClosed, PeerConnectionStateClosed => true
  | _, _ => false
  end.

(** [webrtc.ICEServer], the fields [main.go] fills. *)
Record ICEServer : Type := {
  ICEServer_URLs : list string;
  ICEServer_Username : string;
  ICEServer_Credential : string
}.

Record Configuration : Type := {
  ICEServers : list ICEServer
}.

End webrtc.

(** [TurnCredentials] of main.go, with its anonymous struct
    [ICECredentials] (key [iceServers]). *)
Record ICECredentials_t : Type := {
  URLs : list string;       (* key [urls] *)
  Username : string;        (* key [username] *)
  Credential : string       (* key [credential] *)
}.

Record TurnCredentials : Type := {
  ICECredentials : ICECredentials_t
}.

Definition TurnCredentials_zero : TurnCredentials :=
  {| ICECredentials :=
       {| URLs := []; Username := EmptyString; Credential := EmptyString |} |}.

(** ** encoding/json *)

Module json.
Local Open Scope N_scope.

Definition dquote : byte := x22.
Definition backslash : byte := x5c.

(** *** Encoding *)

Definition hex : string := "0123456789abcdef".
Definition hexdigit (i : N) : byte := nth (N.to_nat i) (bytes hex) x00.

(** [htmlSafeSet[b]] for [b < utf8.RuneSelf]: the printable ASCII bytes
    other than the double quote, the backslash, [<], [>] and [&]. *)
Definition htmlSafeSet (b : byte) : bool :=
  (0x20 <=? u8 b) && (u8 b <? 0x80)
  && negb (Byte.eqb b dquote || Byte.eqb b backslash || Byte.eqb b "<"
           || Byte.eqb b ">" || Byte.eqb b "&").

(** The [switch b] of [appendString] for an ASCII byte that is not safe. *)
Definition escape_ascii (b : byte) : list byte :=
  if Byte.eqb b backslash || Byte.eqb b dquote then [backslash; b]
  else if Byte.eqb b x08 then [backslash; "b"%byte]
  else if Byte.eqb b x0c then [backslash; "f"%byte]
  else if Byte.eqb b x0a then [backslash; "n"%byte]
  else if Byte.eqb b x0d then [backslash; "r"%byte]
  else if Byte.eqb b x09 then [backslash; "t"%byte]
  else [backslash; "u"%byte; "0"%byte; "0"%byte;
        hexdigit (N.shiftr (u8 b) 4); hexdigit (N.land (u8 b) 0xF)].

(** The loop of [appendString] with [escapeHTML] set, between the two
    quotes it writes.  The Go loop copies the runs of bytes that need no
    escape in one [append]; here each position writes its own bytes. *)
Fixpoint appendString_loop (fuel : nat) (src : list byte) : list byte :=
  match src with
  | [] => []
  | b :: rest =>
      match fuel with
      | O => []
      | S fuel =>
          if u8 b <? utf8.RuneSelf then
            (if htmlSafeSet b then [b] else escape_ascii b)
            ++ appendString_loop fuel rest
          else
            let (c, size) := utf8.DecodeRune (firstn 4 src) in
            if (c =? utf8.RuneError) && Nat.eqb size 1 then
              (backslash :: bytes "ufffd")
              ++ appendString_loop fuel (skipn size src)
            else if (c =? 0x2028) || (c =? 0x2029) then
              (backslash :: bytes "u202" ++ [hexdigit (N.land c 0xF)])
              ++ appendString_loop fuel (skipn size src)
            else
              firstn size src ++ appendString_loop fuel (skipn size src)
      end
  end.

Definition appendString (src : list byte) : list byte :=
  dquote :: appendString_loop (List.length src) src ++ [dquote].

(** [json.Marshal] of a Go string. *)
Definition Marshal_string (s : string) : list byte := appendString (bytes s).

(** *** Decoding: the scanner *)

(** The JSON values the scanner recognises.  A string holds its bytes
    after unquoting, a number its literal. *)
Inductive value : Type :=
| JNull
| JBool (b : bool)
| JNumber (lit : list byte)
| JString (s : list byte)
| JArray (elems : list value)
| JObject (members : list (list byte * value)).

Definition isSpace (c : byte) : bool :=
  Byte.eqb c x20 || Byte.eqb c x09 || Byte.eqb c x0d || Byte.eqb c x0a.

Fixpoint skip_space (s : list byte) : list byte :=
  match s with
  | c :: rest => if isSpace c then skip_space rest else s
  | [] => []
  end.

Definition hexval (c : byte) : option N :=
  let n := u8 c in
  if (0x30 <=? n) && (n <=? 0x39) then Some (n - 0x30)
  else if (0x61 <=? n) && (n <=? 0x66) then Some (n - 0x61 + 10)
  else if (0x41 <=? n) && (n <=? 0x46) then Some (n - 0x41 + 10)
  else None.

(** [getu4]: the value of the [\uXXXX] at the head of [s], [None] where Go
    returns [-1]. *)
Definition getu4 (s : list byte) : option N :=
  match s with
  | b :: u :: h1 :: h2 :: h3 :: h4 :: _ =>
      if Byte.eqb b backslash && Byte.eqb u "u" then
        match hexval h1, hexval h2, hexval h3, hexval h4 with
        | Some a, Some b, Some c, Some d => Some (((a * 16 + b) * 16 + c) * 16 + d)
        | _, _, _, _ => None
        end
      else None
  | _ => None
  end.

(** The byte a one-letter escape stands for. *)
Definition unescape (e : byte) : option byte :=
  if Byte.eqb e dquote || Byte.eqb e backslash || Byte.eqb e "/" then Some e
  else if Byte.eqb e "b" then Some x08
  else if Byte.eqb e "f" then Some x0c
  else if Byte.eqb e "n" then Some x0a
  else if Byte.eqb e "r" then Some x0d
  else if Byte.eqb e "t" then Some x09
  else None.

Definition prepend (out : list byte) (r : option (list byte * list byte))
  : option (list byte * list byte) :=
  match r with
  | Some (o, rest) => Some (out ++ o, rest)
  | None => None
  end.

(** A string literal after its opening quote: what the scanner accepts
    ([stateInString] and the escape states) paired with what [unquoteBytes]
    makes of it, and the input after the closing quote. *)
Fixpoint scan_string (fuel : nat) (s : list byte)
  : option (list byte * list byte) :=
  match fuel with
  | O => None
  | S fuel =>
      match s with
      | [] => None
      | c :: r =>
          if Byte.eqb c dquote then Some ([], r)
          else if Byte.eqb c backslash then
            match r with
            | [] => None
            | e :: r' =>
                if Byte.eqb e "u" then
                  match getu4 s with
                  | None => None
                  | Some rr =>
                      let r6 := skipn 6 s in
                      if utf16.IsSurrogate rr then
                        let dec := utf16.DecodeRune rr (getu4 r6) in
                        if negb (dec =? utf16.replacementChar) then
                          (* A valid pair; consume. *)
                          prepend (utf8.EncodeRune dec)
                                  (scan_string fuel (skipn 6 r6))
                        else
                          (* Invalid surrogate; fall back to replacement rune. *)
                          prepend (utf8.EncodeRune utf16.replacementChar)
                                  (scan_string fuel r6)
                      else prepend (utf8.EncodeRune rr) (scan_string fuel r6)
                  end
                else
                  match unescape e with
                  | Some b => prepend [b] (scan_string fuel r')
                  | None => None
                  end
            end
          else if u8 c <? 0x20 then None
          else if u8 c <? utf8.RuneSelf then prepend [c] (scan_string fuel r)
          else
            (* Coerce to well-formed UTF-8. *)
            let (rr, size) := utf8.DecodeRune s in
            prepend (utf8.EncodeRune rr) (scan_string fuel (skipn size s))
      end
  end.

Definition isDigit (c : byte) : bool := (0x30 <=? u8 c) && (u8 c <=? 0x39).

Fixpoint span_digits (s : list byte) : list byte * list byte :=
  match s with
  | c :: rest =>
      if isDigit c then let (ds, r) := span_digits rest in (c :: ds, r)
      else ([], s)
  | [] => ([], [])
  end.

(** A number literal ([stateNeg], [state0], [state1], [stateDot],
    [stateE] and their successors): the literal and the input after it. *)
Definition scan_number (s : list byte) : option (list byte * list byte) :=
  let (sign, s1) :=
    match s with
    | c :: r => if Byte.eqb c "-" then ([c], r) else ([], s)
    | [] => ([], s)
    end in
  match s1 with
  | [] => None
  | c :: r =>
      let int_part :=
        if Byte.eqb c "0" then Some ([c], r)
        else if isDigit c then let (ds, r') := span_digits r in Some (c :: ds, r')
        else None in
      match int_part with
      | None => None
      | Some (ip, s2) =>
          let frac :=
            match s2 with
            | d :: r2 =>
                if Byte.eqb d "." then
                  match span_digits r2 with
                  | ([], _) => None
                  | (ds, r3) => Some (d :: ds, r3)
                  end
                else Some ([], s2)
            | [] => Some ([], s2)
            end in
          match frac with
          | None => None
          | Some (fp, s3) =>
              let expo :=
                match s3 with
                | e :: r3 =>
                    if Byte.eqb e "e" || Byte.eqb e "E" then
                      let (sg, r4) :=
                        match r3 with
                        | g :: r4 =>
                            if Byte.eqb g "+" || Byte.eqb g "-"
                            then ([g], r4) else ([], r3)
                        | [] => ([], r3)
                        end in
                      match span_digits r4 with
                      | ([], _) => None
                      | (ds, r5) => Some (e :: sg ++ ds, r5)
                      end
                    else Some ([], s3)
                | [] => Some ([], s3)
                end in
              match expo with
              | None => None
              | Some (ep, s4) => Some (sign ++ ip ++ fp ++ ep, s4)
              end
          end
      end
  end.

(** [rest] when [s] begins with [lit]. *)
Fixpoint strip_prefix (lit s : list byte) : option (list byte) :=
  match lit, s with
  | [], _ => Some s
  | a :: lit', b :: s' => if Byte.eqb a b then strip_prefix lit' s' else None
  | _ :: _, [] => None
  end.

Definition maxNestingDepth : N := 10000.

(** One JSON value at the head of [s], after optional white space, and the
    input after it.  [depth] counts the objects and arrays open around
    the value. *)
Fixpoint parse_value (fuel : nat) (depth : N) (s : list byte)
  : option (value * list byte) :=
  match fuel with
  | O => None
  | S fuel =>
      match skip_space s with
      | [] => None
      | c :: r =>
          if Byte.eqb c "{" then
            if maxNestingDepth <? depth + 1 then None else
            match skip_space r with
            | [] => None
            | c1 :: r1 =>
                if Byte.eqb c1 "}" then Some (JObject [], r1)
                else
                  match parse_members fuel (depth + 1) (c1 :: r1) with
                  | Some (ms, r2) => Some (JObject ms, r2)
                  | None => None
                  end
            end
          else if Byte.eqb c "[" then
            if maxNestingDepth <? depth + 1 then None else
            match skip_space r with
            | [] => None
            | c1 :: r1 =>
                if Byte.eqb c1 "]" then Some (JArray [], r1)
                else
                  match parse_elements fuel (depth + 1) (c1 :: r1) with
                  | Some (vs, r2) => Some (JArray vs, r2)
                  | None => None
                  end
            end
          else if Byte.eqb c dquote then
            match scan_string (S (List.length r)) r with
            | Some (str, r1) => Some (JString str, r1)
            | None => None
            end
          else if Byte.eqb c "-" || isDigit c then
            match scan_number (c :: r) with
            | Some (lit, r1) => Some (JNumber lit, r1)
            | None => None
            end
          else if Byte.eqb c "t" then
            match strip_prefix (bytes "true") (c :: r) with
            | Some r1 => Some (JBool true, r1)
            | None => None
            end
          else if Byte.eqb c "f" then
            match strip_prefix (bytes "false") (c :: r) with
            | Some r1 => Some (JBool false, r1)
            | None => None
            end
          else if Byte.eqb c "n" then
            match strip_prefix (bytes "null") (c :: r) with
            | Some r1 => Some (JNull, r1)
            | None => None
            end
          else None
      end
  end

(** The members of an object from a key on: [key : value], then a comma
    and the next member, or the closing brace. *)
with parse_members (fuel : nat) (depth : N) (s : list byte)
  : option (list (list byte * value) * list byte) :=
  match fuel with
  | O => None
  | S fuel =>
      match skip_space s with
      | [] => None
      | q :: r =>
          if negb (Byte.eqb q dquote) then None else
          match scan_string (S (List.length r)) r with
          | None => None
          | Some (key, r1) =>
              match skip_space r1 with
              | [] => None
              | colon :: r2 =>
                  if negb (Byte.eqb colon ":") then None else
                  match parse_value fuel depth r2 with
                  | None => None
                  | Some (v, r3) =>
                      match skip_space r3 with
                      | [] => None
                      | c :: r4 =>
                          if Byte.eqb c "}" then Some ([(key, v)], r4)
                          else if Byte.eqb c "," then
                            match parse_members fuel depth r4 with
                            | Some (ms, r5) => Some ((key, v) :: ms, r5)
                            | None => None
                            end
                          else None
                      end
                  end
              end
          end
      end
  end

(** The elements of an array from a value on. *)
with parse_elements (fuel : nat) (depth : N) (s : list byte)
  : option (list value * list byte) :=
  match fuel with
  | O => None
  | S fuel =>
      match parse_value fuel depth s with
      | None => None
      | Some (v, r1) =>
          match skip_space r1 with
          | [] => None
          | c :: r2 =>
              if Byte.eqb c "]" then Some ([v], r2)
              else if Byte.eqb c "," then
                match parse_elements fuel depth r2 with
                | Some (vs, r3) => Some (v :: vs, r3)
                | None => None
                end
              else None
          end
      end
  end.

(** [checkValid] together with the value the decoder then walks: the whole
    of [data] is one JSON value with white space around it. *)
Definition parse_document (data : list byte) : option value :=
  match parse_value (S (2 * List.length data)) 0 data with
  | Some (v, rest) =>
      match skip_space rest with
      | [] => Some v
      | _ :: _ => None
      end
  | None => None
  end.

(** *** Decoding: struct fields *)

(** [foldRune]: the smallest rune of the fold orbit of [r].  The fold
    tables are not reproduced: outside ASCII only the two runes whose orbit
    holds an ASCII letter are mapped (U+017F LONG S to [S], U+212A KELVIN
    SIGN to [K]); the orbit of any other rune stays outside ASCII, and the
    rune stands for it. *)
Definition foldRune (r : N) : N :=
  if (0x61 <=? r) && (r <=? 0x7A) then r - 0x20
  else if r =? 0x017F then 0x53
  else if r =? 0x212A then 0x4B
  else r.

(** [foldName] / [appendFoldedName] *)
Fixpoint appendFoldedName (fuel : nat) (inp : list byte) : list byte :=
  match inp with
  | [] => []
  | c :: rest =>
      match fuel with
      | O => []
      | S fuel =>
          if u8 c <? utf8.RuneSelf then
            (if (0x61 <=? u8 c) && (u8 c <=? 0x7A)
             then byte_of_N (u8 c - 0x20) else c)
            :: appendFoldedName fuel rest
          else
            let (r, n) := utf8.DecodeRune inp in
            utf8.EncodeRune (foldRune r) ++ appendFoldedName fuel (skipn n inp)
      end
  end.

Definition foldName (inp : list byte) : list byte :=
  appendFoldedName (List.length inp) inp.

(** The field a key selects among the JSON names [names] of a struct:
    [fields.byExactName[key]], else [fields.byFoldedName[foldName(key)]]. *)
Definition lookup_field (names : list string) (key : list byte)
  : option string :=
  match find (fun n => bytes_eqb (bytes n) key) names with
  | Some n => Some n
  | None =>
      find (fun n => bytes_eqb (foldName (bytes n)) (foldName key)) names
  end.

(** [d.saveError]: the first error is kept. *)
Definition saveError (saved : option error) (e : option error)
  : option error :=
  match saved with
  | Some _ => saved
  | None => e
  end.

(** A value stored in a Go [string] ([literalStore]): a JSON string sets
    it, [null] leaves it as it is, anything else is a type error that is
    saved while decoding goes on. *)
Definition store_string (field : string) (v : value) (old : string)
  : string * option error :=
  match v with
  | JString s => (string_of_list_byte s, None)
  | JNull => (old, None)
  | _ => (old, Some (UnmarshalTypeError field))
  end.

(** A JSON array stored in a [[]string] ([d.array]): element [i] is decoded
    into the element the slice already has at [i], or into a new empty
    string. *)
Fixpoint store_elements (field : string) (vs : list value) (old : list string)
  : list string * option error :=
  match vs with
  | [] => ([], None)
  | v :: vs' =>
      let '(o, old') := match old with
                        | [] => (EmptyString, [])
                        | o :: old' => (o, old')
                        end in
      let (x, e) := store_string field v o in
      let (xs, e') := store_elements field vs' old' in
      (x :: xs, saveError e e')
  end.

Definition store_string_slice (field : string) (v : value) (old : list string)
  : list string * option error :=
  match v with
  | JArray vs => store_elements field vs old
  | JNull => ([], None)
  | _ => (old, Some (UnmarshalTypeError field))
  end.

(** *** [SessionDescription] *)

(** [SDPType.MarshalJSON]: [json.Marshal(t.String())] *)
Definition SDPType_MarshalJSON (t : webrtc.SDPType) : list byte :=
  Marshal_string (webrtc.SDPType_String t).

(** [SDPType.UnmarshalJSON]: the value is unmarshalled into a string [s]
    that starts empty, and [strings.ToLower(s)] selects the type. *)
Definition SDPType_UnmarshalJSON (v : value) : result webrtc.SDPType :=
  match store_string "type" v EmptyString with
  | (_, Some e) => Err e
  | (s, None) =>
      let l := strings.ToLower s in
      if String.eqb l "offer" then Ok webrtc.SDPTypeOffer
      else if String.eqb l "pranswer" then Ok webrtc.SDPTypePranswer
      else if String.eqb l "answer" then Ok webrtc.SDPTypeAnswer
      else if String.eqb l "rollback" then Ok webrtc.SDPTypeRollback
      else Err ErrUnknownType
  end.

Definition quoted_key (name : string) : list byte :=
  dquote :: bytes name ++ [dquote; ":"%byte].

(** [json.Marshal(obj)] for [obj *webrtc.SessionDescription]; a nil pointer
    is [null].  No value of this type makes [Marshal] fail. *)
Definition Marshal (obj : option webrtc.SessionDescription)
  : result (list byte) :=
  match obj with
  | None => Ok (bytes "null")
  | Some d =>
      Ok ("{"%byte :: quoted_key "type"
            ++ SDPType_MarshalJSON (webrtc.Type_ d)
            ++ ","%byte :: quoted_key "sdp"
            ++ Marshal_string (webrtc.SDP d)
            ++ ["}"%byte])
  end.

(** [d.object] for a [SessionDescription]: the members in order, each one
    stored in the field its key selects, skipped when it selects none.
    The error of [SDPType.UnmarshalJSON] ends the decoding at once. *)
Fixpoint object_SessionDescription (ms : list (list byte * value))
  (obj : webrtc.SessionDescription) (saved : option error)
  : result (webrtc.SessionDescription * option error) :=
  match ms with
  | [] => Ok (obj, saved)
  | (key, v) :: ms' =>
      match lookup_field ["type"; "sdp"]%string key with
      | Some f =>
          if String.eqb f "type" then
            match SDPType_UnmarshalJSON v with
            | Err e => Err e
            | Ok t =>
                object_SessionDescription ms'
                  {| webrtc.Type_ := t; webrtc.SDP := webrtc.SDP obj |} saved
            end
          else
            let (s, e) := store_string "sdp" v (webrtc.SDP obj) in
            object_SessionDescription ms'
              {| webrtc.Type_ := webrtc.Type_ obj; webrtc.SDP := s |}
              (saveError saved e)
      | None => object_SessionDescription ms' obj saved
      end
  end.

(** [d.value] for a struct target: an object is decoded member by member,
    [null] changes nothing, any other value is a type error. *)
Definition value_SessionDescription (v : value)
  (obj : webrtc.SessionDescription) : result webrtc.SessionDescription :=
  match v with
  | JObject ms =>
      match object_SessionDescription ms obj None with
      | Err e => Err e
      | Ok (obj', Some e) => Err e
      | Ok (obj', None) => Ok obj'
      end
  | JNull => Ok obj
  | _ => Err (UnmarshalTypeError "SessionDescription")
  end.

(** [json.Unmarshal(data, obj)] for [obj *webrtc.SessionDescription]: the
    description [obj] points to afterwards, or the error.  (After an error
    Go leaves in [obj] the fields stored before it; [main.go] panics on the
    error.) *)
Definition Unmarshal (data : list byte) (obj : webrtc.SessionDescription)
  : result webrtc.SessionDescription :=
  match parse_document data with
  | None => Err SyntaxError
  | Some v => value_SessionDescription v obj
  end.

(** *** [TurnCredentials] *)

Fixpoint object_ICECredentials (ms : list (list byte * value))
  (c : ICECredentials_t) (saved : option error)
  : ICECredentials_t * option error :=
  match ms with
  | [] => (c, saved)
  | (key, v) :: ms' =>
      match lookup_field ["urls"; "username"; "credential"]%string key with
      | Some f =>
          if String.eqb f "urls" then
            let (x, e) := store_string_slice "urls" v (URLs c) in
            object_ICECredentials ms'
              {| URLs := x; Username := Username c; Credential := Credential c |}
              (saveError saved e)
          else if String.eqb f "username" then
            let (x, e) := store_string "username" v (Username c) in
            object_ICECredentials ms'
              {| URLs := URLs c; Username := x; Credential := Credential c |}
              (saveError saved e)
          else
            let (x, e) := store_string "credential" v (Credential c) in
            object_ICECredentials ms'
              {| URLs := URLs c; Username := Username c; Credential := x |}
              (saveError saved e)
      | None => object_ICECredentials ms' c saved
      end
  end.

Definition value_ICECredentials (v : value) (c : ICECredentials_t)
  : ICECredentials_t * option error :=
  match v with
  | JObject ms => object_ICECredentials ms c None
  | JNull => (c, None)
  | _ => (c, Some (UnmarshalTypeError "iceServers"))
  end.

Fixpoint object_TurnCredentials (ms : list (list byte * value))
  (t : TurnCredentials) (saved : option error)
  : TurnCredentials * option error :=
  match ms with
  | [] => (t, saved)
  | (key, v) :: ms' =>
      match lookup_field ["iceServers"]%string key with
      | Some _ =>
          let (c, e) := value_ICECredentials v (ICECredentials t) in
          object_TurnCredentials ms' {| ICECredentials := c |}
            (saveError saved e)
      | None => object_TurnCredentials ms' t saved
      end
  end.

Definition value_TurnCredentials (v : value) (t : TurnCredentials)
  : result TurnCredentials :=
  match v with
  | JObject ms =>
      match object_TurnCredentials ms t None with
      | (_, Some e) => Err e
      | (t', None) => Ok t'
      end
  | JNull => Ok t
  | _ => Err (UnmarshalTypeError "TurnCredentials")
  end.

(** [json.NewDecoder(body).Decode(&credentials)] on a body read without a
    transport error: the first JSON value of the stream is decoded and
    what follows it is left unread.  An empty stream is [io.EOF]; a stream
    that ends inside a value is reported as a syntax error here
    ([io.ErrUnexpectedEOF] in Go). *)
Definition Decode (body : list byte) (t : TurnCredentials)
  : result TurnCredentials :=
  match skip_space body with
  | [] => Err ErrEOF
  | _ :: _ =>
      match parse_value (S (2 * List.length body)) 0 body with
      | None => Err SyntaxError
      | Some (v, _) => value_TurnCredentials v t
      end
  end.

End json.

(** ** Processes: outcomes and observable events *)

Module rtp.
(** [rtp.Packet]: the header fields the specification names and the
    payload. *)
Record Packet : Type := {
  SequenceNumber : N;
  Timestamp : N;
  PayloadType : N;
  Payload : list byte
}.
End rtp.

Module http.
Record Request : Type := {
  Method : string;
  URL : string;
  Header : list (string * string);   (* in the order of [Header.Add] *)
  Body : list byte
}.

Record Response : Type := {
  StatusCode : N;
  Status : string;                   (* e.g. "403 Forbidden" *)
  Response_Body : list byte
}.

Definition StatusCreated : N := 201.
End http.

(** What a run of [main.go] does that its environment can see. *)
Inductive event : Type :=
| EvDo (req : http.Request)                              (* client.Do(req) *)
| EvBodyClose                                            (* resp.Body.Close() *)
| EvPrint (s : string)                                   (* fmt.Printf, fmt.Println *)
| EvCall (name : string)                                 (* a call of the transport library *)
| EvNewPeerConnection (config : webrtc.Configuration)
| EvSetRemoteDescription (d : webrtc.SessionDescription)
| EvSetLocalDescription (d : webrtc.SessionDescription)
| EvGo (name : string)                                   (* a goroutine is started *)
| EvReadRTP (r : result rtp.Packet)                      (* track.ReadRTP() returned *)
| EvWriteRTP (p : rtp.Packet)                            (* outputTrack.WriteRTP(p) *)
| EvRead (buflen : nat)                                  (* rtpSender.Read(buf) returned *)
| EvExit (code : Z).                                     (* os.Exit(code) *)

(** How a function or a goroutine ends. *)
Inductive outcome (A : Type) : Type :=
| Returned (a : A)
| Panicked (e : error)   (* panic(e); nothing in main.go recovers, so the
                            process dies with it *)
| Exited (code : Z)      (* os.Exit(code): the process is gone *)
| Blocked                (* waits for ever: no packet comes, select {} *)
| Spinning.              (* the fuel of a loop ran out: still running *)

Arguments Returned {A} a.
Arguments Panicked {A} e.
Arguments Exited {A} code.
Arguments Blocked {A}.
Arguments Spinning {A}.

(** A computation: the events it emits, in order, and how it ends. *)
Definition M (A : Type) : Type := list event * outcome A.

Definition ret {A} (a : A) : M A := ([], Returned a).

Definition bind {A B} (m : M A) (f : A -> M B) : M B :=
  match m with
  | (t, Returned a) => let (t', o) := f a in (t ++ t', o)
  | (t, Panicked e) => (t, Panicked e)
  | (t, Exited c) => (t, Exited c)
  | (t, Blocked) => (t, Blocked)
  | (t, Spinning) => (t, Spinning)
  end.

Notation "x <- m ;; k" := (bind m (fun x => k))
  (at level 61, m at next level, right associativity).
Notation "m ;;; k" := (bind m (fun _ => k))
  (at level 61, right associativity).

Definition emit (e : event) : M unit := ([e], Returned tt).
Definition panic {A} (e : error) : M A := ([], Panicked e).
Definition os_Exit {A} (code : Z) : M A := ([EvExit code], Exited code).
Definition block {A} : M A := ([], Blocked).

(** The text written on standard output by [fmt.Printf]; [fmt.Println] adds
    the newline. *)
Definition newline : string := String (ascii_of_byte x0a) EmptyString.
Definition Print (s : string) : M unit := emit (EvPrint s).
Definition Println (s : string) : M unit := emit (EvPrint (s ++ newline)).

(** [if err != nil { panic(err) }] *)
Definition must (err : option error) : M unit :=
  match err with
  | Some e => panic e
  | None => ret tt
  end.

(** [defer d] around [body]: [d] runs when [body] returns and when it
    panics, not when the process exits or never leaves [body]. *)
Definition defer {A} (d : M unit) (body : M A) : M A :=
  match body with
  | (t, Returned a) => let (t', o) := d in
                       (t ++ t', match o with
                                 | Returned _ => Returned a
                                 | Panicked e => Panicked e
                                 | Exited c => Exited c
                                 | Blocked => Blocked
                                 | Spinning => Spinning
                                 end)
  | (t, Panicked e) => let (t', o) := d in
                       (t ++ t', match o with
                                 | Returned _ => Panicked e
                                 | Panicked e' => Panicked e'
                                 | Exited c => Exited c
                                 | Blocked => Blocked
                                 | Spinning => Spinning
                                 end)
  | other => other
  end.

Definition trace {A} (m : M A) : list event := fst m.
Definition result_of {A} (m : M A) : outcome A := snd m.

(** [strconv.Itoa] on a number that is not negative. *)
Definition decimal (n : N) : string :=
  DecimalString.NilZero.string_of_uint (N.to_uint n).

(** [err.Error()] *)
Definition Error (e : error) : string :=
  match e with
  | CorruptInputError n => "illegal base64 data at input byte " ++ decimal n
  | SyntaxError => "invalid character in JSON input"
      (* the texts of the two json errors vary with the input; abridged *)
  | UnmarshalTypeError f => "json: cannot unmarshal value into Go value " ++ f
  | ErrUnknownType => "unknown"
  | ErrEOF => "EOF"
  | Errorf msg => msg
  | External msg => msg
  end.

(** [errors.Is(err, io.EOF)] *)
Definition is_EOF (e : error) : bool :=
  match e with
  | ErrEOF => true
  | _ => false
  end.

(** ** The console: [os.Stdin] behind a [bufio.Reader] *)

Module bufio.
(** Standard input as a file or a pipe: the bytes not read yet, and what
    every read returns once they are used up, [io.EOF] or a read error. *)
Record Reader : Type := {
  unread : list byte;
  at_end : error
}.

(** The bytes up to and including the first [delim], and the bytes after
    it when there is one. *)
Fixpoint split_line (delim : byte) (s : list byte)
  : list byte * option (list byte) :=
  match s with
  | [] => ([], None)
  | c :: r =>
      if Byte.eqb c delim then ([c], Some r)
      else let (l, o) := split_line delim r in (c :: l, o)
  end.

(** [Reader.ReadString(delim)]: the data up to and including the
    delimiter, or the data read before the error and the error. *)
Definition ReadString (r : Reader) (delim : byte)
  : (string * option error) * Reader :=
  match split_line delim (unread r) with
  | (line, Some rest) =>
      ((string_of_list_byte line, None),
       {| unread := rest; at_end := at_end r |})
  | (line, None) =>
      ((string_of_list_byte line, Some (at_end r)),
       {| unread := []; at_end := at_end r |})
  end.
End bufio.

(** ** main.go *)

(** *** Session codec *)

(** [encode]: JSON encode + base64 a SessionDescription. *)
Definition encode (obj : option webrtc.SessionDescription) : M string :=
  match json.Marshal obj with
  | Err err => panic err
  | Ok b => ret (base64.EncodeToString b)
  end.

(** [decode]: decode a base64 and unmarshal JSON into a SessionDescription.
    The Go function fills [*obj]; here it returns the description [obj]
    points to when it returns. *)
Definition decode (inp : string) (obj : webrtc.SessionDescription)
  : M webrtc.SessionDescription :=
  match base64.DecodeString inp with
  | Err err => panic err
  | Ok b =>
      match json.Unmarshal b obj with
      | Err err => panic err
      | Ok obj' => ret obj'
      end
  end.

(** *** Reading the offer *)

(** [readUntilNewline], [fuel] bounding the rounds of its loop. *)
Fixpoint readUntilNewline_loop (fuel : nat) (r : bufio.Reader) : M string :=
  match fuel with
  | O => ([], Spinning)
  | S fuel =>
      let '((inp, err), r') := bufio.ReadString r x0a in
      let rest :=
        let inp := strings.TrimSpace inp in
        if (0 <? String.length inp)%nat then ret inp
        else readUntilNewline_loop fuel r' in
      match err with
      | Some e => if negb (is_EOF e) then panic e else rest
      | None => rest
      end
  end.

Definition readUntilNewline (fuel : nat) (stdin : bufio.Reader) : M string :=
  inp <- readUntilNewline_loop fuel stdin ;;
  Println EmptyString ;;;
  ret inp.

(** *** The environment of a run *)

(** The configuration read from the process environment, the network, the
    console and the answers of the transport library: everything [main]
    takes from outside. *)
Record World : Type := {
  CLOUDFLARE_API_TOKEN : string;
  TURN_TOKEN : string;
  (** [url.Parse] inside [http.NewRequest]: the error for a URL it rejects *)
  url_Parse : string -> option error;
  (** [client.Do]: the issuer's response, or the transport error *)
  client_Do : http.Request -> result http.Response;
  stdin : bufio.Reader;
  RegisterCodec : option error;
  RegisterDefaultInterceptors : option error;
  NewReceiverInterceptor : option error;
  NewPeerConnection : webrtc.Configuration -> option error;
  Close : option error;
  NewTrackLocalStaticRTP : option error;
  AddTrack : option error;
  SetRemoteDescription : webrtc.SessionDescription -> option error;
  CreateAnswer : result webrtc.SessionDescription;
  SetLocalDescription : webrtc.SessionDescription -> option error;
  (** whether ICE gathering completes; otherwise [<-gatherComplete] waits
      for ever *)
  gatherComplete : bool;
  LocalDescription : option webrtc.SessionDescription
}.

(** *** Credential broker *)

Definition cloudflareAPI : string := "https://rtc.live.cloudflare.com/v1".

Definition cloudflareApiToken (w : World) : string := CLOUDFLARE_API_TOKEN w.
Definition turnToken (w : World) : string := TURN_TOKEN w.
Definition cloudflareTurnAPI (w : World) : string :=
  cloudflareAPI ++ "/turn/keys/" ++ turnToken w ++ "/credentials/generate".

(** The raw string literal of the request body. *)
Definition ttl_body : list byte :=
  "{"%byte :: json.dquote :: bytes "ttl" ++ json.dquote :: bytes ": 86400}".

(** The request [getTurnCredentials] has built when it calls [client.Do]. *)
Definition turn_request (w : World) : http.Request :=
  {| http.Method := "POST";
     http.URL := cloudflareTurnAPI w;
     http.Header := [("Authorization", "Bearer " ++ cloudflareApiToken w);
                     ("Content-Type", "application/json")]%string;
     http.Body := ttl_body |}.

Definition getTurnCredentials (w : World) : M (result TurnCredentials) :=
  let url := cloudflareTurnAPI w in
  match url_Parse w url with                 (* http.NewRequest("POST", url, nil) *)
  | Some err => ret (Err err)
  | None =>
      let req := turn_request w in
      emit (EvDo req) ;;;
      match client_Do w req with
      | Err err => ret (Err err)
      | Ok resp =>
          defer (emit EvBodyClose)
            (if negb (http.StatusCode resp =? http.StatusCreated)%N then
               ret (Err (Errorf ("failed to get TURN credentials, status: "
                                   ++ http.Status resp)))
             else
               match json.Decode (http.Response_Body resp) TurnCredentials_zero with
               | Err err => ret (Err err)
               | Ok credentials => ret (Ok credentials)
               end)
      end
  end.

(** *** Media pipeline *)

(** The goroutine that reads incoming RTCP packets.  [reads] holds what the
    successive calls of [rtpSender.Read] return, the packet copied into the
    buffer or the error; when it is used up no further call returns. *)
Fixpoint rtcp_loop (reads : list (result (list byte))) (rtcpBuf : list byte)
  : M unit :=
  match reads with
  | [] => block
  | Err rtcpErr :: _ =>
      emit (EvRead (List.length rtcpBuf)) ;;;
      ret tt
  | Ok data :: reads' =>
      emit (EvRead (List.length rtcpBuf)) ;;;
      let n := Nat.min (List.length data) (List.length rtcpBuf) in
      rtcp_loop reads' (firstn n data ++ skipn n rtcpBuf)
  end.

Definition rtcp_goroutine (reads : list (result (list byte))) : M unit :=
  let rtcpBuf := repeat x00 1500 in
  rtcp_loop reads rtcpBuf.

(** The remote track handed to the [OnTrack] callback: [reads] holds what the
    successive calls of [track.ReadRTP] return; when it is used up no
    further packet comes. *)
Record TrackRemote : Type := {
  track_PayloadType : N;
  track_MimeType : string;
  reads : list (result rtp.Packet)
}.

(** [outputTrack]: what the [n]-th call of [WriteRTP] returns for the packet
    it is given. *)
Definition TrackLocal : Type := nat -> rtp.Packet -> option error.

(** The [for] loop of the [OnTrack] callback; [n] counts the writes done. *)
Fixpoint relay_loop (reads : list (result rtp.Packet)) (outputTrack : TrackLocal)
  (n : nat) : M unit :=
  match reads with
  | [] => block
  | r :: reads' =>
      emit (EvReadRTP r) ;;;
      match r with
      | Err readErr => panic readErr
      | Ok rtp =>
          emit (EvWriteRTP rtp) ;;;
          match outputTrack n rtp with
          | Some writeErr => panic writeErr
          | None => relay_loop reads' outputTrack (S n)
          end
      end
  end.

Definition OnTrack (outputTrack : TrackLocal) (track : TrackRemote) : M unit :=
  Print ("Track has started, of type " ++ decimal (track_PayloadType track)
           ++ ": " ++ track_MimeType track ++ " " ++ newline) ;;;
  relay_loop (reads track) outputTrack 0.

(** *** Connection lifecycle *)

Definition OnConnectionStateChange (s : webrtc.PeerConnectionState) : M unit :=
  Print ("Peer Connection State has changed: "
           ++ webrtc.PeerConnectionState_String s ++ newline) ;;;
  (if webrtc.PeerConnectionState_eqb s webrtc.PeerConnectionStateFailed then
     Println "Peer Connection has gone to failed exiting" ;;;
     os_Exit 0
   else ret tt) ;;;
  (if webrtc.PeerConnectionState_eqb s webrtc.PeerConnectionStateClosed then
     Println "Peer Connection has gone to closed exiting" ;;;
     os_Exit 0
   else ret tt).

(** The transport calls the handler once per state change; a handler that
    exits the process ends the run. *)
Fixpoint deliver (states : list webrtc.PeerConnectionState) : M unit :=
  match states with
  | [] => ret tt
  | s :: states' => OnConnectionStateChange s ;;; deliver states'
  end.

(** *** main *)

Definition main (fuel : nat) (w : World) : M unit :=
  r <- getTurnCredentials w ;;
  match r with
  | Err err => panic err
  | Ok turnCredentials =>
      emit (EvCall "RegisterCodec") ;;; must (RegisterCodec w) ;;;
      emit (EvCall "RegisterDefaultInterceptors") ;;;
      must (RegisterDefaultInterceptors w) ;;;
      emit (EvCall "NewReceiverInterceptor") ;;;
      must (NewReceiverInterceptor w) ;;;
      emit (EvCall "NewAPI") ;;;
      let config :=
        {| webrtc.ICEServers :=
             [{| webrtc.ICEServer_URLs := URLs (ICECredentials turnCredentials);
                 webrtc.ICEServer_Username := Username (ICECredentials turnCredentials);
                 webrtc.ICEServer_Credential := Credential (ICECredentials turnCredentials) |}] |} in
      emit (EvNewPeerConnection config) ;;; must (NewPeerConnection w config) ;;;
      defer (emit (EvCall "Close") ;;;
             match Close w with
             | Some cErr =>
                 Print ("cannot close peerConnection: " ++ Error cErr ++ newline)
             | None => ret tt
             end)
        (emit (EvCall "NewTrackLocalStaticRTP") ;;;
         must (NewTrackLocalStaticRTP w) ;;;
         emit (EvCall "AddTrack") ;;; must (AddTrack w) ;;;
         emit (EvGo "rtcp") ;;;
         inp <- readUntilNewline fuel (stdin w) ;;
         offer <- decode inp webrtc.zero ;;
         emit (EvSetRemoteDescription offer) ;;;
         must (SetRemoteDescription w offer) ;;;
         emit (EvCall "OnTrack") ;;;
         emit (EvCall "OnConnectionStateChange") ;;;
         emit (EvCall "CreateAnswer") ;;;
         match CreateAnswer w with
         | Err err => panic err
         | Ok answer =>
             emit (EvCall "GatheringCompletePromise") ;;;
             emit (EvSetLocalDescription answer) ;;;
             must (SetLocalDescription w answer) ;;;
             (if gatherComplete w then ret tt else block) ;;;
             emit (EvCall "LocalDescription") ;;;
             s <- encode (LocalDescription w) ;;
             Println s ;;;
             block
         end)
  end.

(** ** Observations on traces, and the vocabulary of the specification *)

(** The packets written to the outbound track, in the order of the writes. *)
Definition written (t : list event) : list rtp.Packet :=
  flat_map (fun e => match e with EvWriteRTP p => [p] | _ => [] end) t.

(** The packets read successfully from the inbound track, in order. *)
Definition read_ok (t : list event) : list rtp.Packet :=
  flat_map (fun e => match e with EvReadRTP (Ok p) => [p] | _ => [] end) t.

(** The exit codes of the termination actions issued. *)
Definition exits (t : list event) : list Z :=
  flat_map (fun e => match e with EvExit c => [c] | _ => [] end) t.

(** The requests sent to the issuer. *)
Definition requests (t : list event) : list http.Request :=
  flat_map (fun e => match e with EvDo r => [r] | _ => [] end) t.

Definition is_NewPeerConnection (e : event) : bool :=
  match e with EvNewPeerConnection _ => true | _ => false end.

Definition is_SetRemoteDescription (e : event) : bool :=
  match e with EvSetRemoteDescription _ => true | _ => false end.

Definition is_Print (e : event) : bool :=
  match e with EvPrint _ => true | _ => false end.

(** The states on which the specification ends the process. *)
Definition terminal (s : webrtc.PeerConnectionState) : bool :=
  match s with
  | webrtc.PeerConnectionStateFailed | webrtc.PeerConnectionStateClosed => true
  | _ => false
  end.

(** [sub] occurs in [s]. *)
Definition contains (s sub : string) : Prop :=
  exists a b : string, s = (a ++ sub ++ b)%string.

(** The request of the specification, section 6: [POST
    {base}/turn/keys/{key_id}/credentials/generate] with the bearer token,
    the JSON content type and the body [{"ttl": <integer seconds>}]. *)
Definition spec_request (issuer_base_url relay_key_id api_token : string)
  (ttl_seconds : N) : http.Request :=
  {| http.Method := "POST";
     http.URL := issuer_base_url ++ "/turn/keys/" ++ relay_key_id
                   ++ "/credentials/generate";
     http.Header := [("Authorization", "Bearer " ++ api_token);
                     ("Content-Type", "application/json")]%string;
     http.Body := "{"%byte :: json.dquote :: bytes "ttl" ++ json.dquote
                    :: bytes ": " ++ bytes (decimal ttl_seconds) ++ bytes "}" |}.


(** ** Sample inputs *)

(** A run in which the issuer answers [resp], the operator types [input]
    and every call of the transport library succeeds. *)
Definition sample_answer : webrtc.SessionDescription :=
  {| webrtc.Type_ := webrtc.SDPTypeAnswer; webrtc.SDP := "v=0" |}.

Definition sample_world (resp : http.Response) (input : string) : World :=
  {| CLOUDFLARE_API_TOKEN := "token";
     TURN_TOKEN := "key";
     url_Parse := fun _ => None;
     client_Do := fun _ => Ok resp;
     stdin := {| bufio.unread := bytes input; bufio.at_end := ErrEOF |};
     RegisterCodec := None;
     RegisterDefaultInterceptors := None;
     NewReceiverInterceptor := None;
     NewPeerConnection := fun _ => None;
     Close := None;
     NewTrackLocalStaticRTP := None;
     AddTrack := None;
     SetRemoteDescription := fun _ => None;
     CreateAnswer := Ok sample_answer;
     SetLocalDescription := fun _ => None;
     gatherComplete := true;
     LocalDescription := Some sample_answer |}.

Definition response_403 : http.Response :=
  {| http.StatusCode := 403; http.Status := "403 Forbidden";
     http.Response_Body := [] |}.

(** A 201 response with a full set of credentials. *)
Definition response_created : http.Response :=
  {| http.StatusCode := 201; http.Status := "201 Created";
     http.Response_Body :=
       bytes "{" ++ json.quoted_key "iceServers" ++ bytes "{"
       ++ json.quoted_key "urls" ++ bytes "[" ++ json.Marshal_string "turn:turn.example:3478"
       ++ bytes "]," ++ json.quoted_key "username" ++ json.Marshal_string "user"
       ++ bytes "," ++ json.quoted_key "credential" ++ json.Marshal_string "secret"
       ++ bytes "}}" |}.


Definition pkt (seq : N) (payload : string) : rtp.Packet :=
  {| rtp.SequenceNumber := seq; rtp.Timestamp := 3000 * seq;
     rtp.PayloadType := 96; rtp.Payload := bytes payload |}.

(** ** The vocabulary of the codec *)

(** Valid base64 text (RFC 4648, section 4, with the line breaks that
    [encoding/base64] documents as ignored): once the carriage returns and
    line feeds are taken out, the text is a sequence of groups of four
    characters of the alphabet, the last of which may end with one or two
    padding characters. *)
Module base64_spec.
Definition in_alphabet (c : byte) : bool := negb (base64.decodeMap c =? 255)%N.

Definition is_pad (c : byte) : bool := Byte.eqb c base64.padChar.

Definition is_nil {A} (l : list A) : bool :=
  match l with
  | [] => true
  | _ :: _ => false
  end.

Fixpoint well_formed (s : list byte) : bool :=
  match s with
  | [] => true
  | a :: b :: c :: d :: rest =>
      in_alphabet a && in_alphabet b
      && ((in_alphabet c && in_alphabet d && well_formed rest)
          || (in_alphabet c && is_pad d && is_nil rest)
          || (is_pad c && is_pad d && is_nil rest))
  | _ => false
  end.

Definition strip_newlines (s : list byte) : list byte :=
  filter (fun c => negb (base64.is_newline c)) s.

Definition valid_base64 (s : string) : bool :=
  well_formed (strip_newlines (bytes s)).

(** What one round of [decodeQuantum] accepts, read off the text without
    its line breaks: with [j] sextets in the buffer, the text that is left
    after the quantum, or [None] for an error. *)
Fixpoint quantum_spec (j : nat) (s : list byte) : option (list byte) :=
  if (4 <=? j)%nat then Some s else
  match s with
  | [] => if (j =? 0)%nat then Some [] else None
  | c :: r =>
      if in_alphabet c then quantum_spec (S j) r
      else if is_pad c then
        if (j <? 2)%nat then None
        else if (j =? 2)%nat then
          match r with
          | [p] => if is_pad p then Some [] else None
          | _ => None
          end
        else if is_nil r then Some [] else None
      else None
  end.

End base64_spec.

(** Well-formed UTF-8 (Unicode, table 3-7): the runes of the sequences of
    two, three and four bytes, and the bytes that may begin and continue
    them. *)
Module utf8_spec.
Local Open Scope N_scope.
Definition rune_2 (c0 c1 : byte) : N := (u8 c0 mod 32) * 64 + u8 c1 mod 64.
Definition rune_3 (c0 c1 c2 : byte) : N :=
  (u8 c0 mod 16) * 4096 + (u8 c1 mod 64) * 64 + u8 c2 mod 64.
Definition rune_4 (c0 c1 c2 c3 : byte) : N :=
  (u8 c0 mod 8) * 262144 + (u8 c1 mod 64) * 4096 + (u8 c2 mod 64) * 64
  + u8 c3 mod 64.

Definition lead2 (c0 : byte) : Prop := 0xC2 <= u8 c0 /\ u8 c0 < 0xE0.
Definition cont (c : byte) : Prop := 0x80 <= u8 c /\ u8 c <= 0xBF.
Definition lead3 (c0 c1 : byte) : Prop :=
  0xE0 <= u8 c0 /\ u8 c0 < 0xF0 /\ cont c1
  /\ (u8 c0 = 0xE0 -> 0xA0 <= u8 c1) /\ (u8 c0 = 0xED -> u8 c1 <= 0x9F).
Definition lead4 (c0 c1 : byte) : Prop :=
  0xF0 <= u8 c0 /\ u8 c0 <= 0xF4 /\ cont c1
  /\ (u8 c0 = 0xF0 -> 0x90 <= u8 c1) /\ (u8 c0 = 0xF4 -> u8 c1 <= 0x8F).

End utf8_spec.

Module json_spec.
Import json.
(** A field name that [appendString] leaves as it is. *)
Definition plain_name (name : string) : Prop :=
  appendString_loop (List.length (bytes name)) (bytes name) = bytes name
  /\ utf8.Valid (bytes name) = true.


(** The text [json.Marshal] writes for a description. *)
Definition marshalled (d : webrtc.SessionDescription) : list byte :=
  "{"%byte :: quoted_key "type"
    ++ SDPType_MarshalJSON (webrtc.Type_ d)
    ++ ","%byte :: quoted_key "sdp"
    ++ Marshal_string (webrtc.SDP d)
    ++ ["}"%byte].

End json_spec.

(** A valid session description: its type is one of the four the transport
    knows, its SDP body is valid UTF-8 text. *)
Definition valid_description (d : webrtc.SessionDescription) : Prop :=
  webrtc.Type_ d <> webrtc.SDPTypeUnknown
  /\ utf8.ValidString (webrtc.SDP d) = true.

Module decode_spec.
Import json.

(** The names of the SDP types. *)
Definition names_type (s : string) : bool :=
  String.eqb s "offer" || String.eqb s "pranswer"
  || String.eqb s "answer" || String.eqb s "rollback".

(** JSON that matches the session-description shape, as the specification
    words it: an object with a [type] member that is a string naming an SDP
    type and an [sdp] member that is a string. *)
Definition is_type_member (m : list byte * value) : bool :=
  match m with
  | (key, JString s) =>
      bytes_eqb key (bytes "type") && names_type (string_of_list_byte s)
  | _ => false
  end.

Definition is_sdp_member (m : list byte * value) : bool :=
  match m with
  | (key, JString _) => bytes_eqb key (bytes "sdp")
  | _ => false
  end.

Definition session_shaped (data : list byte) : bool :=
  match parse_document data with
  | Some (JObject ms) => existsb is_type_member ms && existsb is_sdp_member ms
  | _ => false
  end.

(** What [json.Unmarshal] accepts for a description, read off the JSON
    value: [null], or an object in which every member that selects [type]
    is a string naming an SDP type in any letter case and every member that
    selects [sdp] is a string or [null]. *)
Definition type_value_ok (v : value) : bool :=
  match v with
  | JString s => names_type (strings.ToLower (string_of_list_byte s))
  | _ => false
  end.

Definition sdp_value_ok (v : value) : bool :=
  match v with
  | JString _ | JNull => true
  | _ => false
  end.

Definition member_ok (m : list byte * value) : bool :=
  match lookup_field ["type"; "sdp"]%string (fst m) with
  | Some f => if String.eqb f "type" then type_value_ok (snd m)
              else sdp_value_ok (snd m)
  | None => true
  end.

Definition accepts (v : value) : bool :=
  match v with
  | JNull => true
  | JObject ms => forallb member_ok ms
  | _ => false
  end.
End decode_spec.

(** No event of the trace of [m] satisfies [p]. *)
Definition quiet {A} (p : event -> bool) (m : M A) : Prop :=
  existsb p (trace m) = false.

(** ** The vocabulary of the console *)

Module strings_spec.

(** A text contains a character that is not white space: some rune of it,
    decoded from the left, is not [unicode.IsSpace]. *)
Fixpoint has_text_loop (fuel : nat) (s : list byte) : bool :=
  match s with
  | [] => false
  | _ :: _ =>
      match fuel with
      | O => false
      | S fuel =>
          let (r, size) := utf8.DecodeRune s in
          negb (unicode.IsSpace r) || has_text_loop fuel (skipn size s)
      end
  end.

Definition has_text (s : list byte) : bool :=
  has_text_loop (List.length s) s.

(** A text is trimmed of white space: it is not empty and neither its first
    nor its last rune is white space. *)
Definition trimmed (s : list byte) : Prop :=
  s <> []
  /\ unicode.IsSpace (fst (utf8.DecodeRune s)) = false
  /\ unicode.IsSpace (fst (utf8.DecodeLastRune s)) = false.

(** [skipn j t] is empty or begins with a byte that starts a rune. *)
Definition boundary (t : list byte) (j : nat) : Prop :=
  match skipn j t with
  | [] => True
  | c :: _ => utf8.RuneStart c = true
  end.

(** The lines of a text: each ends with its line feed, except the last,
    which is what follows the last line feed and may be empty. *)
Fixpoint lines_from (cur s : list byte) : list (list byte) :=
  match s with
  | [] => [cur]
  | c :: r =>
      if Byte.eqb c x0a then (cur ++ [c]) :: lines_from [] r
      else lines_from (cur ++ [c]) r
  end.

Definition lines (s : list byte) : list (list byte) := lines_from [] s.

(** The lines the console yields: those of its text, the last of them only
    when the text ends with the end of the file and not with a read error. *)
Definition yielded (r : bufio.Reader) : list (list byte) :=
  if is_EOF (bufio.at_end r) then lines (bufio.unread r)
  else removelast (lines (bufio.unread r)).

(** The first of the lines that has text. *)
Definition first_text (ls : list (list byte)) : option (list byte) :=
  find has_text ls.

End strings_spec.

(** A console with two blank lines, a line of text set in white space and a
    further line, and a console with white space only; both end with the end
    of the file. *)
Definition sample_console : bufio.Reader :=
  {| bufio.unread := [x20; x0a; x09; x0d; x0a;
                      x20; x61; x62; x20; x63; x09; x0a;
                      x64; x0a];
     bufio.at_end := ErrEOF |}.

Definition blank_console : bufio.Reader :=
  {| bufio.unread := [x20; x0a; x09]; bufio.at_end := ErrEOF |}.


(** ** Further observations on a run *)

(** The texts written on standard output, in order. *)
Definition printed (t : list event) : list string :=
  flat_map (fun e => match e with EvPrint s => [s] | _ => [] end) t.

(** The configurations [api.NewPeerConnection] was called with. *)
Definition peer_configs (t : list event) : list webrtc.Configuration :=
  flat_map (fun e => match e with EvNewPeerConnection c => [c] | _ => [] end) t.

(** The descriptions handed to [SetRemoteDescription] and to
    [SetLocalDescription]. *)
Definition remote_descriptions (t : list event) : list webrtc.SessionDescription :=
  flat_map (fun e => match e with EvSetRemoteDescription d => [d] | _ => [] end) t.

Definition local_descriptions (t : list event) : list webrtc.SessionDescription :=
  flat_map (fun e => match e with EvSetLocalDescription d => [d] | _ => [] end) t.

Definition is_Do (e : event) : bool :=
  match e with EvDo _ => true | _ => false end.

Definition is_BodyClose (e : event) : bool :=
  match e with EvBodyClose => true | _ => false end.

Definition is_Exit (e : event) : bool :=
  match e with EvExit _ => true | _ => false end.

(** A call of the transport library by its name. *)
Definition is_Call (name : string) (e : event) : bool :=
  match e with EvCall n => String.eqb n name | _ => false end.

Definition count (p : event -> bool) (t : list event) : nat :=
  List.length (filter p t).

(** How a computation ends. *)
Definition returns {A} (m : M A) : bool :=
  match result_of m with Returned _ => true | _ => false end.

Definition panics {A} (m : M A) : bool :=
  match result_of m with Panicked _ => true | _ => false end.

Definition exited {A} (m : M A) : bool :=
  match result_of m with Exited _ => true | _ => false end.

(** A computation that neither returns nor exits the process: it panics or
    it never ends. *)
Definition stuck {A} (m : M A) : Prop :=
  returns m = false /\ exited m = false.

(** The events of [k] rounds of the relay loop on the packets [pkts]. *)
Definition relayed (pkts : list rtp.Packet) : list event :=
  flat_map (fun p => [EvReadRTP (Ok p); EvWriteRTP p]) pkts.

(** The line the [OnTrack] callback prints first. *)
Definition announcement (track : TrackRemote) : string :=
  "Track has started, of type " ++ decimal (track_PayloadType track)
    ++ ": " ++ track_MimeType track ++ " " ++ newline.

(** The lines the state-change handler prints for a state. *)
Definition changed_line (s : webrtc.PeerConnectionState) : string :=
  "Peer Connection State has changed: "
    ++ webrtc.PeerConnectionState_String s ++ newline.

Definition exiting_line (s : webrtc.PeerConnectionState) : string :=
  "Peer Connection has gone to " ++ webrtc.PeerConnectionState_String s
    ++ " exiting" ++ newline.

(** The configuration [main] prepares from the credentials. *)
Definition ice_config (c : TurnCredentials) : webrtc.Configuration :=
  {| webrtc.ICEServers :=
       [{| webrtc.ICEServer_URLs := URLs (ICECredentials c);
           webrtc.ICEServer_Username := Username (ICECredentials c);
           webrtc.ICEServer_Credential := Credential (ICECredentials c) |}] |}.

(** The deferred function of [main]. *)
Definition closing (w : World) : M unit :=
  emit (EvCall "Close") ;;;
  match Close w with
  | Some cErr =>
      Print ("cannot close peerConnection: " ++ Error cErr ++ newline)
  | None => ret tt
  end.

(** The events of the deferred function. *)
Definition closing_events (w : World) : list event :=
  EvCall "Close"
    :: match Close w with
       | Some cErr =>
           [EvPrint ("cannot close peerConnection: " ++ Error cErr ++ newline)]
       | None => []
       end.

(** What [main] does between the [defer] and its end. *)
Definition session_body (fuel : nat) (w : World) : M unit :=
  emit (EvCall "NewTrackLocalStaticRTP") ;;;
  must (NewTrackLocalStaticRTP w) ;;;
  emit (EvCall "AddTrack") ;;; must (AddTrack w) ;;;
  emit (EvGo "rtcp") ;;;
  inp <- readUntilNewline fuel (stdin w) ;;
  offer <- decode inp webrtc.zero ;;
  emit (EvSetRemoteDescription offer) ;;;
  must (SetRemoteDescription w offer) ;;;
  emit (EvCall "OnTrack") ;;;
  emit (EvCall "OnConnectionStateChange") ;;;
  emit (EvCall "CreateAnswer") ;;;
  match CreateAnswer w with
  | Err err => panic err
  | Ok answer =>
      emit (EvCall "GatheringCompletePromise") ;;;
      emit (EvSetLocalDescription answer) ;;;
      must (SetLocalDescription w answer) ;;;
      (if gatherComplete w then ret tt else block) ;;;
      emit (EvCall "LocalDescription") ;;;
      s <- encode (LocalDescription w) ;;
      Println s ;;;
      block
  end.

(** The fetch returns the credentials [c] and the calls of [main] that come
    before the creation of the peer connection succeed. *)
Definition sets_up (w : World) (c : TurnCredentials) : Prop :=
  result_of (getTurnCredentials w) = Returned (Ok c)
  /\ RegisterCodec w = None
  /\ RegisterDefaultInterceptors w = None
  /\ NewReceiverInterceptor w = None.

(** Moreover the peer connection is created. *)
Definition connects (w : World) (c : TurnCredentials) : Prop :=
  sets_up w c /\ NewPeerConnection w (ice_config c) = None.

(** The events of [main] between the [defer] and the call of
    [SetRemoteDescription] with [offer], that call included. *)
Definition offering_events (offer : webrtc.SessionDescription) : list event :=
  [EvCall "NewTrackLocalStaticRTP"; EvCall "AddTrack"; EvGo "rtcp";
   EvPrint newline; EvSetRemoteDescription offer].

(** The events of [main] after it, on to the printing of [token]. *)
Definition answering_events (answer : webrtc.SessionDescription)
  (token : string) : list event :=
  [EvCall "OnTrack"; EvCall "OnConnectionStateChange"; EvCall "CreateAnswer";
   EvCall "GatheringCompletePromise"; EvSetLocalDescription answer;
   EvCall "LocalDescription"; EvPrint (token ++ newline)].

(** The events of [main] up to the creation of the peer connection. *)
Definition connecting_events (w : World) (c : TurnCredentials) : list event :=
  trace (getTurnCredentials w)
    ++ [EvCall "RegisterCodec"; EvCall "RegisterDefaultInterceptors";
        EvCall "NewReceiverInterceptor"; EvCall "NewAPI";
        EvNewPeerConnection (ice_config c)].

(** White space of a line other than the line feed that ends it. *)
Definition inline_space (c : byte) : bool :=
  strings.asciiSpace c && negb (Byte.eqb c x0a).

(** A byte of a token: ASCII and no white space. *)
Definition token_byte (c : byte) : bool :=
  (u8 c <? utf8.RuneSelf)%N && negb (strings.asciiSpace c).

(** What the operator pastes: blank lines, then a line that holds the token
    [tok] with white space around it, then anything. *)
Definition pasted (blanks : list (list byte)) (ws1 tok ws2 rest : list byte)
  : list byte :=
  List.concat (map (fun b => b ++ [x0a]) blanks)
    ++ ws1 ++ tok ++ ws2 ++ x0a :: rest.

(** ** Further sample inputs *)

Definition sample_offer : webrtc.SessionDescription :=
  {| webrtc.Type_ := webrtc.SDPTypeOffer; webrtc.SDP := "v=0" |}.

(** The token of [sample_offer] as [encode] writes it. *)
Definition sample_token : string :=
  base64.EncodeToString (json_spec.marshalled sample_offer).

(** A run in which every call succeeds and the operator pastes the token of
    [sample_offer]. *)
Definition happy_world : World :=
  sample_world response_created (sample_token ++ newline).

(** A run without network: [client.Do] fails. *)
Definition offline_world : World :=
  {| CLOUDFLARE_API_TOKEN := "token";
     TURN_TOKEN := "key";
     url_Parse := fun _ => None;
     client_Do := fun _ => Err (External "dial tcp: connection refused");
     stdin := {| bufio.unread := []; bufio.at_end := ErrEOF |};
     RegisterCodec := None;
     RegisterDefaultInterceptors := None;
     NewReceiverInterceptor := None;
     NewPeerConnection := fun _ => None;
     Close := None;
     NewTrackLocalStaticRTP := None;
     AddTrack := None;
     SetRemoteDescription := fun _ => None;
     CreateAnswer := Ok sample_answer;
     SetLocalDescription := fun _ => None;
     gatherComplete := true;
     LocalDescription := Some sample_answer |}.

(** A run in which the transport rejects the offer and then fails to
    close. *)
Definition rejecting_world : World :=
  {| CLOUDFLARE_API_TOKEN := "token";
     TURN_TOKEN := "key";
     url_Parse := fun _ => None;
     client_Do := fun _ => Ok response_created;
     stdin := {| bufio.unread := bytes (sample_token ++ newline);
                 bufio.at_end := ErrEOF |};
     RegisterCodec := None;
     RegisterDefaultInterceptors := None;
     NewReceiverInterceptor := None;
     NewPeerConnection := fun _ => None;
     Close := Some (External "already closed");
     NewTrackLocalStaticRTP := None;
     AddTrack := None;
     SetRemoteDescription := fun _ => Some (External "invalid offer");
     CreateAnswer := Ok sample_answer;
     SetLocalDescription := fun _ => None;
     gatherComplete := true;
     LocalDescription := Some sample_answer |}.

(** A console on which a read fails after a blank line. *)
Definition broken_console : bufio.Reader :=
  {| bufio.unread := [x20; x0a; x09];
     bufio.at_end := External "read /dev/stdin: input/output error" |}.

(** The credentials of [response_created]. *)
Definition sample_credentials : TurnCredentials :=
  {| ICECredentials :=
       {| URLs := ["turn:turn.example:3478"%string];
          Username := "user";
          Credential := "secret" |} |}.

(** A run in which every call succeeds and the console is at its end. *)
Definition silent_world : World :=
  sample_world response_created EmptyString.

(** The JSON text of an object with a [type] member and no [sdp] member,
    and its token. *)
Definition type_only_text : list byte :=
  "{"%byte :: json.quoted_key "type" ++ json.Marshal_string "offer" ++ bytes "}".

Definition type_only_token : string := base64.EncodeToString type_only_text.
(** * Properties *)

(** ** Bytes and bits *)

Ltac nlia := zify; Z.to_euclidean_division_equations; lia.

Lemma u8_lt_256 (b : byte) : (u8 b < 256)%N.
Proof. unfold u8. pose proof (Byte.to_N_bounded b). lia. Qed.

Lemma land_mod_pow2 (x k : N) : N.land x (N.ones k) = (x mod 2 ^ k)%N.
Proof. apply N.land_ones. Qed.

Lemma land_low_0 (k x y : N) :
  (y < 2 ^ k)%N -> (x mod 2 ^ k = 0)%N -> N.land x y = 0%N.
Proof.
  intros Hy Hx.
  apply N.bits_inj. intro n. rewrite N.land_spec, N.bits_0.
  destruct (N.lt_ge_cases n k) as [L|G].
  - rewrite <- (N.mod_pow2_bits_low x k n L), Hx, N.bits_0. reflexivity.
  - rewrite <- (N.mod_small y (2 ^ k)) by exact Hy.
    rewrite (N.mod_pow2_bits_high y k n G). apply andb_false_r.
Qed.

(** [x | y] is [x + y] when [y] fits under the low zero bits of [x]. *)
Lemma lor_low (k x y : N) :
  (y < 2 ^ k)%N -> (x mod 2 ^ k = 0)%N -> N.lor x y = (x + y)%N.
Proof.
  intros Hy Hx. pose proof (@land_low_0 k x y Hy Hx) as H0.
  rewrite (N.add_nocarry_lxor _ _ H0). symmetry. apply N.lxor_lor. exact H0.
Qed.

Lemma u8_byte_of_N (n : N) : u8 (byte_of_N n) = (n mod 256)%N.
Proof.
  unfold byte_of_N, u8. change 255%N with (N.ones 8). rewrite N.land_ones.
  change (2 ^ 8)%N with 256%N.
  destruct (Byte.of_N (n mod 256)) as [b|] eqn:E.
  - apply Byte.to_of_N in E. exact E.
  - apply Byte.of_N_None_iff in E.
    pose proof (N.mod_upper_bound n 256). lia.
Qed.

Lemma u8_inj (a b : byte) : u8 a = u8 b -> a = b.
Proof.
  unfold u8. intro H. apply (f_equal Byte.of_N) in H.
  rewrite !Byte.of_to_N in H. congruence.
Qed.

Lemma byte_of_N_eq (n : N) (b : byte) : (n mod 256 = u8 b)%N -> byte_of_N n = b.
Proof. intro H. apply u8_inj. rewrite u8_byte_of_N. exact H. Qed.

Lemma byte_eqb_eq (a b : byte) : Byte.eqb a b = true <-> a = b.
Proof.
  split.
  - apply Byte.byte_dec_bl.
  - apply Byte.byte_dec_lb.
Qed.

Lemma byte_eqb_u8 (a b : byte) : Byte.eqb a b = (u8 a =? u8 b)%N.
Proof.
  destruct (Byte.eqb a b) eqn:E.
  - apply byte_eqb_eq in E. subst. symmetry. apply N.eqb_refl.
  - symmetry. apply N.eqb_neq. intro H. apply u8_inj in H.
    apply byte_eqb_eq in H. congruence.
Qed.

(** ** encoding/base64 *)

Module base64_facts.
Import base64.
Local Open Scope N_scope.

Lemma pack3 a b c :
  a < 256 -> b < 256 -> c < 256 ->
  N.lor (N.lor (N.shiftl a 16) (N.shiftl b 8)) c = a * 65536 + b * 256 + c.
Proof.
  intros Ha Hb Hc. rewrite !N.shiftl_mul_pow2.
  change (2 ^ 16) with 65536. change (2 ^ 8) with 256.
  rewrite (@lor_low 16 (a * 65536) (b * 256)) by (change (2 ^ 16) with 65536; nlia).
  rewrite (@lor_low 8) by (change (2 ^ 8) with 256; nlia).
  reflexivity.
Qed.

Lemma pack4 s0 s1 s2 s3 :
  s0 < 64 -> s1 < 64 -> s2 < 64 -> s3 < 64 ->
  N.lor (N.lor (N.lor (N.shiftl s0 18) (N.shiftl s1 12)) (N.shiftl s2 6)) s3
  = s0 * 262144 + s1 * 4096 + s2 * 64 + s3.
Proof.
  intros H0 H1 H2 H3. rewrite !N.shiftl_mul_pow2.
  change (2 ^ 18) with 262144. change (2 ^ 12) with 4096. change (2 ^ 6) with 64.
  rewrite (@lor_low 18 (s0 * 262144)) by (change (2 ^ 18) with 262144; nlia).
  rewrite (@lor_low 12 (s0 * 262144 + s1 * 4096))
    by (change (2 ^ 12) with 4096; nlia).
  rewrite (@lor_low 6) by (change (2 ^ 6) with 64; nlia).
  reflexivity.
Qed.

Lemma sextet v k : N.land (N.shiftr v k) 63 = (v / 2 ^ k) mod 64.
Proof.
  rewrite N.shiftr_div_pow2. change 63 with (N.ones 6). rewrite N.land_ones.
  reflexivity.
Qed.

Lemma sextet_lt v k : N.land (N.shiftr v k) 63 < 64.
Proof. rewrite sextet. apply N.mod_upper_bound. discriminate. Qed.

Lemma sextet0 v : N.land v 63 = v mod 64.
Proof. change 63 with (N.ones 6). rewrite N.land_ones. reflexivity. Qed.

Lemma sextet0_lt v : N.land v 63 < 64.
Proof. rewrite sextet0. apply N.mod_upper_bound. discriminate. Qed.

(** The alphabet: [decodeMap] inverts [encode], and no character of the
    alphabet is a line break or the padding. *)
Lemma encode_alphabet i :
  i < 64 ->
  decodeMap (encode i) = i
  /\ (decodeMap (encode i) =? 255) = false
  /\ is_newline (encode i) = false
  /\ Byte.eqb (encode i) padChar = false.
Proof.
  intro H. rewrite <- (N2Nat.id i).
  assert (Hn : (N.to_nat i < 64)%nat) by lia.
  generalize dependent (N.to_nat i). clear H. intros n Hn.
  do 64 (destruct n as [|n]; [vm_compute; repeat split; reflexivity|]).
  lia.
Qed.

(** Three bytes survive the passage through four sextets. *)
Lemma assemble_group3 (a b c : byte) :
  let val := N.lor (N.lor (N.shiftl (u8 a) 16) (N.shiftl (u8 b) 8)) (u8 c) in
  assemble [N.land (N.shiftr val 18) 63; N.land (N.shiftr val 12) 63;
            N.land (N.shiftr val 6) 63; N.land val 63]
  = [a; b; c].
Proof.
  intro val. unfold assemble. cbn [List.length Nat.sub firstn nth].
  pose proof (u8_lt_256 a) as Ha. pose proof (u8_lt_256 b) as Hb.
  pose proof (u8_lt_256 c) as Hc.
  rewrite pack4 by (apply sextet_lt || apply sextet0_lt).
  rewrite !sextet, sextet0. subst val. rewrite (pack3 Ha Hb Hc).
  rewrite !N.shiftr_div_pow2.
  change (2 ^ 18) with 262144. change (2 ^ 12) with 4096. change (2 ^ 6) with 64.
  change (2 ^ 16) with 65536. change (2 ^ 8) with 256. change (2 ^ 0) with 1.
  f_equal; [|f_equal; [|f_equal]]; apply byte_of_N_eq; nlia.
Qed.

Lemma pack2 a b :
  a < 256 -> b < 256 ->
  N.lor (N.shiftl a 16) (N.shiftl b 8) = a * 65536 + b * 256.
Proof.
  intros Ha Hb. rewrite !N.shiftl_mul_pow2.
  change (2 ^ 16) with 65536. change (2 ^ 8) with 256.
  rewrite (@lor_low 16 (a * 65536) (b * 256)) by (change (2 ^ 16) with 65536; nlia).
  reflexivity.
Qed.

Lemma pack4_0 s0 s1 s2 :
  s0 < 64 -> s1 < 64 -> s2 < 64 ->
  N.lor (N.lor (N.lor (N.shiftl s0 18) (N.shiftl s1 12)) (N.shiftl s2 6)) 0
  = s0 * 262144 + s1 * 4096 + s2 * 64.
Proof.
  intros H0 H1 H2. rewrite pack4 by (assumption || reflexivity). lia.
Qed.

Lemma assemble_group2 (a b : byte) :
  let val := N.lor (N.shiftl (u8 a) 16) (N.shiftl (u8 b) 8) in
  assemble [N.land (N.shiftr val 18) 63; N.land (N.shiftr val 12) 63;
            N.land (N.shiftr val 6) 63]
  = [a; b].
Proof.
  intro val. unfold assemble. cbn [List.length Nat.sub firstn nth].
  pose proof (u8_lt_256 a) as Ha. pose proof (u8_lt_256 b) as Hb.
  rewrite pack4_0 by apply sextet_lt.
  rewrite !sextet. subst val. rewrite (pack2 Ha Hb).
  rewrite !N.shiftr_div_pow2.
  change (2 ^ 18) with 262144. change (2 ^ 12) with 4096. change (2 ^ 6) with 64.
  change (2 ^ 16) with 65536. change (2 ^ 8) with 256.
  f_equal; [|f_equal]; apply byte_of_N_eq; nlia.
Qed.

Lemma assemble_group1 (a : byte) :
  let val := N.shiftl (u8 a) 16 in
  assemble [N.land (N.shiftr val 18) 63; N.land (N.shiftr val 12) 63] = [a].
Proof.
  intro val. unfold assemble. cbn [List.length Nat.sub firstn nth].
  pose proof (u8_lt_256 a) as Ha.
  change (N.shiftl 0 6) with 0.
  rewrite N.lor_0_r, N.lor_0_r.
  rewrite !sextet. subst val. rewrite !N.shiftl_mul_pow2.
  change (2 ^ 18) with 262144. change (2 ^ 12) with 4096. change (2 ^ 16) with 65536.
  rewrite (@lor_low 18 ((u8 a * 65536 / 262144) mod 64 * 262144))
    by (change (2 ^ 18) with 262144; nlia).
  rewrite !N.shiftr_div_pow2. change (2 ^ 16) with 65536.
  f_equal. apply byte_of_N_eq. nlia.
Qed.

(** The reading loop on a character of the alphabet, and on a full buffer. *)
Lemma read_quantum_full len dbuf si src :
  List.length dbuf = 4%nat ->
  read_quantum len dbuf si src = Ok (Quantum dbuf si src None).
Proof. intro H. destruct src; cbn [read_quantum]; rewrite H; reflexivity. Qed.

Lemma read_quantum_sextet len dbuf si i rest :
  (List.length dbuf < 4)%nat -> i < 64 ->
  read_quantum len dbuf si (encode i :: rest)
  = read_quantum len (dbuf ++ [i]) (N.succ si) rest.
Proof.
  intros Hj Hi. destruct (encode_alphabet Hi) as (E1 & E2 & _).
  cbn [read_quantum].
  replace (4 <=? N.of_nat (List.length dbuf)) with false
    by (symmetry; apply N.leb_gt; lia).
  rewrite E2, E1. reflexivity.
Qed.

Lemma read_quantum_group len si s0 s1 s2 s3 rest :
  s0 < 64 -> s1 < 64 -> s2 < 64 -> s3 < 64 ->
  read_quantum len [] si (encode s0 :: encode s1 :: encode s2 :: encode s3 :: rest)
  = Ok (Quantum [s0; s1; s2; s3] (si + 4) rest None).
Proof.
  intros H0 H1 H2 H3.
  rewrite read_quantum_sextet by (cbn; lia || assumption).
  rewrite read_quantum_sextet by (cbn; lia || assumption).
  rewrite read_quantum_sextet by (cbn; lia || assumption).
  rewrite read_quantum_sextet by (cbn; lia || assumption).
  cbn [app]. rewrite read_quantum_full by reflexivity.
  do 2 f_equal. lia.
Qed.

Lemma read_quantum_pad1 len si s0 s1 s2 :
  s0 < 64 -> s1 < 64 -> s2 < 64 ->
  read_quantum len [] si [encode s0; encode s1; encode s2; padChar]
  = Ok (Quantum [s0; s1; s2] (si + 4) [] None).
Proof.
  intros H0 H1 H2.
  rewrite read_quantum_sextet by (cbn; lia || assumption).
  rewrite read_quantum_sextet by (cbn; lia || assumption).
  rewrite read_quantum_sextet by (cbn; lia || assumption).
  cbn. do 2 f_equal. lia.
Qed.

Lemma read_quantum_pad2 len si s0 s1 :
  s0 < 64 -> s1 < 64 ->
  read_quantum len [] si [encode s0; encode s1; padChar; padChar]
  = Ok (Quantum [s0; s1] (si + 4) [] None).
Proof.
  intros H0 H1.
  rewrite read_quantum_sextet by (cbn; lia || assumption).
  rewrite read_quantum_sextet by (cbn; lia || assumption).
  cbn. do 2 f_equal. lia.
Qed.

Lemma list_ind3 {A} (P : list A -> Prop) :
  P [] -> (forall a, P [a]) -> (forall a b, P [a; b]) ->
  (forall a b c l, P l -> P (a :: b :: c :: l)) ->
  forall l, P l.
Proof.
  intros H0 H1 H2 H3.
  assert (G : forall l, P l /\ (forall a, P (a :: l)) /\ (forall a b, P (a :: b :: l))).
  { induction l as [|x l (IH0 & IH1 & IH2)].
    - auto.
    - repeat split; auto. }
  intro l. apply G.
Qed.

Lemma Encode_length src : (List.length (Encode src) = 4 * ((List.length src + 2) / 3))%nat.
Proof.
  induction src as [| | |a b c l IH] using list_ind3; try reflexivity.
  cbn [Encode List.length]. rewrite IH.
  replace (S (S (S (List.length l))) + 2)%nat with (1 * 3 + (List.length l + 2))%nat by lia.
  rewrite Nat.div_add_l by discriminate. lia.
Qed.

(** Decoding what [Encode] wrote gives the bytes back. *)
Lemma Decode_Encode src : forall fuel len si,
  (List.length (Encode src) <= fuel)%nat ->
  Decode fuel len si (Encode src) = Ok src.
Proof.
  induction src as [| | |a b c l IH] using list_ind3; intros fuel len si Hf.
  - destruct fuel; reflexivity.
  - destruct fuel as [|fuel]; [cbn in Hf; lia|].
    cbn [Encode Decode].
    rewrite read_quantum_pad2 by apply sextet_lt.
    cbn [q_err q_si q_rest q_dbuf]. destruct fuel; cbn [Decode];
      rewrite assemble_group1; reflexivity.
  - destruct fuel as [|fuel]; [cbn in Hf; lia|].
    cbn [Encode Decode].
    rewrite read_quantum_pad1 by apply sextet_lt.
    cbn [q_err q_si q_rest q_dbuf]. destruct fuel; cbn [Decode];
      rewrite assemble_group2; reflexivity.
  - destruct fuel as [|fuel]; [cbn in Hf; lia|].
    cbn [Encode Decode].
    rewrite read_quantum_group by (apply sextet_lt || apply sextet0_lt).
    cbn [q_err q_si q_rest q_dbuf].
    rewrite IH by (cbn [Encode List.length] in Hf; lia).
    rewrite assemble_group3. reflexivity.
Qed.

Lemma DecodeString_EncodeToString (src : list byte) :
  DecodeString (EncodeToString src) = Ok src.
Proof.
  unfold DecodeString, EncodeToString, bytes.
  rewrite list_byte_of_string_of_list_byte.
  apply Decode_Encode. apply Nat.le_refl.
Qed.

End base64_facts.

Module base64_valid.
Import base64 base64_spec.
Local Open Scope N_scope.

Lemma alphabet_not_newline c : in_alphabet c = true -> is_newline c = false.
Proof. destruct c; (reflexivity || discriminate). Qed.

Lemma alphabet_not_pad c : in_alphabet c = true -> is_pad c = false.
Proof. destruct c; (reflexivity || discriminate). Qed.

Lemma pad_not_newline c : is_pad c = true -> is_newline c = false.
Proof. destruct c; (reflexivity || discriminate). Qed.

Lemma strip_cons c r :
  strip_newlines (c :: r)
  = if is_newline c then strip_newlines r else c :: strip_newlines r.
Proof. unfold strip_newlines. cbn [filter]. destruct (is_newline c); reflexivity. Qed.

Lemma skip_newlines_spec r : forall si,
  strip_newlines (snd (skip_newlines si r)) = strip_newlines r
  /\ (List.length (snd (skip_newlines si r)) <= List.length r)%nat
  /\ match snd (skip_newlines si r) with
     | [] => True
     | c :: _ => is_newline c = false
     end.
Proof.
  induction r as [|c r IH]; intro si; cbn [skip_newlines].
  - cbn. auto.
  - destruct (is_newline c) eqn:E.
    + destruct (IH (N.succ si)) as (H1 & H2 & H3).
      rewrite strip_cons, E. cbn [List.length]. repeat split; auto.
    + cbn [snd]. auto.
Qed.

Lemma quantum_spec_full s : quantum_spec 4 s = Some s.
Proof. destruct s; reflexivity. Qed.

(** The reading loop of [decodeQuantum] against its reading on the text
    without line breaks. *)
Lemma read_quantum_spec len src : forall dbuf si,
  (List.length dbuf <= 4)%nat ->
  match read_quantum len dbuf si src with
  | Ok q =>
      (List.length (q_rest q) <= List.length src)%nat
      /\ ((List.length dbuf < 4)%nat -> src <> [] ->
          (List.length (q_rest q) < List.length src)%nat)
      /\ quantum_spec (List.length dbuf) (strip_newlines src)
         = match q_err q with
           | None => Some (strip_newlines (q_rest q))
           | Some _ => None
           end
  | Err _ => quantum_spec (List.length dbuf) (strip_newlines src) = None
  end.
Proof.
  induction src as [|c rest IH]; intros dbuf si Hj.
  - cbn [read_quantum].
    destruct (Nat.eq_dec (List.length dbuf) 4) as [E4|N4].
    + rewrite E4. cbn. repeat split; auto; lia.
    + replace (4 <=? N.of_nat (List.length dbuf)) with false
        by (symmetry; apply N.leb_gt; lia).
      destruct (List.length dbuf) as [|[|[|[|j]]]] eqn:EJ; cbn; auto; try lia.
      repeat split; auto. congruence.
  - cbn [read_quantum].
    destruct (Nat.eq_dec (List.length dbuf) 4) as [E4|N4].
    + rewrite E4. change (4 <=? N.of_nat 4) with true. cbn iota.
      cbn [q_rest q_err]. rewrite quantum_spec_full.
      repeat split; auto; lia.
    + replace (4 <=? N.of_nat (List.length dbuf)) with false
        by (symmetry; apply N.leb_gt; lia).
      assert (Hq : forall s, quantum_spec (List.length dbuf) s
                 = match s with
                   | [] => if (List.length dbuf =? 0)%nat then Some [] else None
                   | c :: r =>
                       if in_alphabet c then quantum_spec (S (List.length dbuf)) r
                       else if is_pad c then
                         if (List.length dbuf <? 2)%nat then None
                         else if (List.length dbuf =? 2)%nat then
                           match r with
                           | [p] => if is_pad p then Some [] else None
                           | _ => None
                           end
                         else if is_nil r then Some [] else None
                       else None
                   end).
      { intro s. destruct s; cbn [quantum_spec];
          replace (4 <=? List.length dbuf)%nat with false
            by (symmetry; apply Nat.leb_gt; lia); reflexivity. }
      fold (in_alphabet c). unfold in_alphabet at 1.
      destruct (decodeMap c =? 255) eqn:EA; cbn [negb].
      * (* not in the alphabet *)
        assert (EA' : in_alphabet c = false) by (unfold in_alphabet; rewrite EA; reflexivity).
        destruct (is_newline c) eqn:EN.
        { specialize (IH dbuf (N.succ si) Hj).
          destruct (read_quantum len dbuf (N.succ si) rest) as [q|e].
          - destruct IH as (H1 & H2 & H3). rewrite strip_cons, EN.
            cbn [List.length]. repeat split; auto; lia.
          - rewrite strip_cons, EN. exact IH. }
        rewrite strip_cons, EN, Hq, EA'.
        fold (is_pad c). destruct (is_pad c) eqn:EP; cbn [negb]; [|reflexivity].
        replace (N.of_nat (List.length dbuf) <? 2) with (List.length dbuf <? 2)%nat
          by (destruct (Nat.ltb_spec (List.length dbuf) 2);
              [symmetry; apply N.ltb_lt; lia | symmetry; apply N.ltb_ge; lia]).
        destruct (List.length dbuf <? 2)%nat eqn:E2; [reflexivity|].
        replace (N.of_nat (List.length dbuf) =? 2) with (List.length dbuf =? 2)%nat
          by (destruct (Nat.eqb_spec (List.length dbuf) 2);
              [symmetry; apply N.eqb_eq; lia | symmetry; apply N.eqb_neq; lia]).
        destruct (List.length dbuf =? 2)%nat eqn:E2'.
        { (* the second padding character *)
          pose proof (skip_newlines_spec rest (N.succ si)) as (S1 & S2 & S3).
          destruct (skip_newlines (N.succ si) rest) as [si1 rest1]. cbn [snd] in *.
          rewrite <- S1.
          destruct rest1 as [|c1 rest2]; [reflexivity|].
          rewrite strip_cons, S3. fold (is_pad c1).
          destruct (is_pad c1) eqn:EP1; cbn [negb].
          2:{ destruct (strip_newlines rest2); reflexivity. }
          pose proof (skip_newlines_spec rest2 (N.succ si1)) as (T1 & T2 & T3).
          destruct (skip_newlines (N.succ si1) rest2) as [si3 rest3]. cbn [snd] in *.
          rewrite <- T1. cbn [q_rest q_err List.length] in *.
          destruct rest3 as [|c3 rest4].
          - cbn. repeat split; auto; lia.
          - rewrite strip_cons, T3. cbn [List.length] in *.
            repeat split; auto; lia. }
        { pose proof (skip_newlines_spec rest (N.succ si)) as (S1 & S2 & S3).
          destruct (skip_newlines (N.succ si) rest) as [si3 rest3]. cbn [snd] in *.
          rewrite <- S1. cbn [q_rest q_err List.length] in *.
          destruct rest3 as [|c3 rest4].
          - cbn. repeat split; auto; lia.
          - rewrite strip_cons, S3. cbn [is_nil List.length] in *.
            repeat split; auto; lia. }
      * (* a character of the alphabet *)
        assert (EA' : in_alphabet c = true) by (unfold in_alphabet; rewrite EA; reflexivity).
        rewrite strip_cons, (alphabet_not_newline _ EA'), Hq, EA'.
        specialize (IH (dbuf ++ [decodeMap c]) (N.succ si)).
        rewrite length_app in IH. cbn [List.length] in IH.
        replace (List.length dbuf + 1)%nat with (S (List.length dbuf)) in IH by lia.
        specialize (IH ltac:(lia)).
        destruct (read_quantum len (dbuf ++ [decodeMap c]) (N.succ si) rest) as [q|e].
        -- destruct IH as (H1 & H2 & H3). cbn [List.length].
           repeat split; auto; lia.
        -- exact IH.
Qed.

(** A well-formed text, one quantum at a time. *)
Lemma well_formed_step s :
  well_formed s
  = match s with
    | [] => true
    | _ :: _ =>
        match quantum_spec 0 s with
        | Some r => well_formed r
        | None => false
        end
    end.
Proof.
  destruct s as [|a [|b [|c [|d rest]]]]; cbn [well_formed quantum_spec Nat.leb Nat.eqb Nat.ltb].
  - reflexivity.
  - destruct (in_alphabet a); [reflexivity|]. destruct (is_pad a); reflexivity.
  - destruct (in_alphabet a); [|destruct (is_pad a); reflexivity].
    destruct (in_alphabet b); [reflexivity|]. destruct (is_pad b); reflexivity.
  - destruct (in_alphabet a); [|destruct (is_pad a); reflexivity].
    destruct (in_alphabet b); [|destruct (is_pad b); reflexivity].
    destruct (in_alphabet c) eqn:Ec; [reflexivity|].
    destruct (is_pad c); reflexivity.
  - destruct (in_alphabet a); [|destruct (is_pad a); reflexivity].
    destruct (in_alphabet b); [|destruct (is_pad b); reflexivity].
    cbn [andb].
    destruct (in_alphabet c) eqn:Ec.
    + rewrite (alphabet_not_pad _ Ec). cbn [andb orb].
      destruct (in_alphabet d) eqn:Ed.
      * rewrite (alphabet_not_pad _ Ed). cbn [andb orb].
        destruct rest; [reflexivity|]. cbn. rewrite !orb_false_r. reflexivity.
      * cbn [andb orb]. destruct (is_pad d); [|reflexivity].
        cbn [andb orb]. destruct rest; reflexivity.
    + cbn [andb orb]. destruct (is_pad c); [|reflexivity].
      cbn [andb]. destruct rest as [|x rest].
      * destruct (is_pad d); reflexivity.
      * destruct (is_pad d); reflexivity.
Qed.

(** [Decode] succeeds exactly on the texts that are well formed once their
    line breaks are taken out. *)
Lemma Decode_ok_iff len : forall fuel si src,
  (List.length src <= fuel)%nat ->
  ((exists out, Decode fuel len si src = Ok out)
   <-> well_formed (strip_newlines src) = true).
Proof.
  induction fuel as [|fuel IH]; intros si src Hf.
  - destruct src; [|cbn in Hf; lia]. cbn. split; eauto.
  - destruct src as [|c rest] eqn:Esrc; [cbn; split; eauto|].
    rewrite <- Esrc in *. assert (Hne : src <> []) by (subst; discriminate).
    replace (Decode (S fuel) len si src) with
      (match read_quantum len [] si src with
       | Err e => Err e
       | Ok q =>
           match q_err q with
           | Some e => Err e
           | None =>
               match Decode fuel len (q_si q) (q_rest q) with
               | Err e => Err e
               | Ok out => Ok (assemble (q_dbuf q) ++ out)
               end
           end
       end) by (subst src; reflexivity).
    pose proof (@read_quantum_spec len src [] si ltac:(cbn; lia)) as R.
    cbn [List.length] in R. rewrite well_formed_step.
    destruct (read_quantum len [] si src) as [q|e].
    + destruct R as (R1 & R2 & R3). specialize (R2 ltac:(lia) Hne).
      destruct (q_err q) as [e|].
      * destruct (strip_newlines src).
        { cbn in R3. discriminate. }
        rewrite R3. split; [intros [out H]; discriminate | discriminate].
      * specialize (IH (q_si q) (q_rest q) ltac:(lia)).
        destruct (strip_newlines src) eqn:ES.
        { cbn in R3. injection R3 as R3. rewrite <- R3 in IH.
          split; [reflexivity|]. intros _.
          destruct (proj2 IH eq_refl) as [out Hout]. rewrite Hout. eauto. }
        rewrite R3. rewrite <- IH.
        destruct (Decode fuel len (q_si q) (q_rest q)) as [out|e].
        -- split; eauto.
        -- split; intros [out H]; discriminate.
    + destruct (strip_newlines src).
      { cbn in R. discriminate. }
      rewrite R. split; [intros [out H]; discriminate | discriminate].
Qed.

Lemma DecodeString_ok_iff (s : string) :
  (exists out, DecodeString s = Ok out) <-> valid_base64 s = true.
Proof. unfold DecodeString, valid_base64. apply Decode_ok_iff. apply Nat.le_refl. Qed.

End base64_valid.

(** ** unicode/utf8 *)

Module utf8_facts.
Import utf8 utf8_spec.
Local Open Scope N_scope.

Lemma land_3F x : N.land x 0x3F = x mod 64.
Proof. change 0x3F with (N.ones 6). apply N.land_ones. Qed.
Lemma land_1F x : N.land x 0x1F = x mod 32.
Proof. change 0x1F with (N.ones 5). apply N.land_ones. Qed.
Lemma land_0F x : N.land x 0x0F = x mod 16.
Proof. change 0x0F with (N.ones 4). apply N.land_ones. Qed.
Lemma land_07 x : N.land x 0x07 = x mod 8.
Proof. change 0x07 with (N.ones 3). apply N.land_ones. Qed.

Lemma lor_80 y : y < 64 -> N.lor 0x80 y = 0x80 + y.
Proof. intro H. apply (@lor_low 6); [exact H | reflexivity]. Qed.
Lemma lor_C0 y : y < 32 -> N.lor 0xC0 y = 0xC0 + y.
Proof. intro H. apply (@lor_low 5); [exact H | reflexivity]. Qed.
Lemma lor_E0 y : y < 16 -> N.lor 0xE0 y = 0xE0 + y.
Proof. intro H. apply (@lor_low 4); [exact H | reflexivity]. Qed.
Lemma lor_F0 y : y < 8 -> N.lor 0xF0 y = 0xF0 + y.
Proof. intro H. apply (@lor_low 3); [exact H | reflexivity]. Qed.

Lemma rune2 a b :
  N.lor (N.shiftl (N.land a 0x1F) 6) (N.land b 0x3F) = (a mod 32) * 64 + b mod 64.
Proof.
  rewrite land_1F, land_3F, N.shiftl_mul_pow2. change (2 ^ 6) with 64.
  apply (@lor_low 6); change (2 ^ 6) with 64; nlia.
Qed.

Lemma rune3 a b c :
  N.lor (N.lor (N.shiftl (N.land a 0x0F) 12) (N.shiftl (N.land b 0x3F) 6))
        (N.land c 0x3F)
  = (a mod 16) * 4096 + (b mod 64) * 64 + c mod 64.
Proof.
  rewrite land_0F, !land_3F, !N.shiftl_mul_pow2.
  change (2 ^ 6) with 64. change (2 ^ 12) with 4096.
  rewrite (@lor_low 12 (a mod 16 * 4096)) by (change (2 ^ 12) with 4096; nlia).
  apply (@lor_low 6); change (2 ^ 6) with 64; nlia.
Qed.

Lemma rune4 a b c d :
  N.lor (N.lor (N.lor (N.shiftl (N.land a 0x07) 18) (N.shiftl (N.land b 0x3F) 12))
               (N.shiftl (N.land c 0x3F) 6))
        (N.land d 0x3F)
  = (a mod 8) * 262144 + (b mod 64) * 4096 + (c mod 64) * 64 + d mod 64.
Proof.
  rewrite land_07, !land_3F, !N.shiftl_mul_pow2.
  change (2 ^ 6) with 64. change (2 ^ 12) with 4096. change (2 ^ 18) with 262144.
  rewrite (@lor_low 18 (a mod 8 * 262144)) by (change (2 ^ 18) with 262144; nlia).
  rewrite (@lor_low 12 (a mod 8 * 262144 + b mod 64 * 4096))
    by (change (2 ^ 12) with 4096; nlia).
  apply (@lor_low 6); change (2 ^ 6) with 64; nlia.
Qed.

(** Decide the comparisons of the goal, by computation when they are
    closed and from the hypotheses otherwise. *)
Ltac literal_bool c :=
  let v := eval vm_compute in c in
  match v with
  | true => change c with true
  | false => change c with false
  end.

Ltac decide_ifs :=
  repeat (cbv beta iota zeta;
          match goal with
          | |- context [N.ltb ?a ?b] =>
              first [ literal_bool (N.ltb a b)
                    | destruct (N.ltb_spec a b);
                      [try (exfalso; lia) | try (exfalso; lia)] ]
          | |- context [N.leb ?a ?b] =>
              first [ literal_bool (N.leb a b)
                    | destruct (N.leb_spec a b);
                      [try (exfalso; lia) | try (exfalso; lia)] ]
          | |- context [N.eqb ?a ?b] =>
              first [ literal_bool (N.eqb a b)
                    | destruct (N.eqb_spec a b);
                      [try (exfalso; lia) | try (exfalso; lia)] ]
          | |- context [acceptRanges ?x] =>
              let v := eval vm_compute in (acceptRanges x) in
              match v with
              | (_, _) => change (acceptRanges x) with v
              end
          end;
          cbn [orb andb negb]; cbv beta iota zeta).

Lemma first_spec p0 :
  (p0 < 0x80 /\ first p0 = 0xF0)
  \/ ((0x80 <= p0 /\ p0 < 0xC2) /\ first p0 = 0xF1)
  \/ ((0xC2 <= p0 /\ p0 < 0xE0) /\ first p0 = 0x02)
  \/ (p0 = 0xE0 /\ first p0 = 0x13)
  \/ ((0xE1 <= p0 /\ p0 < 0xED) /\ first p0 = 0x03)
  \/ (p0 = 0xED /\ first p0 = 0x23)
  \/ ((0xEE <= p0 /\ p0 < 0xF0) /\ first p0 = 0x03)
  \/ (p0 = 0xF0 /\ first p0 = 0x34)
  \/ ((0xF1 <= p0 /\ p0 < 0xF4) /\ first p0 = 0x04)
  \/ (p0 = 0xF4 /\ first p0 = 0x44)
  \/ (0xF5 <= p0 /\ first p0 = 0xF1).
Proof.
  unfold first.
  destruct (N.ltb_spec p0 0x80); [left; auto|right].
  destruct (N.ltb_spec p0 0xC2); [left; auto|right].
  destruct (N.ltb_spec p0 0xE0); [left; auto|right].
  destruct (N.eqb_spec p0 0xE0); [left; auto|right].
  destruct (N.ltb_spec p0 0xED); [left; split; [lia|reflexivity]|right].
  destruct (N.eqb_spec p0 0xED); [left; auto|right].
  destruct (N.ltb_spec p0 0xF0); [left; split; [lia|reflexivity]|right].
  destruct (N.eqb_spec p0 0xF0); [left; auto|right].
  destruct (N.ltb_spec p0 0xF4); [left; split; [lia|reflexivity]|right].
  destruct (N.eqb_spec p0 0xF4); [left; auto|right].
  split; [lia|reflexivity].
Qed.

Ltac cases_first :=
  match goal with
  | |- context [first ?p] =>
      let FS := fresh "FS" in
      let R := fresh "R" in
      let E := fresh "E" in
      pose proof (first_spec p) as FS;
      repeat (destruct FS as [FS|FS]);
      destruct FS as [R E]; try (exfalso; lia); rewrite E
  end.

Ltac run_DecodeRune :=
  unfold DecodeRune, locb, hicb; cbv beta zeta; cases_first; decide_ifs.

Lemma DecodeRune_1 c0 q : u8 c0 < 0x80 -> DecodeRune (c0 :: q) = (u8 c0, 1%nat).
Proof.
  intro H. unfold DecodeRune, first. decide_ifs. reflexivity.
Qed.

Lemma DecodeRune_2 c0 c1 q :
  lead2 c0 -> cont c1 -> DecodeRune (c0 :: c1 :: q) = (rune_2 c0 c1, 2%nat).
Proof.
  intros [H0 H0'] [H1 H1']. run_DecodeRune. rewrite rune2. reflexivity.
Qed.

Lemma DecodeRune_3 c0 c1 c2 q :
  lead3 c0 c1 -> cont c2 ->
  DecodeRune (c0 :: c1 :: c2 :: q) = (rune_3 c0 c1 c2, 3%nat).
Proof.
  intros (H0 & H0' & [H1 H1'] & Ha & Hb) [H2 H2'].
  run_DecodeRune; rewrite rune3; reflexivity.
Qed.

Lemma DecodeRune_4 c0 c1 c2 c3 q :
  lead4 c0 c1 -> cont c2 -> cont c3 ->
  DecodeRune (c0 :: c1 :: c2 :: c3 :: q) = (rune_4 c0 c1 c2 c3, 4%nat).
Proof.
  intros (H0 & H0' & [H1 H1'] & Ha & Hb) [H2 H2'] [H3 H3'].
  run_DecodeRune; rewrite rune4; reflexivity.
Qed.

Lemma rune_2_bounds c0 c1 :
  lead2 c0 -> cont c1 -> 0x80 <= rune_2 c0 c1 /\ rune_2 c0 c1 <= 0x7FF.
Proof. intros [? ?] [? ?]. unfold rune_2. nlia. Qed.

Lemma rune_3_bounds c0 c1 c2 :
  lead3 c0 c1 -> cont c2 ->
  0x800 <= rune_3 c0 c1 c2 /\ rune_3 c0 c1 c2 <= 0xFFFF
  /\ (rune_3 c0 c1 c2 < 0xD800 \/ 0xDFFF < rune_3 c0 c1 c2).
Proof. intros (? & ? & [? ?] & ? & ?) [? ?]. unfold rune_3. nlia. Qed.

Lemma rune_4_bounds c0 c1 c2 c3 :
  lead4 c0 c1 -> cont c2 -> cont c3 ->
  0x10000 <= rune_4 c0 c1 c2 c3 /\ rune_4 c0 c1 c2 c3 <= 0x10FFFF.
Proof. intros (? & ? & [? ?] & ? & ?) [? ?] [? ?]. unfold rune_4. nlia. Qed.

Lemma EncodeRune_1 c0 : u8 c0 < 0x80 -> EncodeRune (u8 c0) = [c0].
Proof.
  intro H. pose proof (u8_lt_256 c0).
  unfold EncodeRune, MaxRune, surrogateMin, surrogateMax; decide_ifs;
    f_equal; apply byte_of_N_eq; nlia.
Qed.

Lemma EncodeRune_2 c0 c1 :
  lead2 c0 -> cont c1 -> EncodeRune (rune_2 c0 c1) = [c0; c1].
Proof.
  intros L C. pose proof (@rune_2_bounds _ _ L C) as [B1 B2].
  destruct L as [? ?], C as [? ?].
  unfold EncodeRune, MaxRune, surrogateMin, surrogateMax. decide_ifs.
  all: rewrite land_3F, N.shiftr_div_pow2; change (2 ^ 6) with 64;
    rewrite lor_C0, lor_80 by (unfold rune_2 in *; nlia);
    unfold rune_2 in *;
    (f_equal; [|f_equal]); apply byte_of_N_eq; nlia.
Qed.

Lemma EncodeRune_3 c0 c1 c2 :
  lead3 c0 c1 -> cont c2 -> EncodeRune (rune_3 c0 c1 c2) = [c0; c1; c2].
Proof.
  intros L C. pose proof (@rune_3_bounds _ _ _ L C) as (B1 & B2 & B3).
  destruct L as (? & ? & [? ?] & ? & ?), C as [? ?].
  unfold EncodeRune, MaxRune, surrogateMin, surrogateMax. decide_ifs.
  all: rewrite !land_3F, !N.shiftr_div_pow2; change (2 ^ 6) with 64;
    change (2 ^ 12) with 4096;
    rewrite lor_E0, !lor_80 by (unfold rune_3 in *; nlia);
    unfold rune_3 in *;
    (f_equal; [|f_equal; [|f_equal]]); apply byte_of_N_eq; nlia.
Qed.

Lemma EncodeRune_4 c0 c1 c2 c3 :
  lead4 c0 c1 -> cont c2 -> cont c3 ->
  EncodeRune (rune_4 c0 c1 c2 c3) = [c0; c1; c2; c3].
Proof.
  intros L C C'. pose proof (@rune_4_bounds _ _ _ _ L C C') as (B1 & B2).
  destruct L as (? & ? & [? ?] & ? & ?), C as [? ?], C' as [? ?].
  unfold EncodeRune, MaxRune, surrogateMin, surrogateMax. decide_ifs.
  all: rewrite !land_3F, !N.shiftr_div_pow2; change (2 ^ 6) with 64;
    change (2 ^ 12) with 4096; change (2 ^ 18) with 262144;
    rewrite lor_F0, !lor_80 by (unfold rune_4 in *; nlia);
    unfold rune_4 in *;
    (f_equal; [|f_equal; [|f_equal; [|f_equal]]]); apply byte_of_N_eq; nlia.
Qed.

Ltac split_cont c :=
  destruct (N.ltb_spec (u8 c) 0x80); [|destruct (N.ltb_spec 0xBF (u8 c))].

Ltac classify :=
  first
    [ solve [right; left; run_DecodeRune; reflexivity]
    | solve [do 2 right; left; do 2 eexists; split; [reflexivity|lia]]
    | solve [do 3 right; left; do 3 eexists; split; [reflexivity|];
             unfold lead2, cont; lia]
    | solve [do 4 right; left; do 4 eexists; split; [reflexivity|];
             unfold lead3, cont; lia]
    | solve [do 5 right; do 5 eexists; split; [reflexivity|];
             unfold lead4, cont; lia] ].

(** Every input of [DecodeRune] is empty, ill formed at its head, or begins
    with one of the well-formed sequences. *)
Lemma DecodeRune_cases p :
  (p = [] /\ DecodeRune p = (RuneError, 0%nat))
  \/ DecodeRune p = (RuneError, 1%nat)
  \/ (exists c0 q, p = c0 :: q /\ u8 c0 < 0x80)
  \/ (exists c0 c1 q, p = c0 :: c1 :: q /\ lead2 c0 /\ cont c1)
  \/ (exists c0 c1 c2 q, p = c0 :: c1 :: c2 :: q /\ lead3 c0 c1 /\ cont c2)
  \/ (exists c0 c1 c2 c3 q,
         p = c0 :: c1 :: c2 :: c3 :: q /\ lead4 c0 c1 /\ cont c2 /\ cont c3).
Proof.
  destruct p as [|c0 p1]; [left; auto|].
  pose proof (first_spec (u8 c0)) as FS.
  repeat (destruct FS as [FS|FS]); destruct FS as [R E].
  - classify.
  - classify.
  - destruct p1 as [|c1 p2]; [classify|]. split_cont c1; classify.
  - destruct p1 as [|c1 p2]; [classify|].
    split_cont c1; [classify|classify|].
    destruct (N.ltb_spec (u8 c1) 0xA0); [classify|].
    destruct p2 as [|c2 p3]; [classify|]. split_cont c2; classify.
  - destruct p1 as [|c1 p2]; [classify|].
    split_cont c1; [classify|classify|].
    destruct p2 as [|c2 p3]; [classify|]. split_cont c2; classify.
  - destruct p1 as [|c1 p2]; [classify|].
    split_cont c1; [classify|classify|].
    destruct (N.ltb_spec 0x9F (u8 c1)); [classify|].
    destruct p2 as [|c2 p3]; [classify|]. split_cont c2; classify.
  - destruct p1 as [|c1 p2]; [classify|].
    split_cont c1; [classify|classify|].
    destruct p2 as [|c2 p3]; [classify|]. split_cont c2; classify.
  - destruct p1 as [|c1 p2]; [classify|].
    split_cont c1; [classify|classify|].
    destruct (N.ltb_spec (u8 c1) 0x90); [classify|].
    destruct p2 as [|c2 p3]; [classify|]. split_cont c2; [classify|classify|].
    destruct p3 as [|c3 p4]; [classify|]. split_cont c3; classify.
  - destruct p1 as [|c1 p2]; [classify|].
    split_cont c1; [classify|classify|].
    destruct p2 as [|c2 p3]; [classify|]. split_cont c2; [classify|classify|].
    destruct p3 as [|c3 p4]; [classify|]. split_cont c3; classify.
  - destruct p1 as [|c1 p2]; [classify|].
    split_cont c1; [classify|classify|].
    destruct (N.ltb_spec 0x8F (u8 c1)); [classify|].
    destruct p2 as [|c2 p3]; [classify|]. split_cont c2; [classify|classify|].
    destruct p3 as [|c3 p4]; [classify|]. split_cont c3; classify.
  - classify.
Qed.

Lemma DecodeRune_firstn4 p : DecodeRune (firstn 4 p) = DecodeRune p.
Proof. destruct p as [|a [|b [|c [|d p]]]]; reflexivity. Qed.

(** What [DecodeRune] says of an input whose head is well formed. *)
Lemma DecodeRune_valid p r k :
  p <> [] ->
  DecodeRune p = (r, k) ->
  (r =? RuneError) && Nat.eqb k 1 = false ->
  (1 <= k <= 4)%nat
  /\ List.length (firstn k p) = k
  /\ EncodeRune r = firstn k p
  /\ (forall q, DecodeRune (firstn k p ++ q) = (r, k))
  /\ (forall c q, p = c :: q -> 0x80 <= u8 c -> 0x80 <= r /\ (2 <= k)%nat).
Proof.
  intros Hne HD HV.
  destruct (DecodeRune_cases p) as [[E _]|[E|[E|[E|[E|E]]]]].
  - contradiction.
  - rewrite E in HD. injection HD as <- <-. discriminate HV.
  - destruct E as (c0 & q & -> & H0).
    rewrite (@DecodeRune_1 _ _ H0) in HD. injection HD as <- <-.
    cbn [firstn List.length]. repeat split; try lia.
    + apply (@EncodeRune_1 _ H0).
    + intro q'. apply (@DecodeRune_1 _ _ H0).
    + injection H as <- _. lia.
    + injection H as <- _. lia.
  - destruct E as (c0 & c1 & q & -> & L & C).
    rewrite (@DecodeRune_2 _ _ _ L C) in HD. injection HD as <- <-.
    cbn [firstn List.length]. repeat split; try lia.
    + apply (@EncodeRune_2 _ _ L C).
    + intro q'. apply (@DecodeRune_2 _ _ _ L C).
    + apply (@rune_2_bounds _ _ L C).
  - destruct E as (c0 & c1 & c2 & q & -> & L & C).
    rewrite (@DecodeRune_3 _ _ _ _ L C) in HD. injection HD as <- <-.
    cbn [firstn List.length]. repeat split; try lia.
    + apply (@EncodeRune_3 _ _ _ L C).
    + intro q'. apply (@DecodeRune_3 _ _ _ _ L C).
    + pose proof (@rune_3_bounds _ _ _ L C). lia.
  - destruct E as (c0 & c1 & c2 & c3 & q & -> & L & C & C').
    rewrite (@DecodeRune_4 _ _ _ _ _ L C C') in HD. injection HD as <- <-.
    cbn [firstn List.length]. repeat split; try lia.
    + apply (@EncodeRune_4 _ _ _ _ L C C').
    + intro q'. apply (@DecodeRune_4 _ _ _ _ _ L C C').
    + pose proof (@rune_4_bounds _ _ _ _ L C C'). lia.
Qed.

(** [Valid_loop] does not depend on a fuel that covers the input. *)
Lemma Valid_loop_fuel : forall f1 f2 p,
  (List.length p <= f1)%nat -> (List.length p <= f2)%nat ->
  Valid_loop f1 p = Valid_loop f2 p.
Proof.
  induction f1 as [|f1 IH]; intros f2 p H1 H2.
  - destruct p; [destruct f2; reflexivity | cbn in H1; lia].
  - destruct p as [|c q]; [destruct f2; reflexivity|].
    destruct f2 as [|f2]; [cbn in H2; lia|].
    cbn [Valid_loop].
    destruct (DecodeRune (c :: q)) as [r k] eqn:D.
    destruct ((r =? RuneError) && Nat.eqb k 1) eqn:V; [reflexivity|].
    destruct (@DecodeRune_valid (c :: q) r k ltac:(discriminate) D V) as (Hk & _).
    apply IH; rewrite length_skipn; cbn [List.length] in *; lia.
Qed.

(** The two high bits of a byte. *)
Lemma land_C0 (c : byte) : N.land (u8 c) 0xC0 = (u8 c / 64) * 64.
Proof. destruct c; reflexivity. Qed.

Lemma cont_land (c : byte) :
  0x80 <= u8 c -> u8 c <= 0xBF -> N.land (u8 c) 0xC0 = 0x80.
Proof.
  intros H1 H2. rewrite land_C0. nlia.
Qed.

Lemma RuneStart_spec (c : byte) :
  RuneStart c = true <-> (u8 c < 0x80 \/ 0xC0 <= u8 c).
Proof.
  unfold RuneStart. rewrite negb_true_iff, N.eqb_neq, land_C0.
  pose proof (u8_lt_256 c). split; intro; nlia.
Qed.

End utf8_facts.
(** ** encoding/json: strings *)

Module json_facts.
Import json json_spec.
Local Open Scope N_scope.

Lemma appendString_loop_fuel : forall f1 f2 src,
  (List.length src <= f1)%nat -> (List.length src <= f2)%nat ->
  appendString_loop f1 src = appendString_loop f2 src.
Proof.
  induction f1 as [|f1 IH]; intros f2 src H1 H2.
  - destruct src; [destruct f2; reflexivity | cbn in H1; lia].
  - destruct src as [|b rest]; [destruct f2; reflexivity|].
    destruct f2 as [|f2]; [cbn in H2; lia|].
    cbn [appendString_loop]. cbn [List.length] in H1, H2.
    destruct (u8 b <? utf8.RuneSelf).
    + f_equal. apply IH; lia.
    + rewrite utf8_facts.DecodeRune_firstn4.
      destruct (utf8.DecodeRune (b :: rest)) as [c size] eqn:D.
      destruct ((c =? utf8.RuneError) && Nat.eqb size 1) eqn:V.
      * apply andb_true_iff in V. destruct V as [_ V].
        apply Nat.eqb_eq in V. subst size. cbn [skipn].
        f_equal. apply IH; lia.
      * destruct (@utf8_facts.DecodeRune_valid (b :: rest) c size
                    ltac:(discriminate) D V) as (Hk & _).
        assert (IH' : appendString_loop f1 (skipn size (b :: rest))
                      = appendString_loop f2 (skipn size (b :: rest))).
        { apply IH; rewrite length_skipn; cbn [List.length]; lia. }
        rewrite IH'. reflexivity.
Qed.

(** An ASCII byte comes back from what [appendString] writes for it. *)
Lemma scan_string_ascii (b : byte) (f : nat) (tail : list byte) :
  u8 b < 0x80 ->
  scan_string (S f) ((if htmlSafeSet b then [b] else escape_ascii b) ++ tail)
  = prepend [b] (scan_string f tail).
Proof.
  intro H. destruct b; try (exfalso; vm_compute in H; discriminate H); reflexivity.
Qed.

Lemma byte_neq_of_u8 (c d : byte) : u8 c <> u8 d -> Byte.eqb c d = false.
Proof. intro H. rewrite byte_eqb_u8. apply N.eqb_neq. exact H. Qed.

Lemma length_appendString_chunk_pos (l1 l2 : list byte) :
  l1 <> [] -> (List.length l2 < List.length (l1 ++ l2))%nat.
Proof. destruct l1; [congruence|]. intros _. cbn. rewrite length_app. lia. Qed.

Lemma scan_string_line_separator (c : N) (f : nat) (tail : list byte) :
  c = 0x2028 \/ c = 0x2029 ->
  scan_string (S f)
    ((backslash :: bytes "u202" ++ [hexdigit (N.land c 0xF)]) ++ tail)
  = prepend (utf8.EncodeRune c) (scan_string f tail).
Proof. intros [->| ->]; reflexivity. Qed.

Lemma scan_string_rune (cs tail : list byte) (f : nat) (r : N) (k : nat) :
  (forall q, utf8.DecodeRune (cs ++ q) = (r, k)) ->
  List.length cs = k ->
  (exists c cs', cs = c :: cs' /\ 0x80 <= u8 c) ->
  scan_string (S f) (cs ++ tail) = prepend (utf8.EncodeRune r) (scan_string f tail).
Proof.
  intros HD Hlen (c & cs' & -> & Hc).
  specialize (HD tail). cbn [app] in HD |- *. cbn [scan_string].
  replace (Byte.eqb c dquote) with false
    by (symmetry; apply byte_neq_of_u8; change (u8 dquote) with 0x22; lia).
  replace (Byte.eqb c backslash) with false
    by (symmetry; apply byte_neq_of_u8; change (u8 backslash) with 0x5c; lia).
  replace (u8 c <? 0x20) with false by (symmetry; apply N.ltb_ge; lia).
  replace (u8 c <? utf8.RuneSelf) with false
    by (symmetry; apply N.ltb_ge; unfold utf8.RuneSelf; lia).
  rewrite HD. f_equal. f_equal.
  change (c :: cs' ++ tail) with ((c :: cs') ++ tail).
  rewrite skipn_app, Hlen, Nat.sub_diag. cbn [skipn].
  rewrite skipn_all2 by lia. reflexivity.
Qed.

(** The scanner reads back what [appendString] wrote for valid UTF-8. *)
Lemma scan_string_appendString : forall n src fv fa fs tail,
  (List.length src <= n)%nat ->
  (List.length src <= fv)%nat ->
  (List.length src <= fa)%nat ->
  (List.length (appendString_loop fa src) < fs)%nat ->
  utf8.Valid_loop fv src = true ->
  scan_string fs (appendString_loop fa src ++ dquote :: tail) = Some (src, tail).
Proof.
  induction n as [|n IH]; intros src fv fa fs tail Hn Hv Ha Hs V.
  - destruct src; [|cbn in Hn; lia].
    destruct fa; (destruct fs; [cbn in Hs; lia|]); reflexivity.
  - destruct src as [|b rest].
    { destruct fa; (destruct fs; [cbn in Hs; lia|]); reflexivity. }
    destruct fa as [|fa]; [cbn in Ha; lia|].
    destruct fv as [|fv]; [cbn in Hv; lia|].
    cbn [List.length] in Hn, Hv, Ha.
    cbn [appendString_loop] in Hs |- *. cbn [utf8.Valid_loop] in V.
    destruct (N.ltb_spec (u8 b) utf8.RuneSelf) as [A|A].
    + (* ASCII *)
      rewrite (@utf8_facts.DecodeRune_1 b rest A) in V.
      replace ((u8 b =? utf8.RuneError) && Nat.eqb 1 1) with false in V
        by (symmetry; apply andb_false_iff; left; apply N.eqb_neq;
            unfold utf8.RuneError, utf8.RuneSelf in *; lia).
      cbn [skipn] in V.
      destruct fs as [|fs]; [lia|].
      rewrite <- app_assoc, (@scan_string_ascii b fs _ A).
      rewrite (IH rest fv fa fs tail); try lia; [reflexivity | | exact V].
      rewrite length_app in Hs.
      assert (1 <= List.length (if htmlSafeSet b then [b] else escape_ascii b))%nat.
      { destruct (htmlSafeSet b); [cbn; lia|].
        unfold escape_ascii.
        repeat match goal with |- context [if ?c then _ else _] => destruct c end;
          cbn; lia. }
      lia.
    + (* a rune outside ASCII *)
      rewrite utf8_facts.DecodeRune_firstn4 in Hs |- *.
      destruct (utf8.DecodeRune (b :: rest)) as [c size] eqn:D.
      destruct ((c =? utf8.RuneError) && Nat.eqb size 1) eqn:E; [discriminate V|].
      destruct (@utf8_facts.DecodeRune_valid (b :: rest) c size
                  ltac:(discriminate) D E) as (Hk & Hlen & Henc & Hstab & Hhi).
      destruct (Hhi b rest eq_refl A) as [Hc Hk2].
      assert (Hrest : (List.length (skipn size (b :: rest)) <= n)%nat)
        by (rewrite length_skipn; cbn [List.length]; lia).
      destruct fs as [|fs]; [lia|].
      destruct ((c =? 0x2028) || (c =? 0x2029)) eqn:LS.
      * (* U+2028 and U+2029 are written as escapes *)
        rewrite <- app_assoc. rewrite length_app in Hs.
        assert (Hsz : (List.length (skipn size (b :: rest)) <= fv)%nat
                      /\ (List.length (skipn size (b :: rest)) <= fa)%nat)
          by (rewrite length_skipn; cbn [List.length]; lia).
        assert (LS' : c = 0x2028 \/ c = 0x2029).
        { apply orb_true_iff in LS. destruct LS as [LS|LS]; apply N.eqb_eq in LS; auto. }
        rewrite (@scan_string_line_separator c fs _ LS').
        rewrite (IH (skipn size (b :: rest)) fv fa fs tail); try lia; try exact V.
        { cbn [prepend]. rewrite Henc, firstn_skipn. reflexivity. }
        cbn [List.length] in Hs. lia.
      * rewrite <- app_assoc. rewrite length_app, Hlen in Hs.
        assert (Hsz : (List.length (skipn size (b :: rest)) <= fv)%nat
                      /\ (List.length (skipn size (b :: rest)) <= fa)%nat)
          by (rewrite length_skipn; cbn [List.length]; lia).
        assert (F : exists c cs', firstn size (b :: rest) = c :: cs' /\ 0x80 <= u8 c).
        { destruct size; [lia|]. cbn [firstn]. unfold utf8.RuneSelf in A. eauto. }
        rewrite (@scan_string_rune _ _ fs c size Hstab Hlen F).
        rewrite (IH (skipn size (b :: rest)) fv fa fs tail); try lia; try exact V.
        cbn [prepend]. rewrite Henc, firstn_skipn. reflexivity.
Qed.

(** ** encoding/json: a marshalled description *)

Lemma scan_string_Marshal_string (s : list byte) (fs : nat) (tail : list byte) :
  utf8.Valid s = true ->
  (List.length (appendString_loop (List.length s) s) < fs)%nat ->
  scan_string fs (appendString_loop (List.length s) s ++ dquote :: tail)
  = Some (s, tail).
Proof.
  intros V Hf.
  apply (@scan_string_appendString (List.length s) s (List.length s));
    auto using Nat.le_refl.
Qed.

Lemma parse_value_dquote f depth r :
  parse_value (S f) depth (dquote :: r)
  = match scan_string (S (List.length r)) r with
    | Some (str, r1) => Some (JString str, r1)
    | None => None
    end.
Proof. reflexivity. Qed.

(** A marshalled string parses as the string. *)
Lemma parse_value_string f depth (s tail : list byte) :
  utf8.Valid s = true ->
  parse_value (S f) depth (appendString s ++ tail) = Some (JString s, tail).
Proof.
  intro V. unfold appendString. cbn [app]. rewrite parse_value_dquote.
  rewrite <- app_assoc. cbn [app].
  rewrite scan_string_Marshal_string; [reflexivity | exact V |].
  rewrite length_app. cbn [List.length]. lia.
Qed.

Lemma parse_members_dquote f depth r :
  parse_members (S f) depth (dquote :: r)
  = match scan_string (S (List.length r)) r with
    | None => None
    | Some (key, r1) =>
        match skip_space r1 with
        | [] => None
        | colon :: r2 =>
            if negb (Byte.eqb colon ":") then None else
            match parse_value f depth r2 with
            | None => None
            | Some (v, r3) =>
                match skip_space r3 with
                | [] => None
                | c :: r4 =>
                    if Byte.eqb c "}" then Some ([(key, v)], r4)
                    else if Byte.eqb c "," then
                      match parse_members f depth r4 with
                      | Some (ms, r5) => Some ((key, v) :: ms, r5)
                      | None => None
                      end
                    else None
                end
            end
        end
    end.
Proof. reflexivity. Qed.

Lemma scan_string_plain name fs tail :
  plain_name name -> (List.length (bytes name) < fs)%nat ->
  scan_string fs (bytes name ++ dquote :: tail) = Some (bytes name, tail).
Proof.
  intros [Hn Vn] Hf. rewrite <- Hn at 1.
  apply scan_string_Marshal_string; [exact Vn | rewrite Hn; exact Hf].
Qed.

(** One member [name : string] of an object, followed by a comma or by the
    closing brace. *)
Lemma parse_member_string f depth name (s tail : list byte) (c : byte) :
  plain_name name -> utf8.Valid s = true ->
  parse_members (S (S f)) depth
    (quoted_key name ++ appendString s ++ c :: tail)
  = if Byte.eqb c "}" then Some ([(bytes name, JString s)], tail)
    else if Byte.eqb c "," then
      match parse_members (S f) depth tail with
      | Some (ms, r) => Some ((bytes name, JString s) :: ms, r)
      | None => None
      end
    else if isSpace c then
      match skip_space tail with
      | [] => None
      | c' :: r4 =>
          if Byte.eqb c' "}" then Some ([(bytes name, JString s)], r4)
          else if Byte.eqb c' "," then
            match parse_members (S f) depth r4 with
            | Some (ms, r) => Some ((bytes name, JString s) :: ms, r)
            | None => None
            end
          else None
      end
    else None.
Proof.
  intros Hn V. unfold quoted_key. cbn [app].
  rewrite parse_members_dquote.
  rewrite <- app_assoc. cbn [app].
  rewrite (scan_string_plain _ Hn) by (rewrite length_app; cbn [List.length]; lia).
  change (skip_space (":"%byte :: ?r)) with (":"%byte :: r).
  cbn [skip_space isSpace Byte.eqb negb].
  change (Byte.eqb ":" ":") with true. cbn [negb].
  rewrite parse_value_string by exact V.
  cbn [skip_space].
  destruct (isSpace c) eqn:Sp.
  - destruct c; try discriminate Sp; reflexivity.
  - reflexivity.
Qed.

Lemma parse_value_object f depth name r :
  parse_value (S f) depth ("{"%byte :: quoted_key name ++ r)
  = if maxNestingDepth <? depth + 1 then None
    else match parse_members f (depth + 1) (quoted_key name ++ r) with
         | Some (ms, r2) => Some (JObject ms, r2)
         | None => None
         end.
Proof. reflexivity. Qed.

(** An object of two string members, as [Marshal] writes it. *)
Lemma parse_value_two_strings f n1 (s1 : list byte) n2 (s2 : list byte) :
  plain_name n1 -> plain_name n2 ->
  utf8.Valid s1 = true -> utf8.Valid s2 = true ->
  parse_value (S (S (S (S f)))) 0
    ("{"%byte :: quoted_key n1 ++ appendString s1
       ++ ","%byte :: quoted_key n2 ++ appendString s2 ++ ["}"%byte])
  = Some (JObject [(bytes n1, JString s1); (bytes n2, JString s2)], []).
Proof.
  intros P1 P2 V1 V2.
  rewrite parse_value_object.
  change (maxNestingDepth <? 0 + 1) with false. cbn iota.
  rewrite (@parse_member_string (S f) (0 + 1) n1 s1 _ ","%byte P1 V1).
  change (Byte.eqb "," "}") with false. change (Byte.eqb "," ",") with true.
  cbn iota.
  rewrite (@parse_member_string f (0 + 1) n2 s2 [] "}"%byte P2 V2).
  reflexivity.
Qed.

Lemma plain_type : plain_name "type".
Proof. split; reflexivity. Qed.

Lemma plain_sdp : plain_name "sdp".
Proof. split; reflexivity. Qed.

Lemma Valid_SDPType_String t : utf8.Valid (bytes (webrtc.SDPType_String t)) = true.
Proof. destruct t; reflexivity. Qed.

(** The text [Marshal] writes for a description parses as the object of
    its two fields. *)
Lemma parse_value_marshalled f (d : webrtc.SessionDescription) :
  (4 <= f)%nat ->
  utf8.ValidString (webrtc.SDP d) = true ->
  parse_value f 0 (marshalled d)
  = Some (JObject [(bytes "type", JString (bytes (webrtc.SDPType_String (webrtc.Type_ d))));
                   (bytes "sdp", JString (bytes (webrtc.SDP d)))], []).
Proof.
  intros Hf V.
  destruct f as [|[|[|[|f]]]]; try lia.
  apply parse_value_two_strings.
  - exact plain_type.
  - exact plain_sdp.
  - apply Valid_SDPType_String.
  - exact V.
Qed.

Lemma parse_document_marshalled (d : webrtc.SessionDescription) :
  utf8.ValidString (webrtc.SDP d) = true ->
  parse_document (marshalled d)
  = Some (JObject [(bytes "type", JString (bytes (webrtc.SDPType_String (webrtc.Type_ d))));
                   (bytes "sdp", JString (bytes (webrtc.SDP d)))]).
Proof.
  intro V. unfold parse_document.
  rewrite parse_value_marshalled; [reflexivity | | exact V].
  unfold marshalled, quoted_key. cbn [List.length app]. lia.
Qed.

(** [Unmarshal] stores in a description what [Marshal] wrote of one whose
    type is known and whose SDP is valid UTF-8. *)
Lemma Unmarshal_Marshal (d obj : webrtc.SessionDescription) :
  webrtc.Type_ d <> webrtc.SDPTypeUnknown ->
  utf8.ValidString (webrtc.SDP d) = true ->
  exists b, Marshal (Some d) = Ok b /\ Unmarshal b obj = Ok d.
Proof.
  intros T V. exists (marshalled d). split; [reflexivity|].
  unfold Unmarshal. rewrite (parse_document_marshalled _ V).
  unfold value_SessionDescription.
  destruct d as [t sdp]. cbn [webrtc.Type_ webrtc.SDP] in *.
  assert (E : object_SessionDescription
                [(bytes "type", JString (bytes (webrtc.SDPType_String t)));
                 (bytes "sdp", JString (bytes sdp))] obj None
              = Ok ({| webrtc.Type_ := t; webrtc.SDP := sdp |}, None)).
  { cbn [object_SessionDescription].
    change (lookup_field ["type"; "sdp"]%string (bytes "type")) with (Some "type"%string).
    change (lookup_field ["type"; "sdp"]%string (bytes "sdp")) with (Some "sdp"%string).
    cbn iota. change ("type" =? "type")%string with true.
    change ("sdp" =? "type")%string with false. cbn iota.
    replace (SDPType_UnmarshalJSON (JString (bytes (webrtc.SDPType_String t))))
      with (Ok t) by (destruct t; [congruence | reflexivity ..]).
    cbn [store_string webrtc.Type_ webrtc.SDP saveError].
    unfold bytes. rewrite string_of_list_byte_of_string. reflexivity. }
  rewrite E. reflexivity.
Qed.

End json_facts.

(** ** unicode/utf8: the first and the last rune *)

Module utf8_last.
Import utf8 utf8_spec.
Local Open Scope N_scope.

Lemma IsSpace_RuneError : unicode.IsSpace RuneError = false.
Proof. reflexivity. Qed.

(** A decoded rune is at least one byte wide and no wider than the input. *)
Lemma DecodeRune_size p r k :
  p <> [] -> DecodeRune p = (r, k) -> (1 <= k <= List.length p)%nat.
Proof.
  intros Hne HD.
  destruct ((r =? RuneError) && Nat.eqb k 1) eqn:V.
  - apply andb_true_iff in V. destruct V as [_ V]. apply Nat.eqb_eq in V.
    subst k. destruct p; [congruence | cbn; lia].
  - destruct (@utf8_facts.DecodeRune_valid p r k Hne HD V) as (Hk & Hlen & _).
    rewrite length_firstn in Hlen. lia.
Qed.

(** The head of an input that decodes to a rune other than [RuneError]
    decodes the same way whatever follows it. *)
Lemma DecodeRune_stable p r k q :
  DecodeRune p = (r, k) -> r <> RuneError ->
  DecodeRune (firstn k p ++ q) = (r, k).
Proof.
  intros HD Hr. destruct p as [|c p'].
  { cbn in HD. injection HD as <- <-. congruence. }
  assert (V : (r =? RuneError) && Nat.eqb k 1 = false)
    by (apply andb_false_iff; left; apply N.eqb_neq; exact Hr).
  destruct (@utf8_facts.DecodeRune_valid (c :: p') r k ltac:(discriminate) HD V)
    as (_ & _ & _ & Hs & _).
  apply Hs.
Qed.

(** Cutting an input short cannot turn its first rune into a space. *)
Lemma DecodeRune_firstn_not_space t m :
  unicode.IsSpace (fst (DecodeRune t)) = false ->
  unicode.IsSpace (fst (DecodeRune (firstn m t))) = false.
Proof.
  intro H.
  destruct (DecodeRune (firstn m t)) as [r k] eqn:D. cbn [fst].
  destruct (N.eq_dec r RuneError) as [->|Hr]; [reflexivity|].
  pose proof (@DecodeRune_stable _ _ _ (skipn k (firstn m t) ++ skipn m t) D Hr) as S.
  rewrite app_assoc, firstn_skipn, firstn_skipn in S.
  rewrite S in H. exact H.
Qed.

(** A rune wider than one byte is followed, inside it, by a continuation
    byte: the byte after a rune of width one that is not ASCII is missing or
    starts a rune when the next byte does. *)
Lemma DecodeRune_width_1 c q r k :
  DecodeRune (c :: q) = (r, k) ->
  match q with
  | [] => True
  | c1 :: _ => RuneStart c1 = true
  end ->
  k = 1%nat.
Proof.
  intros HD Hq.
  destruct (utf8_facts.DecodeRune_cases (c :: q)) as [[E _]|[E|[E|[E|[E|E]]]]].
  - discriminate E.
  - rewrite E in HD. injection HD as _ <-. reflexivity.
  - destruct E as (c0 & q0 & E & H0). injection E as <- <-.
    rewrite (@utf8_facts.DecodeRune_1 _ _ H0) in HD. injection HD as _ <-. reflexivity.
  - destruct E as (c0 & c1 & q0 & E & L & [C1 C2]). injection E as <- ->.
    exfalso. unfold RuneStart in Hq. apply negb_true_iff, N.eqb_neq in Hq.
    apply Hq. apply utf8_facts.cont_land; lia.
  - destruct E as (c0 & c1 & c2 & q0 & E & (_ & _ & [C1 C2] & _) & _).
    injection E as <- ->.
    exfalso. unfold RuneStart in Hq. apply negb_true_iff, N.eqb_neq in Hq.
    apply Hq. apply utf8_facts.cont_land; lia.
  - destruct E as (c0 & c1 & c2 & c3 & q0 & E & (_ & _ & [C1 C2] & _) & _).
    injection E as <- ->.
    exfalso. unfold RuneStart in Hq. apply negb_true_iff, N.eqb_neq in Hq.
    apply Hq. apply utf8_facts.cont_land; lia.
Qed.

Lemma back_le fuel p lim : forall start, (back fuel p lim start <= start)%Z.
Proof.
  induction fuel as [|fuel IH]; intro start; cbn [back]; [lia|].
  destruct (start <? lim)%Z; [lia|].
  destruct (RuneStart (nth (Z.to_nat start) p x00)); [lia|].
  specialize (IH (start - 1)%Z). lia.
Qed.

Lemma skipn_last {A} (l : list A) (a : A) :
  skipn (List.length (l ++ [a]) - 1) (l ++ [a]) = [a].
Proof.
  rewrite length_app. cbn [List.length].
  replace (List.length l + 1 - 1)%nat with (List.length l) by lia.
  rewrite skipn_app, Nat.sub_diag, skipn_all. reflexivity.
Qed.

(** [DecodeLastRune]: the rune it returns is the one [DecodeRune] finds
    where it starts, unless it is the [RuneError] of width one. *)
Lemma DecodeLastRune_spec p r size :
  p <> [] -> DecodeLastRune p = (r, size) ->
  (1 <= size <= List.length p)%nat
  /\ ((size = 1%nat /\ r = RuneError)
      \/ DecodeRune (skipn (List.length p - size) p) = (r, size)).
Proof.
  intros Hne HD. unfold DecodeLastRune in HD.
  destruct (rev p) as [|last l] eqn:R.
  { apply (f_equal (@rev byte)) in R. rewrite rev_involutive in R. contradiction. }
  assert (Hp : p = rev l ++ [last]).
  { apply (f_equal (@rev byte)) in R. rewrite rev_involutive in R. exact R. }
  assert (Hlen : (1 <= List.length p)%nat)
    by (rewrite Hp, length_app; cbn; lia).
  destruct (N.ltb_spec (u8 last) RuneSelf) as [A|A].
  - injection HD as <- <-. split; [lia|]. right.
    rewrite Hp, skipn_last. apply (@utf8_facts.DecodeRune_1 _ _ A).
  - set (end_ := Z.of_nat (List.length p)) in *.
    set (start := Z.max (back 4 p (Z.max (end_ - 4) 0) (end_ - 2)) 0) in *.
    assert (Hs : (0 <= start < end_)%Z).
    { subst start. pose proof (back_le 4 p (Z.max (end_ - 4) 0) (end_ - 2)%Z).
      subst end_. lia. }
    destruct (DecodeRune (skipn (Z.to_nat start) p)) as [r' size'] eqn:D.
    assert (Hsk : skipn (Z.to_nat start) p <> []).
    { intro E. apply (f_equal (@List.length byte)) in E.
      rewrite length_skipn in E. cbn in E. subst end_. lia. }
    pose proof (DecodeRune_size Hsk D) as Hsz. rewrite length_skipn in Hsz.
    destruct (Z.eqb_spec (start + Z.of_nat size') end_) as [E|E].
    + injection HD as <- <-. subst end_. split; [lia|]. right.
      replace (List.length p - size')%nat with (Z.to_nat start) by lia.
      exact D.
    + injection HD as <- <-. split; [lia|]. left. auto.
Qed.

(** The same for a rune wider than one byte, [RuneError] included. *)
Lemma DecodeRune_stable_wide p r k q :
  DecodeRune p = (r, k) -> (2 <= k)%nat ->
  DecodeRune (firstn k p ++ q) = (r, k).
Proof.
  intros HD Hk. destruct p as [|c p'].
  { cbn in HD. injection HD as _ <-. lia. }
  assert (V : (r =? RuneError) && Nat.eqb k 1 = false).
  { apply andb_false_iff. right. apply Nat.eqb_neq. lia. }
  destruct (@utf8_facts.DecodeRune_valid (c :: p') r k ltac:(discriminate) HD V)
    as (_ & _ & _ & Hs & _).
  apply Hs.
Qed.

Lemma DecodeLastRune_ascii l (c : byte) :
  u8 c < RuneSelf -> DecodeLastRune (l ++ [c]) = (u8 c, 1%nat).
Proof.
  intro H. unfold DecodeLastRune. rewrite rev_app_distr. cbn [rev app].
  destruct (N.ltb_spec (u8 c) RuneSelf); [reflexivity | lia].
Qed.

End utf8_last.
(** ** strings.TrimSpace *)

Module strings_facts.
Import utf8 strings strings_spec.
Local Open Scope N_scope.

Lemma asciiSpace_IsSpace (c : byte) :
  u8 c < RuneSelf -> unicode.IsSpace (u8 c) = asciiSpace c.
Proof.
  intro H. destruct c; try (exfalso; vm_compute in H; discriminate H); reflexivity.
Qed.

Lemma has_text_loop_fuel : forall f1 f2 s,
  (List.length s <= f1)%nat -> (List.length s <= f2)%nat ->
  has_text_loop f1 s = has_text_loop f2 s.
Proof.
  induction f1 as [|f1 IH]; intros f2 s H1 H2.
  - destruct s; [destruct f2; reflexivity | cbn in H1; lia].
  - destruct s as [|c q]; [destruct f2; reflexivity|].
    destruct f2 as [|f2]; [cbn in H2; lia|].
    cbn [has_text_loop].
    destruct (DecodeRune (c :: q)) as [r k] eqn:D.
    pose proof (@utf8_last.DecodeRune_size (c :: q) r k ltac:(discriminate) D) as Hk.
    f_equal. apply IH; rewrite length_skipn; cbn [List.length] in *; lia.
Qed.

Lemma has_text_cons c q r k :
  DecodeRune (c :: q) = (r, k) ->
  has_text (c :: q) = negb (unicode.IsSpace r) || has_text (skipn k (c :: q)).
Proof.
  intro D. unfold has_text. cbn [List.length has_text_loop]. rewrite D.
  pose proof (@utf8_last.DecodeRune_size (c :: q) r k ltac:(discriminate) D) as Hk.
  f_equal. apply has_text_loop_fuel; rewrite ?length_skipn; cbn [List.length] in *; lia.
Qed.

(** [TrimLeftFunc]: what is left is a tail of the text, empty exactly when
    the text has no text, and begins with a rune that is not a space. *)
Lemma TrimLeftFunc_loop_spec : forall fuel s,
  (List.length s <= fuel)%nat ->
  (TrimLeftFunc_loop fuel unicode.IsSpace s = [] <-> has_text s = false)
  /\ (TrimLeftFunc_loop fuel unicode.IsSpace s <> [] ->
      unicode.IsSpace (fst (DecodeRune (TrimLeftFunc_loop fuel unicode.IsSpace s)))
      = false).
Proof.
  induction fuel as [|fuel IH]; intros s Hf.
  - destruct s; [|cbn in Hf; lia]. cbn. split; [tauto | congruence].
  - destruct s as [|c q]; [cbn; split; [tauto | congruence]|].
    cbn [TrimLeftFunc_loop].
    destruct (DecodeRune (c :: q)) as [r k] eqn:D.
    pose proof (@utf8_last.DecodeRune_size (c :: q) r k ltac:(discriminate) D) as Hk.
    rewrite (@has_text_cons _ _ _ _ D).
    destruct (unicode.IsSpace r) eqn:Sp; cbn [negb orb].
    + apply IH. rewrite length_skipn. cbn [List.length] in *. lia.
    + split; [split; discriminate|]. intros _. rewrite D. exact Sp.
Qed.

Lemma DecodeRune_start c q r k :
  DecodeRune (c :: q) = (r, k) -> r <> RuneError -> RuneStart c = true.
Proof.
  intros D Hr. apply utf8_facts.RuneStart_spec.
  destruct (utf8_facts.DecodeRune_cases (c :: q)) as [[E _]|[E|[E|[E|[E|E]]]]].
  - discriminate E.
  - rewrite E in D. injection D as <- _. congruence.
  - destruct E as (c0 & q0 & E & H0). injection E as <- _. left. exact H0.
  - destruct E as (c0 & c1 & q0 & E & [L1 L2] & _). injection E as <- _. right. lia.
  - destruct E as (c0 & c1 & c2 & q0 & E & (L1 & _) & _). injection E as <- _.
    right. lia.
  - destruct E as (c0 & c1 & c2 & c3 & q0 & E & (L1 & _) & _). injection E as <- _.
    right. lia.
Qed.

Lemma firstn_firstn_le {A} (l : list A) i j :
  (i <= j)%nat -> firstn i (firstn j l) = firstn i l.
Proof. intro H. rewrite firstn_firstn. f_equal. lia. Qed.

Lemma skipn_firstn_app {A} (l : list A) i j :
  (i <= j)%nat -> (j <= List.length l)%nat ->
  skipn i l = skipn i (firstn j l) ++ skipn j l.
Proof.
  intros H Hj. rewrite <- (firstn_skipn j l) at 1.
  rewrite skipn_app, length_firstn, Nat.min_l by exact Hj.
  replace (i - j)%nat with 0%nat by lia. reflexivity.
Qed.

Lemma nth_skipn_head (l : list byte) i c q :
  skipn i l = c :: q -> nth i l x00 = c.
Proof.
  revert l. induction i as [|i IH]; intros l H.
  - cbn in H. subst l. reflexivity.
  - destruct l as [|a l]; [discriminate H|]. cbn in H |- *. apply IH. exact H.
Qed.

(** The loop of [lastIndexFunc] on the prefix [firstn j t]: it stops at a
    rune that is not a space and ends where a rune starts, or the text
    begins with a space. *)
Lemma lastIndexFunc_loop_spec t : forall fuel j,
  (j <= List.length t)%nat -> (j <= fuel)%nat -> boundary t j ->
  match lastIndexFunc_loop fuel unicode.IsSpace (firstn j t) with
  | Some i =>
      exists j' r size,
        (1 <= j' <= j)%nat
        /\ DecodeLastRune (firstn j' t) = (r, size)
        /\ i = (j' - size)%nat
        /\ unicode.IsSpace r = false
        /\ boundary t j'
  | None =>
      j = 0%nat
      \/ exists r k, DecodeRune t = (r, k) /\ unicode.IsSpace r = true
  end.
Proof.
  induction fuel as [|fuel IH]; intros j Hj Hf B.
  - assert (j = 0)%nat by lia. subst j. cbn. auto.
  - destruct j as [|j0]; [cbn; auto|].
    remember (S j0) as j eqn:Ej.
    destruct (firstn j t) as [|c p'] eqn:P.
    { apply (f_equal (@List.length byte)) in P. rewrite length_firstn in P.
      cbn in P. lia. }
    rewrite <- P. assert (Hne : firstn j t <> []) by (rewrite P; discriminate).
    assert (Hlen : List.length (firstn j t) = j) by (rewrite length_firstn; lia).
    replace (lastIndexFunc_loop (S fuel) unicode.IsSpace (firstn j t))
      with (let (r, size) := DecodeLastRune (firstn j t) in
            let i := (List.length (firstn j t) - size)%nat in
            if negb (unicode.IsSpace r) then Some i
            else lastIndexFunc_loop fuel unicode.IsSpace (firstn i (firstn j t)))
      by (rewrite P; reflexivity).
    destruct (DecodeLastRune (firstn j t)) as [r size] eqn:D.
    destruct (@utf8_last.DecodeLastRune_spec _ _ _ Hne D) as [Hsz Hdec].
    rewrite Hlen in *. cbv zeta.
    destruct (unicode.IsSpace r) eqn:Sp; cbn [negb].
    + (* a space: go on with the prefix before it *)
      assert (Hr : r <> RuneError) by (intro E; subst r; discriminate Sp).
      destruct Hdec as [[_ E]|Hdec]; [contradiction|].
      rewrite firstn_firstn_le by lia.
      assert (Bi : boundary t (j - size)).
      { unfold boundary. rewrite (@skipn_firstn_app _ t (j - size) j) by lia.
        destruct (skipn (j - size) (firstn j t)) as [|c0 q0] eqn:Q.
        - cbn in Hdec. injection Hdec as _ Hz. lia.
        - cbn [app]. apply (@DecodeRune_start _ _ _ _ Hdec Hr). }
      specialize (IH (j - size)%nat ltac:(lia) ltac:(lia) Bi).
      destruct (lastIndexFunc_loop fuel unicode.IsSpace (firstn (j - size) t)) as [i|].
      * destruct IH as (j' & r' & size' & H1 & H2 & H3 & H4 & H5).
        exists j', r', size'. repeat split; auto; lia.
      * destruct IH as [Z|IH]; [|right; exact IH].
        right. exists r, size. split; [|exact Sp].
        assert (size = j) by lia. subst size.
        rewrite Nat.sub_diag in Hdec. cbn [skipn] in Hdec.
        pose proof (@utf8_last.DecodeRune_stable _ _ _ (skipn j t) Hdec Hr) as S.
        rewrite firstn_firstn_le in S by lia.
        rewrite firstn_skipn in S. exact S.
    + exists j, r, size. repeat split; auto; lia.
Qed.

Lemma boundary_end t : boundary t (List.length t).
Proof. unfold boundary. rewrite skipn_all. exact I. Qed.

(** [TrimRightFunc] on a text that begins with a rune that is not a space:
    a prefix of the text, not empty, whose last rune is not a space. *)
Lemma TrimRightFunc_spec t :
  t <> [] ->
  unicode.IsSpace (fst (DecodeRune t)) = false ->
  exists j,
    (1 <= j <= List.length t)%nat
    /\ TrimRightFunc t unicode.IsSpace = firstn j t
    /\ unicode.IsSpace (fst (DecodeLastRune (firstn j t))) = false.
Proof.
  intros Hne Hfirst. unfold TrimRightFunc.
  pose proof (@lastIndexFunc_loop_spec t (List.length t) (List.length t)
                (Nat.le_refl _) (Nat.le_refl _) (boundary_end t)) as L.
  rewrite firstn_all in L.
  destruct (lastIndexFunc_loop (List.length t) unicode.IsSpace t) as [i|].
  2:{ exfalso. destruct L as [Z|(r & k & D & Sp)].
      - destruct t; [congruence | discriminate Z].
      - rewrite D in Hfirst. cbn in Hfirst. congruence. }
  destruct L as (j & r & size & Hj & D & -> & Sp & B).
  exists j. split; [lia|]. split; [|rewrite D; exact Sp].
  assert (Hne' : firstn j t <> []).
  { intro E. apply (f_equal (@List.length byte)) in E.
    rewrite length_firstn in E. cbn in E. lia. }
  destruct (@utf8_last.DecodeLastRune_spec _ _ _ Hne' D) as [Hsz Hdec].
  rewrite length_firstn, Nat.min_l in Hsz, Hdec by lia.
  pose proof (@skipn_firstn_app _ t (j - size) j ltac:(lia) ltac:(lia)) as Sk.
  destruct (skipn (j - size) (firstn j t)) as [|b q] eqn:Q.
  { apply (f_equal (@List.length byte)) in Q.
    rewrite length_skipn, length_firstn in Q. cbn in Q. lia. }
  assert (Hq : List.length (b :: q) = size).
  { rewrite <- Q, length_skipn, length_firstn. lia. }
  cbn [app] in Sk. rewrite (nth_skipn_head _ _ Sk).
  destruct (N.leb_spec RuneSelf (u8 b)) as [Hi|Lo].
  - (* the last rune is not ASCII *)
    rewrite Sk. destruct (DecodeRune (b :: q ++ skipn j t)) as [r' wid] eqn:D'.
    f_equal.
    destruct (Nat.eq_dec size 1) as [E1|N1].
    + rewrite E1 in *. destruct q; [|cbn in Hq; lia]. cbn [app] in D'.
      rewrite (@utf8_last.DecodeRune_width_1 _ _ _ _ D' B). lia.
    + destruct Hdec as [[E _]|Hdec]; [contradiction|].
      pose proof (@utf8_last.DecodeRune_stable_wide _ _ _ (skipn j t) Hdec
                    ltac:(lia)) as S.
      rewrite <- Hq in S at 1. rewrite firstn_all in S.
      cbn [app] in S. rewrite S in D'. injection D' as _ <-. lia.
  - (* the last rune is ASCII *)
    f_equal.
    destruct Hdec as [[E _]|Hdec]; [lia|].
    rewrite (@utf8_facts.DecodeRune_1 _ _ Lo) in Hdec. injection Hdec as _ <-. lia.
Qed.

(** The second loop of [TrimSpace] on a text that begins with an ASCII byte
    that is not a space. *)
Lemma TrimSpace_stop_spec (c : byte) rest :
  u8 c < RuneSelf -> asciiSpace c = false ->
  forall stop, (1 <= stop <= List.length (c :: rest))%nat ->
  exists j,
    (1 <= j <= stop)%nat
    /\ TrimSpace_stop (c :: rest) stop = firstn j (c :: rest)
    /\ unicode.IsSpace (fst (DecodeLastRune (firstn j (c :: rest)))) = false.
Proof.
  intros Hc Hs. set (s := c :: rest).
  assert (Hfirst : forall m, (1 <= m)%nat ->
             unicode.IsSpace (fst (DecodeRune (firstn m s))) = false).
  { intros m Hm. apply utf8_last.DecodeRune_firstn_not_space.
    unfold s. rewrite (@utf8_facts.DecodeRune_1 _ _ Hc). cbn [fst].
    rewrite (asciiSpace_IsSpace _ Hc). exact Hs. }
  induction stop as [|k IH]; intro Hk; [lia|].
  cbn [TrimSpace_stop]. fold s.
  assert (Hsplit : firstn (S k) s = firstn k s ++ [nth k s x00]).
  { clear -Hk. revert k Hk. generalize s. intros l.
    induction l as [|a l IH]; intros k Hk; [cbn in Hk; lia|].
    destruct k as [|k]; [reflexivity|].
    cbn [firstn nth app]. f_equal. apply IH. cbn [List.length] in Hk. lia. }
  destruct (N.leb_spec RuneSelf (u8 (nth k s x00))) as [Hi|Lo].
  - assert (Hne : firstn (S k) s <> []) by (unfold s; cbn; discriminate).
    destruct (@TrimRightFunc_spec (firstn (S k) s) Hne (Hfirst (S k) ltac:(lia)))
      as (j & Hj & E & L).
    rewrite length_firstn in Hj.
    exists j. rewrite E. rewrite !firstn_firstn_le in * by lia.
    repeat split; auto; lia.
  - destruct (asciiSpace (nth k s x00)) eqn:Sp.
    + destruct k as [|k'].
      { unfold s in Sp. cbn in Sp. congruence. }
      destruct (IH ltac:(lia)) as (j & Hj & E & L).
      exists j. repeat split; auto; lia.
    + exists (S k). split; [lia|]. split; [reflexivity|].
      rewrite Hsplit, (@utf8_last.DecodeLastRune_ascii _ _ Lo). cbn [fst].
      rewrite (asciiSpace_IsSpace _ Lo). exact Sp.
Qed.

(** [TrimSpace]: the result is empty exactly when the text has no text, and
    is trimmed otherwise. *)
Lemma TrimSpace_start_spec s :
  (TrimSpace_start s = [] <-> has_text s = false)
  /\ (TrimSpace_start s <> [] -> trimmed (TrimSpace_start s)).
Proof.
  induction s as [|c rest IH].
  - cbn. split; [tauto | congruence].
  - cbn [TrimSpace_start].
    destruct (N.leb_spec RuneSelf (u8 c)) as [Hi|Lo].
    + (* fall back on TrimFunc *)
      unfold TrimFunc, TrimLeftFunc.
      destruct (@TrimLeftFunc_loop_spec (List.length (c :: rest)) (c :: rest)
                  (Nat.le_refl _)) as [L1 L2].
      destruct (TrimLeftFunc_loop (List.length (c :: rest)) unicode.IsSpace (c :: rest))
        as [|c' t'] eqn:T.
      * cbn. split; [tauto | congruence].
      * assert (Hne : c' :: t' <> []) by discriminate.
        destruct (@TrimRightFunc_spec (c' :: t') Hne (L2 Hne)) as (j & Hj & E & L).
        rewrite E.
        assert (Hne' : firstn j (c' :: t') <> []).
        { destruct j; [lia | cbn; discriminate]. }
        split.
        -- split; [contradiction|]. intro H. apply L1 in H. discriminate H.
        -- intros _. repeat split; auto.
           apply utf8_last.DecodeRune_firstn_not_space. apply (L2 Hne).
    + pose proof (@utf8_facts.DecodeRune_1 c rest Lo) as D.
      rewrite (@has_text_cons _ _ _ _ D), (asciiSpace_IsSpace _ Lo). cbn [skipn].
      destruct (asciiSpace c) eqn:Sp; cbn [negb orb].
      * exact IH.
      * destruct (@TrimSpace_stop_spec c rest Lo Sp (List.length (c :: rest))
                    ltac:(cbn; lia)) as (j & Hj & E & L).
        rewrite E.
        assert (Hne' : firstn j (c :: rest) <> []).
        { destruct j; [lia | cbn; discriminate]. }
        split.
        -- split; [contradiction | discriminate].
        -- intros _. repeat split; auto.
           apply utf8_last.DecodeRune_firstn_not_space.
           rewrite D. cbn [fst]. rewrite (asciiSpace_IsSpace _ Lo). exact Sp.
Qed.

End strings_facts.
(** ** Strings *)

Lemma string_app_empty_r (s : string) : (s ++ EmptyString)%string = s.
Proof. induction s as [|a s IH]; cbn; [reflexivity | rewrite IH; reflexivity]. Qed.

(** ** The monad of processes *)

Lemma trace_bind {A B} (m : M A) (f : A -> M B) a :
  result_of m = Returned a ->
  trace (bind m f) = trace m ++ trace (f a).
Proof.
  destruct m as [t o]; simpl; intros ->; simpl.
  destruct (f a); reflexivity.
Qed.

Lemma bind_emit {B} (e : event) (k : M B) :
  (emit e ;;; k) = (e :: fst k, snd k).
Proof. destruct k; reflexivity. Qed.

Lemma written_app t1 t2 : written (t1 ++ t2) = written t1 ++ written t2.
Proof. apply flat_map_app. Qed.

Lemma read_ok_app t1 t2 : read_ok (t1 ++ t2) = read_ok t1 ++ read_ok t2.
Proof. apply flat_map_app. Qed.

Lemma exits_app t1 t2 : exits (t1 ++ t2) = exits t1 ++ exits t2.
Proof. apply flat_map_app. Qed.

Lemma relayed_app a b : relayed (a ++ b) = relayed a ++ relayed b.
Proof. apply flat_map_app. Qed.

Lemma written_relayed pkts : written (relayed pkts) = pkts.
Proof.
  induction pkts as [|p pkts IH]; [reflexivity|].
  change (written (relayed (p :: pkts))) with (p :: written (relayed pkts)).
  rewrite IH. reflexivity.
Qed.

Lemma read_ok_relayed pkts : read_ok (relayed pkts) = pkts.
Proof.
  induction pkts as [|p pkts IH]; [reflexivity|].
  change (read_ok (relayed (p :: pkts))) with (p :: read_ok (relayed pkts)).
  rewrite IH. reflexivity.
Qed.

Lemma firstn_length_app {A} (a b : list A) : firstn (List.length a) (a ++ b) = a.
Proof.
  rewrite <- (Nat.add_0_r (List.length a)), firstn_app_2. cbn [firstn].
  apply app_nil_r.
Qed.

(** ** Media pipeline: the relay loop *)

Section Relay.
Variable outputTrack : TrackLocal.

(** One round of the loop on a packet that was read. *)
Lemma relay_loop_ok rtp reads n :
  relay_loop (Ok rtp :: reads) outputTrack n =
  match outputTrack n rtp with
  | Some writeErr => ([EvReadRTP (Ok rtp); EvWriteRTP rtp], Panicked writeErr)
  | None =>
      (EvReadRTP (Ok rtp) :: EvWriteRTP rtp
         :: fst (relay_loop reads outputTrack (S n)),
       snd (relay_loop reads outputTrack (S n)))
  end.
Proof.
  cbn [relay_loop]. rewrite !bind_emit.
  destruct (outputTrack n rtp); reflexivity.
Qed.

Lemma relay_loop_err e reads n :
  relay_loop (Err e :: reads) outputTrack n =
  ([EvReadRTP (Err e)], Panicked e).
Proof. reflexivity. Qed.

Lemma relay_loop_written reads : forall n,
  written (trace (relay_loop reads outputTrack n))
  = read_ok (trace (relay_loop reads outputTrack n)).
Proof.
  induction reads as [|r reads IH]; intro n; [reflexivity|].
  destruct r as [rtp|e]; [|reflexivity].
  rewrite relay_loop_ok.
  destruct (outputTrack n rtp); [reflexivity|].
  unfold trace in *; cbn. f_equal. apply IH.
Qed.

(** While the writes succeed, the packets delivered before a read failure
    are written one for one and the failure ends the loop in a panic. *)
Lemma relay_loop_until_failure pkts e rest : forall n,
  (forall i p, nth_error pkts i = Some p -> outputTrack (n + i) p = None) ->
  written (trace (relay_loop (map Ok pkts ++ Err e :: rest) outputTrack n)) = pkts
  /\ result_of (relay_loop (map Ok pkts ++ Err e :: rest) outputTrack n)
     = Panicked e.
Proof.
  induction pkts as [|p pkts IH]; intros n Hw.
  - split; reflexivity.
  - cbn [map app]. rewrite relay_loop_ok.
    assert (H0 : outputTrack n p = None)
      by (rewrite <- (Nat.add_0_r n); apply Hw; reflexivity).
    rewrite H0.
    destruct (IH (S n)) as [IHw IHr].
    { intros i q Hi. replace (S n + i)%nat with (n + S i)%nat by lia.
      apply Hw. exact Hi. }
    unfold trace, result_of in *; cbn. split; [f_equal; exact IHw | exact IHr].
Qed.

(** Whatever the writes do, a stream with a read failure in it ends the
    loop in a panic. *)
Lemma relay_loop_panics pkts e rest : forall n,
  exists e', result_of (relay_loop (map Ok pkts ++ Err e :: rest) outputTrack n)
             = Panicked e'.
Proof.
  induction pkts as [|p pkts IH]; intro n.
  - exists e. reflexivity.
  - cbn [map app]. rewrite relay_loop_ok.
    destruct (outputTrack n p) as [we|].
    + exists we. reflexivity.
    + destruct (IH (S n)) as [e' He']. exists e'. exact He'.
Qed.
(** While the writes succeed, the packets the track delivers are read and
    written one after the other, and the loop goes on with what follows. *)
Lemma relay_loop_prefix pkts rest : forall n,
  (forall i p, nth_error pkts i = Some p -> outputTrack (n + i) p = None) ->
  relay_loop (map Ok pkts ++ rest) outputTrack n
  = (relayed pkts
       ++ fst (relay_loop rest outputTrack (n + List.length pkts)),
     snd (relay_loop rest outputTrack (n + List.length pkts))).
Proof.
  induction pkts as [|p pkts IH]; intros n Hw.
  - cbn [map app List.length relayed flat_map]. rewrite Nat.add_0_r.
    destruct (relay_loop rest outputTrack n); reflexivity.
  - cbn [map app]. rewrite relay_loop_ok.
    assert (H0 : outputTrack n p = None)
      by (rewrite <- (Nat.add_0_r n); apply Hw; reflexivity).
    rewrite H0, (IH (S n)).
    + cbn [fst snd List.length].
      replace (S n + List.length pkts)%nat with (n + S (List.length pkts))%nat
        by lia.
      reflexivity.
    + intros i q Hi. replace (S n + i)%nat with (n + S i)%nat by lia.
      apply Hw. exact Hi.
Qed.
End Relay.


(** C1. Every packet the relay loop reads from the inbound track is written
    to the outbound track.  When the track delivers the [n] packets [pkts],
    and then whatever follows, and the writes of these packets succeed, the
    callback reads and writes them one after the other: after the
    announcement its trace begins with the [n] reads, each followed by the
    write of the packet read, so that the first [n] packets read and the
    first [n] packets written are [pkts], in this order, each one as it was
    read and so with its payload; when the track delivers nothing more the
    writes are those [n] and no other.  In every run, whatever the writes
    do, the packets written are the packets read. *)
Theorem relay_forwards_every_packet_in_order :
  forall (outputTrack : TrackLocal) (pt : N) (mime : string)
         (pkts : list rtp.Packet) (rest : list (result rtp.Packet)),
    let track := {| track_PayloadType := pt; track_MimeType := mime;
                    reads := map Ok pkts ++ rest |} in
    let t := trace (OnTrack outputTrack track) in
    let n := List.length pkts in
    written t = read_ok t
    /\ ((forall i p, nth_error pkts i = Some p -> outputTrack i p = None) ->
        (exists t', t = EvPrint (announcement track) :: relayed pkts ++ t')
        /\ firstn n (read_ok t) = pkts
        /\ firstn n (written t) = pkts
        /\ map rtp.Payload (firstn n (written t)) = map rtp.Payload pkts
        /\ (rest = [] ->
            t = EvPrint (announcement track) :: relayed pkts
            /\ written t = pkts
            /\ List.length (written t) = n)).
Proof.
  intros outputTrack pt mime pkts rest track t n. subst n.
  assert (E : t = EvPrint (announcement track)
                    :: fst (relay_loop (map Ok pkts ++ rest) outputTrack 0)).
  { subst t. unfold OnTrack, Print. rewrite bind_emit. reflexivity. }
  split.
  { rewrite E.
    change (written (fst (relay_loop (map Ok pkts ++ rest) outputTrack 0))
            = read_ok (fst (relay_loop (map Ok pkts ++ rest) outputTrack 0))).
    apply relay_loop_written. }
  intro Hw.
  rewrite (@relay_loop_prefix outputTrack pkts rest 0%nat Hw) in E.
  cbn [fst] in E.
  set (t' := fst (relay_loop rest outputTrack (0 + List.length pkts))) in E.
  assert (W : written t = pkts ++ written t').
  { rewrite E.
    change (written (relayed pkts ++ t') = pkts ++ written t').
    rewrite written_app, written_relayed. reflexivity. }
  assert (R : read_ok t = pkts ++ read_ok t').
  { rewrite E.
    change (read_ok (relayed pkts ++ t') = pkts ++ read_ok t').
    rewrite read_ok_app, read_ok_relayed. reflexivity. }
  split; [exists t'; exact E|].
  split; [rewrite R; apply firstn_length_app|].
  split; [rewrite W; apply firstn_length_app|].
  split; [rewrite W, firstn_length_app; reflexivity|].
  intros ->. subst t'. cbn [relay_loop block fst] in *.
  rewrite app_nil_r in *. split; [exact E|]. split; [exact W|].
  rewrite W. reflexivity.
Qed.

(** Three packets delivered and written, and then no more. *)
Lemma relay_forwards_every_packet_in_order_witness :
  let track := {| track_PayloadType := 96; track_MimeType := "video/VP8";
                  reads := map Ok [pkt 1 "a"; pkt 2 "b"; pkt 3 "c"] ++ [] |} in
  let t := trace (OnTrack (fun _ _ => None) track) in
  t = EvPrint (announcement track)
        :: relayed [pkt 1 "a"; pkt 2 "b"; pkt 3 "c"]
  /\ written t = [pkt 1 "a"; pkt 2 "b"; pkt 3 "c"]
  /\ List.length (written t) = 3%nat.
Proof.
  intros track t.
  destruct (@relay_forwards_every_packet_in_order (fun _ _ => None) 96
              "video/VP8" [pkt 1 "a"; pkt 2 "b"; pkt 3 "c"] [])
    as [_ H].
  destruct (H (fun _ _ _ => eq_refl)) as (_ & _ & _ & _ & K).
  exact (K eq_refl).
Defined.

(** C4. When the inbound track yields [k] packets and then a read failure,
    the callback ends in a panic, which nothing recovers; when the [k]
    writes succeed it has forwarded exactly those [k] packets, the panic
    carries the read error and the failed read is the last thing it did. *)
Theorem relay_read_failure_is_fatal :
  forall (outputTrack : TrackLocal) (pt : N) (mime : string)
         (pkts : list rtp.Packet) (e : error) (rest : list (result rtp.Packet)),
    let track := {| track_PayloadType := pt; track_MimeType := mime;
                    reads := map Ok pkts ++ Err e :: rest |} in
    let m := OnTrack outputTrack track in
    (exists e', result_of m = Panicked e')
    /\ ((forall i p, nth_error pkts i = Some p -> outputTrack i p = None) ->
        written (trace m) = pkts
        /\ result_of m = Panicked e
        /\ exists t, trace m = t ++ [EvReadRTP (Err e)]).
Proof.
  intros outputTrack pt mime pkts e rest track m. subst m track.
  unfold OnTrack, Print. rewrite bind_emit. unfold trace, result_of; cbn [fst snd reads].
  split.
  - apply relay_loop_panics.
  - intros Hw.
    destruct (relay_loop_until_failure outputTrack pkts e rest 0 Hw) as [H1 H2].
    unfold trace, result_of in *. split; [exact H1 | split; [exact H2|]].
    clear H1 H2.
    match goal with |- exists t, ?x :: _ = _ => generalize x end. intro ev.
    assert (G : forall n, (forall i p, nth_error pkts i = Some p ->
                                        outputTrack (n + i) p = None) ->
                exists t, fst (relay_loop (map Ok pkts ++ Err e :: rest) outputTrack n)
                          = t ++ [EvReadRTP (Err e)]).
    { clear Hw. induction pkts as [|p pkts IH]; intros n Hn.
      - exists []. reflexivity.
      - cbn [map app]. rewrite relay_loop_ok.
        assert (H0 : outputTrack n p = None)
          by (rewrite <- (Nat.add_0_r n); apply Hn; reflexivity).
        rewrite H0.
        destruct (IH (S n)) as [t Ht].
        { intros i q Hi. replace (S n + i)%nat with (n + S i)%nat by lia.
          apply Hn. exact Hi. }
        exists (EvReadRTP (Ok p) :: EvWriteRTP p :: t). cbn. rewrite Ht. reflexivity. }
    destruct (G 0%nat Hw) as [t Ht]. exists (ev :: t). rewrite Ht. reflexivity.
Qed.

(** The scenario of the specification: three packets, then a failure. *)
Lemma relay_read_failure_is_fatal_witness :
  let m := OnTrack (fun _ _ => None)
             {| track_PayloadType := 96; track_MimeType := "video/VP8";
                reads := map Ok [pkt 1 "a"; pkt 2 "b"; pkt 3 "c"]
                           ++ [Err (External "EOF")] |} in
  written (trace m) = [pkt 1 "a"; pkt 2 "b"; pkt 3 "c"]
  /\ result_of m = Panicked (External "EOF")
  /\ exists t, trace m = t ++ [EvReadRTP (Err (External "EOF"))].
Proof.
  apply (relay_read_failure_is_fatal (fun _ _ => None) 96 "video/VP8"
           [pkt 1 "a"; pkt 2 "b"; pkt 3 "c"] (External "EOF") []).
  intros i p _. reflexivity.
Defined.

(** ** Media pipeline: the RTCP drain loop *)

Lemma rtcp_loop_drains datas e rest : forall rtcpBuf,
  rtcp_loop (map Ok datas ++ Err e :: rest) rtcpBuf
  = (repeat (EvRead (List.length rtcpBuf)) (S (List.length datas)), Returned tt).
Proof.
  induction datas as [|d datas IH]; intro rtcpBuf.
  - reflexivity.
  - cbn [map app rtcp_loop]. rewrite bind_emit, IH. cbn [fst snd].
    replace (List.length (firstn (Nat.min (List.length d) (List.length rtcpBuf)) d
                            ++ skipn (Nat.min (List.length d) (List.length rtcpBuf)) rtcpBuf))
      with (List.length rtcpBuf).
    + reflexivity.
    + rewrite length_app, length_firstn, length_skipn. lia.
  Qed.

(** C9. The RTCP goroutine reads into one buffer of 1500 bytes; whatever the
    reads deliver, it does nothing but read again, and at the first read
    error it returns: its events are the reads alone (no print, no exit) and
    it ends neither in a panic nor in an exit. *)
Theorem rtcp_drain_returns_silently :
  forall (datas : list (list byte)) (e : error) (rest : list (result (list byte))),
    rtcp_goroutine (map Ok datas ++ Err e :: rest)
    = (repeat (EvRead 1500) (S (List.length datas)), Returned tt).
Proof.
  intros. unfold rtcp_goroutine. rewrite rtcp_loop_drains.
  rewrite repeat_length. reflexivity.
Qed.

(** ** Connection lifecycle *)

Lemma OnConnectionStateChange_exits s :
  exits (trace (OnConnectionStateChange s)) = (if terminal s then [0%Z] else [])
  /\ result_of (OnConnectionStateChange s)
     = (if terminal s then Exited 0%Z else Returned tt).
Proof. destruct s; split; reflexivity. Qed.

Lemma deliver_cons s states :
  deliver (s :: states)
  = if terminal s then OnConnectionStateChange s
    else (trace (OnConnectionStateChange s) ++ trace (deliver states),
          result_of (deliver states)).
Proof.
  cbn [deliver]. destruct (deliver states) as [t o].
  destruct s; reflexivity.
Qed.

Lemma deliver_quiet pre :
  forallb (fun s => negb (terminal s)) pre = true ->
  exits (trace (deliver pre)) = [] /\ result_of (deliver pre) = Returned tt.
Proof.
  induction pre as [|s pre IH]; intro H; [split; reflexivity|].
  cbn [forallb] in H. apply andb_true_iff in H. destruct H as [Hs Hpre].
  rewrite deliver_cons. destruct (terminal s) eqn:E; [discriminate|].
  destruct (IH Hpre) as [IH1 IH2]. unfold trace, result_of in *; cbn [fst snd].
  rewrite exits_app, IH1.
  destruct (OnConnectionStateChange_exits s) as [H1 _]. rewrite E in H1.
  unfold trace in H1. rewrite H1. split; [reflexivity | exact IH2].
Qed.

Lemma deliver_first_terminal pre s post :
  forallb (fun s => negb (terminal s)) pre = true ->
  terminal s = true ->
  deliver (pre ++ s :: post)
  = (trace (deliver pre) ++ trace (OnConnectionStateChange s), Exited 0%Z).
Proof.
  intros Hpre Hs. induction pre as [|x pre IH].
  - cbn [app]. rewrite deliver_cons, Hs. destruct s; try discriminate; reflexivity.
  - cbn [forallb] in Hpre. apply andb_true_iff in Hpre. destruct Hpre as [Hx Hpre].
    cbn [app]. rewrite !deliver_cons.
    destruct (terminal x); [discriminate|].
    rewrite (IH Hpre). unfold trace, result_of; cbn [fst snd].
    rewrite app_assoc. reflexivity.
Qed.

Lemma existsb_split {A} (f : A -> bool) l :
  existsb f l = true ->
  exists pre x post, l = pre ++ x :: post
                     /\ forallb (fun a => negb (f a)) pre = true /\ f x = true.
Proof.
  induction l as [|a l IH]; [discriminate|]. cbn [existsb].
  destruct (f a) eqn:E.
  - intros _. exists [], a, l. auto.
  - cbn [orb]. intro H. destruct (IH H) as (pre & x & post & -> & Hp & Hx).
    exists (a :: pre), x, post. cbn [forallb]. rewrite E, Hp. auto.
Qed.

Lemma existsb_false_forallb {A} (f : A -> bool) l :
  existsb f l = false -> forallb (fun a => negb (f a)) l = true.
Proof.
  induction l as [|a l IH]; [reflexivity|]. cbn.
  destruct (f a); [discriminate|]. exact IH.
Qed.

(** C5. The state-change handler issues [os.Exit(0)] exactly on [failed] and
    on [closed]; along any sequence of transitions the process issues one
    exit, with status 0, when the sequence holds such a state and none when
    it does not; the exit is issued by the handler call of the first such
    state, after which no transition is handled. *)
Theorem exit_once_on_first_failed_or_closed :
  forall states : list webrtc.PeerConnectionState,
    (forall s, exits (trace (OnConnectionStateChange s))
               = if terminal s then [0%Z] else [])
    /\ exits (trace (deliver states))
       = (if existsb terminal states then [0%Z] else [])
    /\ result_of (deliver states)
       = (if existsb terminal states then Exited 0%Z else Returned tt)
    /\ (forall pre s post,
          states = pre ++ s :: post ->
          forallb (fun s => negb (terminal s)) pre = true ->
          terminal s = true ->
          exits (trace (deliver pre)) = []
          /\ trace (deliver states)
             = trace (deliver pre) ++ trace (OnConnectionStateChange s)
          /\ deliver states = deliver (pre ++ [s])).
Proof.
  intro states. split; [intro s; apply OnConnectionStateChange_exits|].
  assert (Hfirst : forall pre s post,
             states = pre ++ s :: post ->
             forallb (fun s => negb (terminal s)) pre = true ->
             terminal s = true ->
             exits (trace (deliver pre)) = []
             /\ trace (deliver states)
                = trace (deliver pre) ++ trace (OnConnectionStateChange s)
             /\ deliver states = deliver (pre ++ [s])).
  { intros pre s post -> Hpre Hs.
    rewrite !(deliver_first_terminal _ _ _ Hpre Hs).
    split; [apply (deliver_quiet _ Hpre) | split; reflexivity]. }
  destruct (existsb terminal states) eqn:E.
  - destruct (existsb_split _ _ E) as (pre & s & post & Heq & Hpre & Hs).
    destruct (Hfirst pre s post Heq Hpre Hs) as (Hq & Ht & Hd).
    split; [|split; [|exact Hfirst]].
    + rewrite Ht, exits_app, Hq.
      destruct (OnConnectionStateChange_exits s) as [H1 _]. rewrite Hs in H1.
      exact H1.
    + rewrite Heq, (deliver_first_terminal _ _ _ Hpre Hs). reflexivity.
  - destruct (deliver_quiet _ (existsb_false_forallb _ _ E)) as [H1 H2].
    split; [exact H1 | split; [exact H2 | exact Hfirst]].
Qed.

(** The scenario of the specification: new, connecting, connected, failed. *)
Lemma exit_once_on_first_failed_or_closed_witness :
  let states := [webrtc.PeerConnectionStateNew; webrtc.PeerConnectionStateConnecting;
                 webrtc.PeerConnectionStateConnected; webrtc.PeerConnectionStateFailed] in
  exits (trace (deliver states)) = [0%Z]
  /\ exits (trace (deliver [webrtc.PeerConnectionStateNew;
                            webrtc.PeerConnectionStateConnecting;
                            webrtc.PeerConnectionStateConnected])) = [].
Proof.
  intro states.
  destruct (exit_once_on_first_failed_or_closed states) as (_ & He & _ & Hfirst).
  split; [exact He|].
  apply (Hfirst [webrtc.PeerConnectionStateNew; webrtc.PeerConnectionStateConnecting;
                 webrtc.PeerConnectionStateConnected]
                webrtc.PeerConnectionStateFailed [] eq_refl eq_refl eq_refl).
Defined.

(** ** Credential broker *)

Lemma getTurnCredentials_bad_url w err :
  url_Parse w (cloudflareTurnAPI w) = Some err ->
  getTurnCredentials w = ([], Returned (Err err)).
Proof. unfold getTurnCredentials. intros ->. reflexivity. Qed.

Lemma getTurnCredentials_transport_error w err :
  url_Parse w (cloudflareTurnAPI w) = None ->
  client_Do w (turn_request w) = Err err ->
  getTurnCredentials w = ([EvDo (turn_request w)], Returned (Err err)).
Proof. unfold getTurnCredentials. intros -> ->. reflexivity. Qed.

Lemma getTurnCredentials_response w resp :
  url_Parse w (cloudflareTurnAPI w) = None ->
  client_Do w (turn_request w) = Ok resp ->
  getTurnCredentials w =
  ([EvDo (turn_request w); EvBodyClose],
   Returned
     (if negb (http.StatusCode resp =? http.StatusCreated)%N then
        Err (Errorf ("failed to get TURN credentials, status: " ++ http.Status resp))
      else json.Decode (http.Response_Body resp) TurnCredentials_zero)).
Proof.
  unfold getTurnCredentials. intros -> ->. rewrite bind_emit.
  destruct (negb (http.StatusCode resp =? http.StatusCreated)%N); [reflexivity|].
  destruct (json.Decode (http.Response_Body resp) TurnCredentials_zero); reflexivity.
Qed.

(** The fetch always returns to its caller. *)
Lemma getTurnCredentials_returns w :
  exists r, result_of (getTurnCredentials w) = Returned r.
Proof.
  destruct (url_Parse w (cloudflareTurnAPI w)) as [e|] eqn:U.
  - rewrite (getTurnCredentials_bad_url _ U). eexists; reflexivity.
  - destruct (client_Do w (turn_request w)) as [resp|e] eqn:D.
    + rewrite (getTurnCredentials_response _ U D). eexists; reflexivity.
    + rewrite (getTurnCredentials_transport_error _ U D). eexists; reflexivity.
Qed.




(** [main] panics with the error of the fetch before it does anything else. *)
Lemma main_fetch_error fuel w err :
  result_of (getTurnCredentials w) = Returned (Err err) ->
  main fuel w = (trace (getTurnCredentials w), Panicked err).
Proof.
  unfold main. destruct (getTurnCredentials w) as [t o]. cbn. intros ->.
  cbn. rewrite app_nil_r. reflexivity.
Qed.

(** C6. When the issuer answers with a status other than 201, the fetch
    returns an error whose message ends with the status text of the
    response, [main] panics with that error, and no peer connection is
    created in the run. *)
Theorem non_created_status_aborts_before_transport :
  forall (w : World) (resp : http.Response) (fuel : nat),
    url_Parse w (cloudflareTurnAPI w) = None ->
    client_Do w (turn_request w) = Ok resp ->
    http.StatusCode resp <> http.StatusCreated ->
    exists err,
      result_of (getTurnCredentials w) = Returned (Err err)
      /\ Error err
         = ("failed to get TURN credentials, status: " ++ http.Status resp)%string
      /\ contains (Error err) (http.Status resp)
      /\ result_of (main fuel w) = Panicked err
      /\ existsb is_NewPeerConnection (trace (main fuel w)) = false.
Proof.
  intros w resp fuel U D S.
  pose proof (getTurnCredentials_response _ U D) as G.
  apply N.eqb_neq in S. rewrite S in G. cbn [negb] in G.
  eexists. split; [rewrite G; reflexivity|].
  split; [reflexivity|]. split.
  - exists "failed to get TURN credentials, status: "%string, EmptyString.
    cbn [Error]. rewrite string_app_empty_r. reflexivity.
  - rewrite (main_fetch_error fuel w (err := Errorf _)) by (rewrite G; reflexivity).
    rewrite G. split; reflexivity.
Qed.

(** The scenario of the specification: the issuer answers 403. *)
Lemma non_created_status_aborts_before_transport_witness :
  exists err,
    result_of (getTurnCredentials (sample_world response_403 EmptyString))
    = Returned (Err err)
    /\ Error err = "failed to get TURN credentials, status: 403 Forbidden"%string
    /\ contains (Error err) "403 Forbidden"
    /\ result_of (main 1 (sample_world response_403 EmptyString)) = Panicked err
    /\ existsb is_NewPeerConnection
         (trace (main 1 (sample_world response_403 EmptyString))) = false.
Proof.
  apply (@non_created_status_aborts_before_transport
           (sample_world response_403 EmptyString) response_403 1).
  - reflexivity.
  - reflexivity.
  - discriminate.
Defined.

(** C8, as the specification states it, fails: [getTurnCredentials] takes
    no TTL; for a caller that wants 60 seconds the body sent is not
    [{"ttl": 60}]. *)
Lemma request_ttl_counterexample :
  ~ (forall (w : World) (ttl_seconds : N),
       requests (trace (getTurnCredentials w))
       = [spec_request cloudflareAPI (TURN_TOKEN w) (CLOUDFLARE_API_TOKEN w)
            ttl_seconds]).
Proof.
  intro H.
  specialize (H (sample_world response_403 EmptyString) 60%N).
  vm_compute in H. discriminate H.
Qed.

(** C8, amended. When [http.NewRequest] accepts the URL, the fetch sends
    exactly one request: a POST to
    [{cloudflareAPI}/turn/keys/{TURN_TOKEN}/credentials/generate] with the
    headers [Authorization: Bearer {CLOUDFLARE_API_TOKEN}] and
    [Content-Type: application/json] and the body [{"ttl": 86400}], the TTL
    being the constant 86400; when it rejects the URL no request is sent. *)
Theorem one_post_with_fixed_ttl :
  forall w : World,
    (url_Parse w (cloudflareTurnAPI w) = None ->
     requests (trace (getTurnCredentials w))
     = [spec_request cloudflareAPI (TURN_TOKEN w) (CLOUDFLARE_API_TOKEN w) 86400])
    /\ (forall err, url_Parse w (cloudflareTurnAPI w) = Some err ->
                    requests (trace (getTurnCredentials w)) = []).
Proof.
  intro w. split.
  - intro U. destruct (client_Do w (turn_request w)) as [resp|e] eqn:D.
    + rewrite (getTurnCredentials_response _ U D). reflexivity.
    + rewrite (getTurnCredentials_transport_error _ U D). reflexivity.
  - intros err U. rewrite (getTurnCredentials_bad_url _ U). reflexivity.
Qed.

Lemma one_post_with_fixed_ttl_witness :
  requests (trace (getTurnCredentials (sample_world response_403 EmptyString)))
  = [spec_request cloudflareAPI "key" "token" 86400].
Proof.
  apply (one_post_with_fixed_ttl (sample_world response_403 EmptyString)).
  reflexivity.
Defined.

(** ** Session codec *)

(** C2. For every valid session description [d] (a known type, an SDP body
    that is valid UTF-8), [encode] returns a token and [decode] of that
    token returns [d], field for field, whatever the description it is asked
    to fill held before. *)
Theorem decode_encode_roundtrip :
  forall d obj : webrtc.SessionDescription,
    valid_description d ->
    exists token : string,
      encode (Some d) = ret token /\ decode token obj = ret d.
Proof.
  intros d obj [T V].
  destruct (@json_facts.Unmarshal_Marshal d obj T V) as (b & Hm & Hu).
  exists (base64.EncodeToString b). unfold encode, decode.
  rewrite Hm, base64_facts.DecodeString_EncodeToString, Hu. split; reflexivity.
Qed.

Lemma decode_encode_roundtrip_witness :
  exists token : string,
    encode (Some sample_answer) = ret token
    /\ decode token webrtc.zero = ret sample_answer.
Proof.
  apply (@decode_encode_roundtrip sample_answer webrtc.zero).
  split; [discriminate | reflexivity].
Defined.

(** *** What [decode] accepts *)

Lemma SDPType_UnmarshalJSON_ok v :
  (exists t, json.SDPType_UnmarshalJSON v = Ok t)
  <-> decode_spec.type_value_ok v = true.
Proof.
  unfold json.SDPType_UnmarshalJSON, decode_spec.type_value_ok, decode_spec.names_type.
  destruct v; cbn [json.store_string];
    try (split; [intros [t H]; discriminate H | discriminate]).
  destruct (String.eqb (strings.ToLower (string_of_list_byte s)) "offer");
      [split; eauto|].
    destruct (String.eqb (strings.ToLower (string_of_list_byte s)) "pranswer");
      [split; eauto|].
    destruct (String.eqb (strings.ToLower (string_of_list_byte s)) "answer");
      [split; eauto|].
    destruct (String.eqb (strings.ToLower (string_of_list_byte s)) "rollback");
      [split; eauto|].
    split; [intros [t H]; discriminate H | discriminate].
Qed.

Lemma store_string_ok field v old :
  snd (json.store_string field v old) = None
  <-> decode_spec.sdp_value_ok v = true.
Proof. destruct v; cbn; split; congruence. Qed.

Lemma object_SessionDescription_ok ms : forall obj saved,
  (exists obj', json.object_SessionDescription ms obj saved = Ok (obj', None))
  <-> (saved = None /\ forallb decode_spec.member_ok ms = true).
Proof.
  induction ms as [|[key v] ms IH]; intros obj saved.
  - cbn. split.
    + intros [obj' H]. injection H as _ H. auto.
    + intros [-> _]. eauto.
  - cbn [json.object_SessionDescription forallb].
    unfold decode_spec.member_ok at 1. cbn [fst snd].
    destruct (json.lookup_field ["type"; "sdp"]%string key) as [f|].
    2:{ rewrite IH. cbn [andb]. reflexivity. }
    destruct (String.eqb f "type").
    + pose proof (SDPType_UnmarshalJSON_ok v) as HT.
      destruct (json.SDPType_UnmarshalJSON v) as [t|e].
      * rewrite IH. replace (decode_spec.type_value_ok v) with true
          by (symmetry; apply HT; eauto).
        reflexivity.
      * replace (decode_spec.type_value_ok v) with false.
        { split; [intros [o H]; discriminate H | intros [_ H]; discriminate H]. }
        destruct (decode_spec.type_value_ok v); [|reflexivity].
        destruct (proj2 HT eq_refl) as [t H]. discriminate H.
    + pose proof (store_string_ok "sdp" v (webrtc.SDP obj)) as HS.
      destruct (json.store_string "sdp" v (webrtc.SDP obj)) as [s e].
      cbn [snd] in HS. rewrite IH.
      destruct e as [e|].
      * replace (decode_spec.sdp_value_ok v) with false.
        { destruct saved; cbn; split; intros [H1 H2]; discriminate. }
        destruct (decode_spec.sdp_value_ok v); [|reflexivity].
        destruct HS as [_ HS]. discriminate (HS eq_refl).
      * replace (decode_spec.sdp_value_ok v) with true
          by (symmetry; apply HS; reflexivity).
        destruct saved; cbn; reflexivity.
Qed.

Lemma value_SessionDescription_ok v obj :
  (exists obj', json.value_SessionDescription v obj = Ok obj')
  <-> decode_spec.accepts v = true.
Proof.
  destruct v; cbn [json.value_SessionDescription decode_spec.accepts];
    try (split; [intros [o H]; discriminate H | discriminate]).
  - split; eauto.
  - pose proof (object_SessionDescription_ok members obj None) as H.
    destruct (json.object_SessionDescription members obj None) as [[o [e|]]|e].
    + split; [intros [o' H']; discriminate H'|].
      intro A. destruct (proj2 H (conj eq_refl A)) as [o' H']. discriminate H'.
    + split; [intros _|eauto]. apply H. eauto.
    + split; [intros [o' H']; discriminate H'|].
      intro A. destruct (proj2 H (conj eq_refl A)) as [o' H']. discriminate H'.
Qed.

(** [decode] returns or panics. *)
Lemma decode_cases inp obj :
  (exists d, decode inp obj = ret d) \/ (exists e, decode inp obj = panic e).
Proof.
  unfold decode. destruct (base64.DecodeString inp) as [b|e]; [|right; eauto].
  destruct (json.Unmarshal b obj) as [d|e]; [left|right]; eauto.
Qed.

Lemma decode_ok_iff inp obj :
  (exists d, decode inp obj = ret d)
  <-> (base64_spec.valid_base64 inp = true
       /\ exists data v,
            base64.DecodeString inp = Ok data
            /\ json.parse_document data = Some v
            /\ decode_spec.accepts v = true).
Proof.
  unfold decode. rewrite <- base64_valid.DecodeString_ok_iff.
  destruct (base64.DecodeString inp) as [data|e].
  2:{ split; [intros [d H]; discriminate H | intros [[o H] _]; discriminate H]. }
  unfold json.Unmarshal.
  destruct (json.parse_document data) as [v|] eqn:P.
  2:{ split; [intros [d H]; discriminate H|].
      intros [_ (data' & v & H1 & H2 & _)]. injection H1 as <-.
      rewrite P in H2. discriminate H2. }
  pose proof (value_SessionDescription_ok v obj) as HV.
  destruct (json.value_SessionDescription v obj) as [d|e].
  - split; [intros _|eauto]. split; [eauto|].
    exists data, v. repeat split; [exact P|]. apply HV. eauto.
  - split; [intros [d H]; discriminate H|].
    intros [_ (data' & v' & H1 & H2 & H3)]. injection H1 as <-.
    rewrite P in H2. injection H2 as <-.
    destruct (proj2 HV H3) as [o H]. discriminate H.
Qed.

(** *** The run of [main] around [decode] *)

Lemma quiet_ret {A} p (a : A) : quiet p (ret a).
Proof. reflexivity. Qed.

Lemma quiet_panic {A} p e : quiet p (@panic A e).
Proof. reflexivity. Qed.

Lemma quiet_block {A} p : quiet p (@block A).
Proof. reflexivity. Qed.

Lemma quiet_emit p e : p e = false -> quiet p (emit e).
Proof. unfold quiet. cbn. intros ->. reflexivity. Qed.

Lemma quiet_must p err : quiet p (must err).
Proof. destruct err; reflexivity. Qed.

Lemma quiet_bind {A B} p (m : M A) (f : A -> M B) :
  quiet p m ->
  (forall a, result_of m = Returned a -> quiet p (f a)) ->
  quiet p (bind m f).
Proof.
  unfold quiet, trace, result_of. destruct m as [t o]. cbn [fst snd].
  intros Hm Hf. destruct o; cbn [bind fst]; try exact Hm.
  specialize (Hf a eq_refl). destruct (f a) as [t' o']. cbn [fst] in *.
  rewrite existsb_app, Hm, Hf. reflexivity.
Qed.

Lemma quiet_defer {A} p (d : M unit) (body : M A) :
  quiet p d -> quiet p body -> quiet p (defer d body).
Proof.
  unfold quiet, trace. destruct body as [t o], d as [t' o']. cbn [fst].
  intros Hd Hb. destruct o; cbn [defer fst]; try exact Hb;
    rewrite existsb_app, Hb, Hd; reflexivity.
Qed.

Lemma quiet_getTurnCredentials p w :
  (forall r, p (EvDo r) = false) -> p EvBodyClose = false ->
  quiet p (getTurnCredentials w).
Proof.
  intros H1 H2. unfold quiet.
  destruct (url_Parse w (cloudflareTurnAPI w)) as [e|] eqn:U.
  - rewrite (getTurnCredentials_bad_url _ U). reflexivity.
  - destruct (client_Do w (turn_request w)) as [resp|e] eqn:D.
    + rewrite (getTurnCredentials_response _ U D). cbn. rewrite H1, H2. reflexivity.
    + rewrite (getTurnCredentials_transport_error _ U D). cbn. rewrite H1. reflexivity.
Qed.

Lemma quiet_readUntilNewline_loop p fuel : forall r,
  quiet p (readUntilNewline_loop fuel r).
Proof.
  induction fuel as [|fuel IH]; intro r; [reflexivity|].
  cbn [readUntilNewline_loop].
  destruct (bufio.ReadString r x0a) as [[inp err] r'].
  assert (H : quiet p (let inp0 := strings.TrimSpace inp in
                       if (0 <? String.length inp0)%nat then ret inp0
                       else readUntilNewline_loop fuel r')).
  { cbv zeta. destruct (0 <? String.length (strings.TrimSpace inp))%nat;
      [reflexivity | apply IH]. }
  destruct err as [e|]; [|exact H].
  destruct (negb (is_EOF e)); [reflexivity | exact H].
Qed.

Lemma quiet_readUntilNewline p fuel r :
  (forall s, p (EvPrint s) = false) -> quiet p (readUntilNewline fuel r).
Proof.
  intro H. unfold readUntilNewline.
  apply quiet_bind; [apply quiet_readUntilNewline_loop|]. intros inp _.
  apply quiet_bind; [apply quiet_emit, H|]. intros _ _. apply quiet_ret.
Qed.

(** When [decode] panics on the offer, no remote description is set. *)
Lemma main_decode_failure fuel w inp e :
  result_of (readUntilNewline fuel (stdin w)) = Returned inp ->
  decode inp webrtc.zero = panic e ->
  quiet is_SetRemoteDescription (main fuel w).
Proof.
  intros HR HD. unfold main.
  apply quiet_bind; [apply quiet_getTurnCredentials; reflexivity|].
  intros [turnCredentials|err] _; [|apply quiet_panic].
  repeat (apply quiet_bind;
          [first [apply quiet_emit; reflexivity | apply quiet_must]|];
          intros ? _).
  apply quiet_defer.
  { apply quiet_bind; [apply quiet_emit; reflexivity|]. intros _ _.
    destruct (Close w); [apply quiet_emit; reflexivity | apply quiet_ret]. }
  repeat (apply quiet_bind;
          [first [apply quiet_emit; reflexivity | apply quiet_must]|];
          intros ? _).
  apply quiet_bind; [apply quiet_readUntilNewline; reflexivity|].
  intros inp' HR'. rewrite HR in HR'. injection HR' as <-.
  rewrite HD. reflexivity.
Qed.

(** C7, as the specification states it, fails: the token [bnVsbA==] is valid
    base64 for the JSON text [null], which is no session description, and
    [decode] returns on it, leaving the description as it was. *)
Lemma decode_null_counterexample :
  ~ (forall (token : string) (obj : webrtc.SessionDescription),
       (base64_spec.valid_base64 token = false
        \/ exists data, base64.DecodeString token = Ok data
                        /\ decode_spec.session_shaped data = false) ->
       exists e, result_of (decode token obj) = Panicked e).
Proof.
  intro H.
  destruct (H "bnVsbA=="%string webrtc.zero) as [e He].
  - right. exists (bytes "null"). split; reflexivity.
  - discriminate He.
Qed.

(** C7, amended. [decode] fails, with a panic, exactly when the token is not
    valid base64, or the decoded bytes are not a JSON text, or the JSON value
    is neither [null] nor an object whose members selecting [type] are
    strings naming an SDP type and whose members selecting [sdp] are strings
    or [null]; the token [not-base64!!] fails; and when [decode] fails on the
    line read from the console, [main] sets no remote description. *)
Theorem decode_fails_exactly_on_rejected_input :
  forall (token : string) (obj : webrtc.SessionDescription),
    ((exists e, decode token obj = panic e)
     <-> ~ (base64_spec.valid_base64 token = true
            /\ exists data v,
                 base64.DecodeString token = Ok data
                 /\ json.parse_document data = Some v
                 /\ decode_spec.accepts v = true))
    /\ (exists e, decode "not-base64!!" obj = panic e)
    /\ (forall fuel w e,
          result_of (readUntilNewline fuel (stdin w)) = Returned token ->
          decode token webrtc.zero = panic e ->
          existsb is_SetRemoteDescription (trace (main fuel w)) = false).
Proof.
  intros token obj. split; [|split].
  - rewrite <- decode_ok_iff. split.
    + intros [e He] [d Hd]. rewrite He in Hd. discriminate Hd.
    + intro N. destruct (decode_cases token obj) as [H|H]; [contradiction | exact H].
  - exists (CorruptInputError 3). reflexivity.
  - intros fuel w e HR HD. exact (main_decode_failure _ _ HR HD).
Qed.

(** The scenario of the specification: the operator pastes [not-base64!!]. *)
Lemma decode_fails_exactly_on_rejected_input_witness :
  existsb is_SetRemoteDescription
    (trace (main 1 (sample_world response_created "not-base64!!"))) = false.
Proof.
  destruct (decode_fails_exactly_on_rejected_input "not-base64!!" webrtc.zero)
    as (_ & _ & H).
  apply (H 1%nat (sample_world response_created "not-base64!!")
           (CorruptInputError 3)); reflexivity.
Defined.

(** ** Reading the offer *)

Module console_facts.
Import strings_spec.

Lemma lines_from_nonempty cur s : lines_from cur s <> [].
Proof.
  revert cur. induction s as [|c s IH]; intro cur; cbn [lines_from].
  - discriminate.
  - destruct (Byte.eqb c x0a); [discriminate | apply IH].
Qed.

(** [ReadString] takes the first of the lines. *)
Lemma lines_from_split s : forall cur,
  match bufio.split_line x0a s with
  | (l, Some rest) => lines_from cur s = (cur ++ l) :: lines_from [] rest
  | (l, None) => lines_from cur s = [cur ++ l]
  end.
Proof.
  induction s as [|c s IH]; intro cur; cbn [bufio.split_line lines_from].
  - rewrite app_nil_r. reflexivity.
  - destruct (Byte.eqb c x0a); [reflexivity|].
    specialize (IH (cur ++ [c])). destruct (bufio.split_line x0a s) as [l [rest|]];
      rewrite <- app_assoc in IH; exact IH.
Qed.

Lemma length_string_of_list_byte l :
  String.length (string_of_list_byte l) = List.length l.
Proof.
  unfold string_of_list_byte. induction l as [|a l IH]; cbn; [reflexivity|].
  rewrite IH. reflexivity.
Qed.

Lemma TrimSpace_has_text (l : list byte) :
  (0 <? String.length (strings.TrimSpace (string_of_list_byte l)))%nat = has_text l.
Proof.
  unfold strings.TrimSpace, bytes. rewrite list_byte_of_string_of_list_byte.
  rewrite length_string_of_list_byte.
  destruct (strings_facts.TrimSpace_start_spec l) as [[H1 H2] _].
  destruct (strings.TrimSpace_start l) as [|c t].
  - rewrite (H1 eq_refl). reflexivity.
  - destruct (has_text l); [reflexivity|]. discriminate (H2 eq_refl).
Qed.

(** One round of the loop. *)
Lemma readUntilNewline_loop_step fuel r :
  readUntilNewline_loop (S fuel) r
  = match bufio.split_line x0a (bufio.unread r) with
    | (l, Some rest) =>
        if has_text l then ret (strings.TrimSpace (string_of_list_byte l))
        else readUntilNewline_loop fuel
               {| bufio.unread := rest; bufio.at_end := bufio.at_end r |}
    | (l, None) =>
        if negb (is_EOF (bufio.at_end r)) then panic (bufio.at_end r)
        else if has_text l then ret (strings.TrimSpace (string_of_list_byte l))
        else readUntilNewline_loop fuel
               {| bufio.unread := []; bufio.at_end := bufio.at_end r |}
    end.
Proof.
  cbn [readUntilNewline_loop]. unfold bufio.ReadString.
  destruct (bufio.split_line x0a (bufio.unread r)) as [l [rest|]];
    rewrite TrimSpace_has_text; reflexivity.
Qed.

Lemma yielded_step r :
  match bufio.split_line x0a (bufio.unread r) with
  | (l, Some rest) =>
      yielded r
      = l :: yielded {| bufio.unread := rest; bufio.at_end := bufio.at_end r |}
  | (l, None) =>
      yielded r = if is_EOF (bufio.at_end r) then [l] else []
  end.
Proof.
  unfold yielded, lines. cbn [bufio.unread bufio.at_end].
  pose proof (lines_from_split (bufio.unread r) []) as H.
  destruct (bufio.split_line x0a (bufio.unread r)) as [l [rest|]];
    cbn [app] in H; rewrite H.
  - destruct (is_EOF (bufio.at_end r)); [reflexivity|].
    cbn [removelast].
    destruct (lines_from [] rest) eqn:E; [|reflexivity].
    exfalso. exact (lines_from_nonempty _ _ E).
  - destruct (is_EOF (bufio.at_end r)); reflexivity.
Qed.

Lemma yielded_at_end e :
  yielded {| bufio.unread := []; bufio.at_end := e |}
  = if is_EOF e then [[]] else [].
Proof. unfold yielded. cbn. destruct (is_EOF e); reflexivity. Qed.

(** The loop emits nothing. *)
Lemma readUntilNewline_loop_trace fuel : forall r,
  trace (readUntilNewline_loop fuel r) = [].
Proof.
  induction fuel as [|fuel IH]; intro r; [reflexivity|].
  rewrite readUntilNewline_loop_step.
  destruct (bufio.split_line x0a (bufio.unread r)) as [l [rest|]].
  - destruct (has_text l); [reflexivity | apply IH].
  - destruct (negb (is_EOF (bufio.at_end r))); [reflexivity|].
    destruct (has_text l); [reflexivity | apply IH].
Qed.

(** What the loop returns is the trimmed first line that has text. *)
Lemma readUntilNewline_loop_returns fuel : forall r s,
  result_of (readUntilNewline_loop fuel r) = Returned s ->
  exists l, first_text (yielded r) = Some l
            /\ s = strings.TrimSpace (string_of_list_byte l).
Proof.
  induction fuel as [|fuel IH]; intros r s H; [discriminate H|].
  rewrite readUntilNewline_loop_step in H.
  pose proof (yielded_step r) as Y.
  destruct (bufio.split_line x0a (bufio.unread r)) as [l [rest|]].
  - rewrite Y. unfold first_text. cbn [find].
    destruct (has_text l) eqn:T.
    + injection H as <-. eauto.
    + apply IH. exact H.
  - destruct (is_EOF (bufio.at_end r)) eqn:E; cbn [negb] in H; [|discriminate H].
    rewrite Y. unfold first_text. cbn [find].
    destruct (has_text l) eqn:T.
    + injection H as <-. eauto.
    + destruct (IH _ _ H) as (l' & F & _). rewrite yielded_at_end, E in F.
      discriminate F.
Qed.

Lemma split_line_rest_length : forall s l rest,
  bufio.split_line x0a s = (l, Some rest) ->
  (List.length rest < List.length s)%nat.
Proof.
  induction s as [|a s IH]; intros l rest H; [discriminate H|].
  cbn [bufio.split_line] in H. destruct (Byte.eqb a x0a).
  - injection H as _ <-. cbn [List.length]. lia.
  - destruct (bufio.split_line x0a s) as [l' [rest'|]]; [|discriminate H].
    injection H as _ <-. specialize (IH l' rest' eq_refl).
    cbn [List.length]. lia.
Qed.

(** With a line that has text among those yielded, the loop returns once
    its fuel covers the lines. *)
Lemma readUntilNewline_loop_finds : forall n r,
  (List.length (bufio.unread r) <= n)%nat ->
  existsb has_text (yielded r) = true ->
  exists s, result_of (readUntilNewline_loop (S n) r) = Returned s.
Proof.
  induction n as [|n IH]; intros r Hn Hex;
    rewrite readUntilNewline_loop_step;
    pose proof (yielded_step r) as Y;
    destruct (bufio.unread r) as [|c u] eqn:U.
  - cbn [bufio.split_line] in *. rewrite Y in Hex.
    destruct (is_EOF (bufio.at_end r)); cbn in Hex; discriminate Hex.
  - cbn in Hn. lia.
  - cbn [bufio.split_line] in *. rewrite Y in Hex.
    destruct (is_EOF (bufio.at_end r)); cbn in Hex; discriminate Hex.
  - assert (Hlen : forall l rest, bufio.split_line x0a (c :: u) = (l, Some rest) ->
                     (List.length rest <= n)%nat).
    { intros l rest H. apply split_line_rest_length in H. lia. }
    destruct (bufio.split_line x0a (c :: u)) as [l [rest|]].
    + rewrite Y in Hex. cbn [existsb] in Hex.
      destruct (has_text l); [eexists; reflexivity|]. cbn [orb] in Hex.
      apply IH; [|exact Hex]. cbn [bufio.unread]. exact (Hlen l rest eq_refl).
    + rewrite Y in Hex.
      destruct (is_EOF (bufio.at_end r)); cbn [negb]; [|discriminate Hex].
      cbn in Hex. rewrite orb_false_r in Hex. rewrite Hex. eexists; reflexivity.
Qed.

(** Without such a line and at the end of the file, the loop goes on for
    ever. *)
Lemma readUntilNewline_loop_spins fuel : forall r,
  is_EOF (bufio.at_end r) = true ->
  existsb has_text (yielded r) = false ->
  readUntilNewline_loop fuel r = ([], Spinning).
Proof.
  induction fuel as [|fuel IH]; intros r E Hno; [reflexivity|].
  rewrite readUntilNewline_loop_step.
  pose proof (yielded_step r) as Y.
  destruct (bufio.split_line x0a (bufio.unread r)) as [l [rest|]];
    rewrite Y in Hno.
  - cbn [existsb] in Hno. apply orb_false_iff in Hno. destruct Hno as [T Hno].
    rewrite T. apply IH; [exact E | exact Hno].
  - rewrite E in Hno |- *. cbn in Hno. rewrite orb_false_r in Hno.
    rewrite Hno. cbn [negb]. apply IH; [exact E|].
    rewrite yielded_at_end. cbn [bufio.at_end]. rewrite E. reflexivity.
Qed.

(** [readUntilNewline] is its loop followed by an empty line on the
    standard output. *)
Lemma readUntilNewline_result fuel r s :
  result_of (readUntilNewline fuel r) = Returned s
  <-> result_of (readUntilNewline_loop fuel r) = Returned s.
Proof.
  unfold readUntilNewline.
  destruct (readUntilNewline_loop fuel r) as [t [a|e|c| |]]; cbn;
    split; intro H; try discriminate H; exact H.
Qed.

Lemma TrimSpace_trimmed l :
  has_text l = true ->
  strings.TrimSpace (string_of_list_byte l) <> EmptyString
  /\ trimmed (bytes (strings.TrimSpace (string_of_list_byte l))).
Proof.
  intro T. unfold strings.TrimSpace, bytes.
  rewrite !list_byte_of_string_of_list_byte.
  destruct (strings_facts.TrimSpace_start_spec l) as [[H1 _] H2].
  assert (N : strings.TrimSpace_start l <> []).
  { intro E. rewrite (H1 E) in T. discriminate T. }
  split; [|exact (H2 N)].
  intro E. apply N.
  rewrite <- (list_byte_of_string_of_list_byte (strings.TrimSpace_start l)), E.
  reflexivity.
Qed.

Lemma first_text_has_text ls l :
  first_text ls = Some l -> has_text l = true /\ existsb has_text ls = true.
Proof.
  unfold first_text. intro F. destruct (find_some _ _ F) as [I T].
  split; [exact T|]. apply existsb_exists. exists l. split; assumption.
Qed.

End console_facts.

(** C10. [readUntilNewline] returns only the first of the lines its input
    yields that holds a character other than white space, trimmed of its
    white space and so not empty; it returns, given rounds enough, exactly
    when the input yields such a line; and on an input that ends with the
    end of the file and yields no such line it neither returns nor fails nor
    prints, however many rounds it is given. *)
Theorem readUntilNewline_returns_exactly_on_text (r : bufio.Reader) :
  (forall fuel s,
      result_of (readUntilNewline fuel r) = Returned s ->
      s <> EmptyString
      /\ strings_spec.trimmed (bytes s)
      /\ exists l, strings_spec.first_text (strings_spec.yielded r) = Some l
                   /\ s = strings.TrimSpace (string_of_list_byte l))
  /\ ((exists fuel s, result_of (readUntilNewline fuel r) = Returned s)
      <-> existsb strings_spec.has_text (strings_spec.yielded r) = true)
  /\ (is_EOF (bufio.at_end r) = true ->
      existsb strings_spec.has_text (strings_spec.yielded r) = false ->
      forall fuel, readUntilNewline fuel r = ([], Spinning)).
Proof.
  assert (R : forall fuel s,
             result_of (readUntilNewline fuel r) = Returned s ->
             exists l, strings_spec.first_text (strings_spec.yielded r) = Some l
                       /\ s = strings.TrimSpace (string_of_list_byte l)).
  { intros fuel s H. apply console_facts.readUntilNewline_result in H.
    exact (@console_facts.readUntilNewline_loop_returns _ _ _ H). }
  split; [|split].
  - intros fuel s H. destruct (R fuel s H) as (l & F & ->).
    destruct (@console_facts.first_text_has_text _ _ F) as [T _].
    destruct (@console_facts.TrimSpace_trimmed _ T) as [N Tr].
    split; [exact N|]. split; [exact Tr|]. exists l. split; [exact F | reflexivity].
  - split.
    + intros (fuel & s & H). destruct (R fuel s H) as (l & F & _).
      exact (proj2 (@console_facts.first_text_has_text _ _ F)).
    + intro Hex.
      destruct (@console_facts.readUntilNewline_loop_finds
                  (List.length (bufio.unread r)) r (le_n _) Hex) as [s H].
      exists (S (List.length (bufio.unread r))), s.
      apply console_facts.readUntilNewline_result. exact H.
  - intros E Hno fuel. unfold readUntilNewline.
    rewrite (@console_facts.readUntilNewline_loop_spins fuel r E Hno).
    reflexivity.
Qed.

(** On the sample console the string returned is the third line without the
    white space around it, and on the blank console a thousand rounds pass in
    silence. *)
Lemma readUntilNewline_returns_exactly_on_text_witness :
  (result_of (readUntilNewline 3 sample_console) = Returned "ab c"%string
   /\ "ab c"%string <> EmptyString
   /\ strings_spec.trimmed (bytes "ab c"))
  /\ readUntilNewline 1000 blank_console = ([], Spinning).
Proof.
  split.
  - assert (H : result_of (readUntilNewline 3 sample_console)
                = Returned "ab c"%string) by (vm_compute; reflexivity).
    split; [exact H|].
    destruct (proj1 (readUntilNewline_returns_exactly_on_text sample_console)
                3%nat "ab c"%string H) as (N & T & _).
    split; [exact N | exact T].
  - apply (proj2 (proj2 (readUntilNewline_returns_exactly_on_text blank_console))).
    + reflexivity.
    + vm_compute. reflexivity.
Defined.

(** ** Further properties of the media pipeline and of the lifecycle *)

Lemma printed_app t1 t2 : printed (t1 ++ t2) = printed t1 ++ printed t2.
Proof. apply flat_map_app. Qed.

Lemma printed_print s t : printed (EvPrint s :: t) = s :: printed t.
Proof. reflexivity. Qed.

Lemma count_app p t1 t2 : count p (t1 ++ t2) = (count p t1 + count p t2)%nat.
Proof. unfold count. rewrite filter_app, length_app. reflexivity. Qed.

(** The loop up to the first write that fails. *)
Lemma relay_loop_write_failure outputTrack pkts p e rest : forall n,
  (forall i q, nth_error pkts i = Some q -> outputTrack (n + i)%nat q = None) ->
  outputTrack (n + List.length pkts)%nat p = Some e ->
  relay_loop (map Ok pkts ++ Ok p :: rest) outputTrack n
  = (relayed (pkts ++ [p]), Panicked e).
Proof.
  induction pkts as [|q pkts IH]; intros n Hw He.
  - cbn [map app List.length] in *. rewrite Nat.add_0_r in He.
    rewrite relay_loop_ok, He. reflexivity.
  - cbn [map app]. rewrite relay_loop_ok.
    assert (H0 : outputTrack n q = None)
      by (rewrite <- (Nat.add_0_r n); apply Hw; reflexivity).
    rewrite H0, (IH (S n)).
    + reflexivity.
    + intros i q' Hi. replace (S n + i)%nat with (n + S i)%nat by lia.
      apply Hw. exact Hi.
    + replace (S n + List.length pkts)%nat with (n + List.length (q :: pkts))%nat
        by (cbn [List.length]; lia).
      exact He.
Qed.

(** The loop never returns and prints nothing. *)
Lemma relay_loop_stuck outputTrack reads : forall n,
  stuck (relay_loop reads outputTrack n)
  /\ printed (trace (relay_loop reads outputTrack n)) = []
  /\ exits (trace (relay_loop reads outputTrack n)) = [].
Proof.
  induction reads as [|r reads IH]; intro n.
  - repeat split.
  - destruct r as [p|e]; [|repeat split].
    rewrite relay_loop_ok. destruct (outputTrack n p); [repeat split|].
    destruct (IH (S n)) as ([R X] & P & E).
    unfold stuck, returns, exited, result_of, trace in *. cbn [fst snd].
    repeat split; assumption.
Qed.

(** X1. When the writes of the first [k] packets succeed and the write of
    the next one fails, the callback has read and written exactly those
    [k + 1] packets, in order, and ends in a panic with the write error;
    nothing is read after the failed write. *)
Theorem relay_write_failure_is_fatal :
  forall (outputTrack : TrackLocal) (pt : N) (mime : string)
         (pkts : list rtp.Packet) (p : rtp.Packet) (e : error)
         (rest : list (result rtp.Packet)),
    (forall i q, nth_error pkts i = Some q -> outputTrack i q = None) ->
    outputTrack (List.length pkts) p = Some e ->
    let track := {| track_PayloadType := pt; track_MimeType := mime;
                    reads := map Ok pkts ++ Ok p :: rest |} in
    let m := OnTrack outputTrack track in
    result_of m = Panicked e
    /\ trace m = EvPrint (announcement track) :: relayed (pkts ++ [p])
    /\ written (trace m) = pkts ++ [p]
    /\ read_ok (trace m) = pkts ++ [p].
Proof.
  intros outputTrack pt mime pkts p e rest Hw He track m.
  assert (E : m = (EvPrint (announcement track) :: relayed (pkts ++ [p]),
                   Panicked e)).
  { subst m. unfold OnTrack, Print. rewrite bind_emit. cbn [reads track].
    rewrite (@relay_loop_write_failure outputTrack pkts p e rest 0%nat Hw He).
    reflexivity. }
  rewrite E. unfold result_of, trace. cbn [fst snd].
  repeat split.
  - change (written (EvPrint (announcement track) :: relayed (pkts ++ [p])))
      with (written (relayed (pkts ++ [p]))).
    apply written_relayed.
  - change (read_ok (EvPrint (announcement track) :: relayed (pkts ++ [p])))
      with (read_ok (relayed (pkts ++ [p]))).
    apply read_ok_relayed.
Qed.

Lemma relay_write_failure_is_fatal_witness :
  let out : TrackLocal :=
    fun n _ => if (n <? 2)%nat then None else Some (External "io: closed pipe") in
  let track := {| track_PayloadType := 96; track_MimeType := "video/VP8";
                  reads := map Ok [pkt 1 "a"; pkt 2 "b"]
                             ++ Ok (pkt 3 "c") :: [Ok (pkt 4 "d")] |} in
  result_of (OnTrack out track) = Panicked (External "io: closed pipe")
  /\ trace (OnTrack out track)
     = EvPrint (announcement track)
         :: relayed ([pkt 1 "a"; pkt 2 "b"] ++ [pkt 3 "c"])
  /\ written (trace (OnTrack out track))
     = [pkt 1 "a"; pkt 2 "b"] ++ [pkt 3 "c"]
  /\ read_ok (trace (OnTrack out track))
     = [pkt 1 "a"; pkt 2 "b"] ++ [pkt 3 "c"].
Proof.
  intros out track.
  apply (@relay_write_failure_is_fatal out 96 "video/VP8"
           [pkt 1 "a"; pkt 2 "b"] (pkt 3 "c") (External "io: closed pipe")
           [Ok (pkt 4 "d")]).
  - intros [|[|i]] q H; [reflexivity | reflexivity |].
    destruct i; discriminate H.
  - reflexivity.
Defined.

(** X2. The [OnTrack] callback never returns and never exits the process:
    it ends in a panic or waits for the next packet.  The first thing it
    does is print the line that announces the track, and it prints nothing
    else. *)
Theorem OnTrack_announces_and_never_returns :
  forall (outputTrack : TrackLocal) (track : TrackRemote),
    let m := OnTrack outputTrack track in
    stuck m
    /\ hd_error (trace m) = Some (EvPrint (announcement track))
    /\ printed (trace m) = [announcement track]
    /\ exits (trace m) = [].
Proof.
  intros outputTrack track m. subst m. unfold OnTrack, Print.
  rewrite bind_emit.
  destruct (relay_loop_stuck outputTrack (reads track) 0) as ([R X] & P & E).
  unfold stuck, returns, exited, result_of, trace in *. cbn [fst snd].
  repeat split; try assumption; try reflexivity.
  - rewrite printed_print, P. reflexivity.
Qed.

(** The lines of one call of the handler. *)
Lemma OnConnectionStateChange_printed s :
  printed (trace (OnConnectionStateChange s))
  = changed_line s :: (if terminal s then [exiting_line s] else []).
Proof. destruct s; reflexivity. Qed.

(** X3. The log of the state-change handler: for every sequence of state
    changes it prints one line per state, naming the state, in the order of
    the changes, up to and with the first [failed] or [closed] state, for
    which a second line says that the process exits; nothing is printed for
    the states after it. *)
Theorem state_changes_are_logged_until_exit :
  forall states : list webrtc.PeerConnectionState,
    (existsb terminal states = false ->
     printed (trace (deliver states)) = map changed_line states)
    /\ (forall pre s post,
          states = pre ++ s :: post ->
          existsb terminal pre = false ->
          terminal s = true ->
          printed (trace (deliver states))
          = map changed_line pre ++ [changed_line s; exiting_line s]).
Proof.
  assert (Q : forall pre, existsb terminal pre = false ->
                printed (trace (deliver pre)) = map changed_line pre
                /\ result_of (deliver pre) = Returned tt).
  { induction pre as [|s pre IH]; intro H; [split; reflexivity|].
    cbn [existsb] in H. apply orb_false_iff in H. destruct H as [Hs Hpre].
    destruct (IH Hpre) as [IHp IHr].
    cbn [deliver map].
    assert (R : result_of (OnConnectionStateChange s) = Returned tt)
      by (destruct s; first [discriminate Hs | reflexivity]).
    rewrite (trace_bind _ _ R), printed_app, OnConnectionStateChange_printed.
    rewrite Hs, IHp. split; [reflexivity|].
    destruct (OnConnectionStateChange s) as [t o]. cbn in R. subst o.
    cbn [bind]. destruct (deliver pre). exact IHr. }
  intro states. split.
  - intro H. apply Q. exact H.
  - intros pre s post -> Hpre Hs.
    assert (F : forallb (fun s => negb (terminal s)) pre = true).
    { clear -Hpre. induction pre as [|a pre IH]; [reflexivity|].
      cbn in *. apply orb_false_iff in Hpre. destruct Hpre as [-> H].
      cbn. apply IH. exact H. }
    rewrite (deliver_first_terminal _ _ _ F Hs).
    unfold trace at 1. cbn [fst]. rewrite printed_app.
    destruct (Q pre Hpre) as [-> _].
    rewrite OnConnectionStateChange_printed, Hs. reflexivity.
Qed.

Lemma state_changes_are_logged_until_exit_witness :
  printed (trace (deliver [webrtc.PeerConnectionStateConnecting;
                           webrtc.PeerConnectionStateConnected;
                           webrtc.PeerConnectionStateFailed;
                           webrtc.PeerConnectionStateClosed]))
  = map changed_line [webrtc.PeerConnectionStateConnecting;
                      webrtc.PeerConnectionStateConnected]
      ++ [changed_line webrtc.PeerConnectionStateFailed;
          exiting_line webrtc.PeerConnectionStateFailed].
Proof.
  apply (proj2 (state_changes_are_logged_until_exit _)
           [webrtc.PeerConnectionStateConnecting;
            webrtc.PeerConnectionStateConnected]
           webrtc.PeerConnectionStateFailed
           [webrtc.PeerConnectionStateClosed]); reflexivity.
Defined.

(** ** Further properties of the credential broker and of [main] *)

Lemma existsb_false_filter {A} (p : A -> bool) l :
  existsb p l = false -> filter p l = [].
Proof.
  induction l as [|a l IH]; [reflexivity|]. cbn. intro H.
  apply orb_false_iff in H. destruct H as [-> H]. apply IH. exact H.
Qed.

Lemma quiet_count {A} p (m : M A) : quiet p m -> count p (trace m) = 0%nat.
Proof. unfold quiet, count. intro H. rewrite (existsb_false_filter _ _ H). reflexivity. Qed.

Lemma quiet_exits {A} (m : M A) : quiet is_Exit m -> exits (trace m) = [].
Proof.
  unfold quiet. induction (trace m) as [|e t IH]; [reflexivity|].
  cbn [existsb]. intro H. apply orb_false_iff in H. destruct H as [He H].
  destruct e; try discriminate He; cbn; apply IH; exact H.
Qed.

Lemma quiet_peer_configs {A} (m : M A) :
  quiet is_NewPeerConnection m -> peer_configs (trace m) = [].
Proof.
  unfold quiet. induction (trace m) as [|e t IH]; [reflexivity|].
  cbn [existsb]. intro H. apply orb_false_iff in H. destruct H as [He H].
  destruct e; try discriminate He; cbn; apply IH; exact H.
Qed.

Lemma peer_configs_app t1 t2 :
  peer_configs (t1 ++ t2) = peer_configs t1 ++ peer_configs t2.
Proof. apply flat_map_app. Qed.

(** X4. The credential fetch always returns to its caller, with a value or
    with an error: it never panics and never exits.  It closes the body of
    the response exactly once when [client.Do] gave a response, whatever the
    status and whether or not the body decodes, and never otherwise; it does
    nothing else than send the request and close the body. *)
Theorem credential_fetch_closes_the_body_once :
  forall w : World,
    returns (getTurnCredentials w) = true
    /\ count is_BodyClose (trace (getTurnCredentials w))
       = match url_Parse w (cloudflareTurnAPI w), client_Do w (turn_request w) with
         | None, Ok _ => 1%nat
         | _, _ => 0%nat
         end
    /\ (count is_BodyClose (trace (getTurnCredentials w))
        <= count is_Do (trace (getTurnCredentials w)))%nat
    /\ forallb (fun e => is_Do e || is_BodyClose e)
         (trace (getTurnCredentials w)) = true.
Proof.
  intro w.
  destruct (url_Parse w (cloudflareTurnAPI w)) as [e|] eqn:U.
  - rewrite (getTurnCredentials_bad_url _ U). repeat split. cbn. lia.
  - destruct (client_Do w (turn_request w)) as [resp|e] eqn:D.
    + rewrite (getTurnCredentials_response _ U D). repeat split. cbn. lia.
    + rewrite (getTurnCredentials_transport_error _ U D). repeat split. cbn. lia.
Qed.

(** X5. Whatever makes the credential fetch return an error (a URL that
    [http.NewRequest] rejects, a failure of the transport, a status other
    than 201, a body that does not decode), [main] panics with that very
    error and has done nothing but what the fetch did: no call of the
    transport library, no read of the console, no print. *)
Theorem credential_error_aborts_main :
  forall (fuel : nat) (w : World) (err : error),
    result_of (getTurnCredentials w) = Returned (Err err) ->
    main fuel w = (trace (getTurnCredentials w), Panicked err)
    /\ forallb (fun e => is_Do e || is_BodyClose e) (trace (main fuel w)) = true
    /\ printed (trace (main fuel w)) = []
    /\ peer_configs (trace (main fuel w)) = [].
Proof.
  intros fuel w err H. rewrite (main_fetch_error fuel w H).
  unfold trace at 2 3 4. cbn [fst].
  split; [reflexivity|].
  destruct (url_Parse w (cloudflareTurnAPI w)) as [e|] eqn:U.
  - rewrite (getTurnCredentials_bad_url _ U). repeat split.
  - destruct (client_Do w (turn_request w)) as [resp|e] eqn:D.
    + rewrite (getTurnCredentials_response _ U D). repeat split.
    + rewrite (getTurnCredentials_transport_error _ U D). repeat split.
Qed.

Lemma credential_error_aborts_main_witness :
  main 1 offline_world
  = (trace (getTurnCredentials offline_world),
     Panicked (External "dial tcp: connection refused"))
  /\ forallb (fun e => is_Do e || is_BodyClose e) (trace (main 1 offline_world)) = true
  /\ printed (trace (main 1 offline_world)) = []
  /\ peer_configs (trace (main 1 offline_world)) = [].
Proof.
  apply (@credential_error_aborts_main 1 offline_world
           (External "dial tcp: connection refused")).
  reflexivity.
Defined.

(** *** The run of [main] in two parts *)

Lemma bind_returned {A B} t (a : A) (f : A -> M B) :
  bind (t, Returned a) f = (t ++ fst (f a), snd (f a)).
Proof. cbn. destruct (f a); reflexivity. Qed.

Lemma bind_ret {A B} (a : A) (f : A -> M B) : bind (ret a) f = f a.
Proof. unfold ret. cbn. destruct (f a); reflexivity. Qed.

Lemma bind_must_None {B} (k : M B) : (must None ;;; k) = k.
Proof. unfold must, ret. rewrite bind_returned. destruct k; reflexivity. Qed.

(** Up to the creation of the peer connection. *)
Lemma main_sets_up fuel w c :
  sets_up w c ->
  main fuel w
  = match NewPeerConnection w (ice_config c) with
    | Some e => (connecting_events w c, Panicked e)
    | None =>
        (connecting_events w c ++ trace (defer (closing w) (session_body fuel w)),
         result_of (defer (closing w) (session_body fuel w)))
    end.
Proof.
  intros (G & H1 & H2 & H3). unfold main, connecting_events.
  destruct (getTurnCredentials w) as [tc oc]. unfold result_of in G.
  cbn [snd] in G. subst oc. rewrite bind_returned. cbv beta iota zeta.
  rewrite H1, H2, H3.
  change {| webrtc.ICEServers :=
              [{| webrtc.ICEServer_URLs := URLs (ICECredentials c);
                  webrtc.ICEServer_Username := Username (ICECredentials c);
                  webrtc.ICEServer_Credential := Credential (ICECredentials c) |}] |}
    with (ice_config c).
  set (S := defer _ _).
  assert (ES : S = defer (closing w) (session_body fuel w)) by reflexivity.
  clearbody S. subst S.
  rewrite ?bind_emit, ?bind_must_None. cbn [fst snd].
  rewrite ?bind_emit. cbn [fst snd].
  destruct (NewPeerConnection w (ice_config c)) as [e|].
  - reflexivity.
  - rewrite ?bind_must_None. unfold trace, result_of. cbn [fst snd].
    rewrite <- app_assoc. reflexivity.
Qed.

Lemma closing_eq w : closing w = (closing_events w, Returned tt).
Proof. unfold closing, closing_events, Print. destruct (Close w); reflexivity. Qed.

(** *** Computations that neither return nor exit *)

Lemma stuck_panic {A} e : stuck (@panic A e).
Proof. split; reflexivity. Qed.

Lemma stuck_block {A} : stuck (@block A).
Proof. split; reflexivity. Qed.

Lemma stuck_bind {A B} (m : M A) (f : A -> M B) :
  exited m = false ->
  (forall a, result_of m = Returned a -> stuck (f a)) ->
  stuck (bind m f).
Proof.
  unfold stuck, returns, exited, result_of. destruct m as [t o]. cbn [snd].
  intros X H. destruct o; cbn [bind snd]; try (split; [reflexivity | exact X]).
  specialize (H a eq_refl). destruct (f a) as [t' o']. exact H.
Qed.

Lemma exited_emit e : exited (emit e) = false.
Proof. reflexivity. Qed.

Lemma exited_must err : exited (must err) = false.
Proof. destruct err; reflexivity. Qed.

Lemma exited_getTurnCredentials w : exited (getTurnCredentials w) = false.
Proof.
  unfold exited. destruct (getTurnCredentials_returns w) as [r ->]. reflexivity.
Qed.

Lemma exited_readUntilNewline_loop fuel : forall r,
  exited (readUntilNewline_loop fuel r) = false.
Proof.
  induction fuel as [|fuel IH]; intro r; [reflexivity|].
  rewrite console_facts.readUntilNewline_loop_step.
  destruct (bufio.split_line x0a (bufio.unread r)) as [l [rest|]].
  - destruct (strings_spec.has_text l); [reflexivity | apply IH].
  - destruct (negb (is_EOF (bufio.at_end r))); [reflexivity|].
    destruct (strings_spec.has_text l); [reflexivity | apply IH].
Qed.

Lemma exited_readUntilNewline fuel r : exited (readUntilNewline fuel r) = false.
Proof.
  unfold readUntilNewline.
  pose proof (exited_readUntilNewline_loop fuel r) as H.
  unfold exited, result_of in *.
  destruct (readUntilNewline_loop fuel r) as [t [a|e|c| |]]; cbn in *;
    first [reflexivity | exact H].
Qed.

Lemma exited_decode inp obj : exited (decode inp obj) = false.
Proof.
  destruct (decode_cases inp obj) as [[d ->]|[e ->]]; reflexivity.
Qed.

Lemma exited_encode obj : exited (encode obj) = false.
Proof. destruct obj; reflexivity. Qed.

Ltac walk_stuck :=
  repeat (apply stuck_bind;
          [first [apply exited_emit | apply exited_must
                 | apply exited_readUntilNewline | apply exited_decode
                 | apply exited_encode]
          | intros ? _]).

Lemma session_body_stuck fuel w : stuck (session_body fuel w).
Proof.
  unfold session_body. walk_stuck.
  destruct (CreateAnswer w); [|apply stuck_panic].
  walk_stuck.
  apply stuck_bind; [destruct (gatherComplete w); reflexivity | intros ? _].
  walk_stuck. apply stuck_block.
Qed.

Lemma session_body_quiet p fuel w :
  (forall s, p (EvPrint s) = false) ->
  (forall d, p (EvSetRemoteDescription d) = false) ->
  (forall d, p (EvSetLocalDescription d) = false) ->
  p (EvGo "rtcp") = false ->
  (forall n, In n ["NewTrackLocalStaticRTP"; "AddTrack"; "OnTrack";
                   "OnConnectionStateChange"; "CreateAnswer";
                   "GatheringCompletePromise"; "LocalDescription"]%string ->
             p (EvCall n) = false) ->
  quiet p (session_body fuel w).
Proof.
  intros Hp Hr Hl Hg Hc. unfold session_body.
  assert (C : forall n, In n ["NewTrackLocalStaticRTP"; "AddTrack"; "OnTrack";
                   "OnConnectionStateChange"; "CreateAnswer";
                   "GatheringCompletePromise"; "LocalDescription"]%string ->
              quiet p (emit (EvCall n))).
  { intros n Hn. apply quiet_emit, Hc, Hn. }
  repeat (apply quiet_bind;
          [first [apply C; cbn; tauto | apply quiet_emit; first [exact Hg | apply Hr]
                 | apply quiet_must]
          | intros ? _]).
  apply quiet_bind; [apply quiet_readUntilNewline; exact Hp | intros inp _].
  apply quiet_bind.
  { destruct (decode_cases inp webrtc.zero) as [[d ->]|[e ->]]; reflexivity. }
  intros offer _.
  repeat (apply quiet_bind;
          [first [apply C; cbn; tauto | apply quiet_emit; first [exact Hg | apply Hr]
                 | apply quiet_must]
          | intros ? _]).
  destruct (CreateAnswer w); [|apply quiet_panic].
  repeat (apply quiet_bind;
          [first [apply C; cbn; tauto | apply quiet_emit; apply Hl
                 | apply quiet_must]
          | intros ? _]).
  apply quiet_bind; [destruct (gatherComplete w); reflexivity | intros ? _].
  apply quiet_bind; [apply C; cbn; tauto | intros ? _].
  apply quiet_bind; [destruct (LocalDescription w); reflexivity | intros s _].
  apply quiet_bind; [apply quiet_emit, Hp | intros ? _].
  apply quiet_block.
Qed.

(** The deferred function runs only when the body panics. *)
Lemma session_eq fuel w :
  defer (closing w) (session_body fuel w)
  = (trace (session_body fuel w)
       ++ (if panics (session_body fuel w) then closing_events w else []),
     result_of (session_body fuel w)).
Proof.
  rewrite closing_eq.
  destruct (session_body_stuck fuel w) as [R X].
  unfold returns, exited, panics, trace, result_of in *.
  destruct (session_body fuel w) as [t [a|e|c| |]]; cbn in *;
    try discriminate; rewrite ?app_nil_r; reflexivity.
Qed.

Lemma main_connects fuel w c :
  connects w c ->
  main fuel w
  = (connecting_events w c ++ trace (session_body fuel w)
       ++ (if panics (session_body fuel w) then closing_events w else []),
     result_of (session_body fuel w)).
Proof.
  intros [S N]. rewrite (main_sets_up fuel S), N, session_eq. reflexivity.
Qed.

(** [readUntilNewline] prints one empty line when it returns. *)
Lemma readUntilNewline_returned fuel r inp :
  result_of (readUntilNewline fuel r) = Returned inp ->
  readUntilNewline fuel r = ([EvPrint newline], Returned inp).
Proof.
  intro H. pose proof (console_facts.readUntilNewline_loop_trace fuel r) as T.
  unfold readUntilNewline in *. unfold trace, result_of in *.
  destruct (readUntilNewline_loop fuel r) as [t [a|e|c| |]]; cbn in *;
    try discriminate H.
  subst t. injection H as ->. reflexivity.
Qed.

(** The body of the session up to the call of [SetRemoteDescription]. *)
Lemma session_body_offer fuel w inp offer :
  NewTrackLocalStaticRTP w = None ->
  AddTrack w = None ->
  result_of (readUntilNewline fuel (stdin w)) = Returned inp ->
  decode inp webrtc.zero = ret offer ->
  session_body fuel w
  = bind (offering_events offer, Returned tt)
      (fun _ =>
         must (SetRemoteDescription w offer) ;;;
         emit (EvCall "OnTrack") ;;;
         emit (EvCall "OnConnectionStateChange") ;;;
         emit (EvCall "CreateAnswer") ;;;
         match CreateAnswer w with
         | Err err => panic err
         | Ok answer =>
             emit (EvCall "GatheringCompletePromise") ;;;
             emit (EvSetLocalDescription answer) ;;;
             must (SetLocalDescription w answer) ;;;
             (if gatherComplete w then ret tt else block) ;;;
             emit (EvCall "LocalDescription") ;;;
             s <- encode (LocalDescription w) ;;
             Println s ;;;
             block
         end).
Proof.
  intros H1 H2 HR HD. unfold session_body.
  rewrite H1, H2, (readUntilNewline_returned _ _ HR).
  rewrite bind_returned. cbv beta. rewrite HD, bind_ret.
  set (k := bind (must (SetRemoteDescription w offer)) _).
  rewrite bind_returned.
  rewrite ?bind_emit, ?bind_must_None. cbn [fst snd].
  rewrite ?bind_emit, ?bind_must_None. cbn [fst snd app offering_events].
  destruct k as [tk ok]. reflexivity.
Qed.

(** X6. When the fetch returns credentials and the codec and interceptor
    setup succeeds, [main] calls [NewPeerConnection] exactly once, with a
    configuration that holds one ICE server whose URLs, user name and
    credential are those of the fetched credentials. *)
Theorem peer_connection_uses_fetched_credentials :
  forall (fuel : nat) (w : World) (c : TurnCredentials),
    sets_up w c ->
    peer_configs (trace (main fuel w)) = [ice_config c]
    /\ webrtc.ICEServers (ice_config c)
       = [{| webrtc.ICEServer_URLs := URLs (ICECredentials c);
             webrtc.ICEServer_Username := Username (ICECredentials c);
             webrtc.ICEServer_Credential := Credential (ICECredentials c) |}].
Proof.
  intros fuel w c S. split; [|reflexivity].
  assert (C : peer_configs (connecting_events w c) = [ice_config c]).
  { unfold connecting_events. rewrite peer_configs_app.
    rewrite (quiet_peer_configs (m := getTurnCredentials w))
      by (apply quiet_getTurnCredentials; reflexivity).
    reflexivity. }
  rewrite (main_sets_up fuel S).
  destruct (NewPeerConnection w (ice_config c)) as [e|]; [exact C|].
  unfold trace at 1. cbn [fst]. rewrite peer_configs_app, C.
  rewrite session_eq. unfold trace at 1. cbn [fst]. rewrite peer_configs_app.
  rewrite (quiet_peer_configs (m := session_body fuel w)).
  - destruct (panics (session_body fuel w)); [|reflexivity].
    unfold closing_events. destruct (Close w); reflexivity.
  - apply session_body_quiet; try reflexivity.
Qed.

Lemma peer_connection_uses_fetched_credentials_witness :
  peer_configs (trace (main 1 happy_world)) = [ice_config sample_credentials]
  /\ webrtc.ICEServers (ice_config sample_credentials)
     = [{| webrtc.ICEServer_URLs := ["turn:turn.example:3478"%string];
           webrtc.ICEServer_Username := "user";
           webrtc.ICEServer_Credential := "secret" |}].
Proof.
  apply (@peer_connection_uses_fetched_credentials 1 happy_world sample_credentials).
  repeat split; vm_compute; reflexivity.
Defined.

Lemma main_quiet_Exit fuel w : quiet is_Exit (main fuel w).
Proof.
  unfold main.
  apply quiet_bind; [apply quiet_getTurnCredentials; reflexivity|].
  intros [turnCredentials|err] _; [|apply quiet_panic].
  repeat (apply quiet_bind;
          [first [apply quiet_emit; reflexivity | apply quiet_must]|];
          intros ? _).
  apply quiet_defer.
  { apply quiet_bind; [apply quiet_emit; reflexivity|]. intros _ _.
    destruct (Close w); [apply quiet_emit; reflexivity | apply quiet_ret]. }
  apply (@session_body_quiet is_Exit fuel w); reflexivity.
Qed.

Lemma stuck_defer {A} (d : M unit) (body : M A) :
  returns d = true -> stuck body -> stuck (defer d body).
Proof.
  unfold stuck, returns, exited, result_of.
  destruct d as [td od], body as [tb ob]. cbn [snd].
  intros D [R X]. destruct ob; cbn in *; try discriminate;
    destruct od; try discriminate; split; reflexivity.
Qed.

(** X7. [main] never returns and never exits the process by itself: every
    run ends in a panic, waits for ever (at [select {}] or for the end of
    the ICE gathering) or is still reading the console; it never calls
    [os.Exit]. *)
Theorem main_never_returns :
  forall (fuel : nat) (w : World),
    stuck (main fuel w) /\ exits (trace (main fuel w)) = [].
Proof.
  intros fuel w. split; [|apply quiet_exits, main_quiet_Exit].
  unfold main.
  apply stuck_bind; [apply exited_getTurnCredentials|].
  intros [turnCredentials|err] _; [|apply stuck_panic].
  walk_stuck. cbv zeta. walk_stuck.
  apply stuck_defer.
  - unfold returns, result_of. rewrite bind_emit. cbn [snd].
    destruct (Close w); reflexivity.
  - apply (session_body_stuck fuel w).
Qed.

(** X8. The deferred [Close] of the peer connection runs exactly when
    [main] panics after the connection was created: then it is called once,
    as the last call of the run, a failure of [Close] is only printed, and
    the panic is the one of the body.  In a run that waits for ever it is
    never called. *)
Theorem close_runs_on_panic_after_connect :
  forall (fuel : nat) (w : World) (c : TurnCredentials),
    connects w c ->
    result_of (main fuel w) = result_of (session_body fuel w)
    /\ trace (main fuel w)
       = connecting_events w c ++ trace (session_body fuel w)
           ++ (if panics (main fuel w) then closing_events w else [])
    /\ count (is_Call "Close") (trace (main fuel w))
       = (if panics (main fuel w) then 1%nat else 0%nat).
Proof.
  intros fuel w c C.
  assert (P : panics (main fuel w) = panics (session_body fuel w)).
  { unfold panics. rewrite (main_connects fuel C). reflexivity. }
  assert (Q1 : count (is_Call "Close") (connecting_events w c) = 0%nat).
  { unfold connecting_events. rewrite count_app.
    rewrite (quiet_count (m := getTurnCredentials w))
      by (apply quiet_getTurnCredentials; reflexivity).
    reflexivity. }
  assert (Q2 : count (is_Call "Close") (trace (session_body fuel w)) = 0%nat).
  { apply quiet_count. apply session_body_quiet; try reflexivity.
    intros n Hn. cbn in Hn.
    repeat (destruct Hn as [<-|Hn]; [reflexivity|]). contradiction. }
  rewrite P, (main_connects fuel C). unfold trace, result_of in *.
  cbn [fst snd]. split; [reflexivity|]. split; [reflexivity|].
  rewrite !count_app, Q1, Q2.
  destruct (panics (session_body fuel w)); [|reflexivity].
  unfold closing_events. destruct (Close w); reflexivity.
Qed.

Lemma close_runs_on_panic_after_connect_witness :
  result_of (main 1 rejecting_world) = result_of (session_body 1 rejecting_world)
  /\ trace (main 1 rejecting_world)
     = connecting_events rejecting_world sample_credentials
         ++ trace (session_body 1 rejecting_world)
         ++ (if panics (main 1 rejecting_world)
             then closing_events rejecting_world else [])
  /\ count (is_Call "Close") (trace (main 1 rejecting_world))
     = (if panics (main 1 rejecting_world) then 1%nat else 0%nat).
Proof.
  apply (@close_runs_on_panic_after_connect 1 rejecting_world sample_credentials).
  repeat split; vm_compute; reflexivity.
Defined.

(** X9. The run in which everything succeeds: once the peer connection
    exists, the track is added, the console yields a token and the token
    decodes to [offer], [main] hands [offer] to [SetRemoteDescription],
    hands the answer it created to [SetLocalDescription], prints the token
    of the local description followed by a line feed and then waits for
    ever; the connection is never closed.  A valid local description is
    recovered from the printed token by [decode]. *)
Theorem main_answers_the_offer :
  forall (fuel : nat) (w : World) (c : TurnCredentials) (inp : string)
         (offer answer : webrtc.SessionDescription),
    connects w c ->
    NewTrackLocalStaticRTP w = None ->
    AddTrack w = None ->
    result_of (readUntilNewline fuel (stdin w)) = Returned inp ->
    decode inp webrtc.zero = ret offer ->
    SetRemoteDescription w offer = None ->
    CreateAnswer w = Ok answer ->
    SetLocalDescription w answer = None ->
    gatherComplete w = true ->
    exists token : string,
      encode (LocalDescription w) = ret token
      /\ main fuel w
         = (connecting_events w c ++ offering_events offer
              ++ answering_events answer token,
            Blocked)
      /\ (forall d obj, LocalDescription w = Some d -> valid_description d ->
                        decode token obj = ret d).
Proof.
  intros fuel w c inp offer answer C H1 H2 HR HD H3 H4 H5 H6.
  assert (E : exists token, encode (LocalDescription w) = ret token).
  { unfold encode. destruct (LocalDescription w); eexists; reflexivity. }
  destruct E as [token E]. exists token. split; [exact E|]. split.
  - rewrite (main_connects fuel C).
    rewrite (session_body_offer fuel w H1 H2 HR HD).
    rewrite H3, H4, H5, H6, E. unfold ret. rewrite !bind_returned.
    cbn. rewrite ?app_nil_r. reflexivity.
  - intros d obj L [T V]. rewrite L in E.
    destruct (@json_facts.Unmarshal_Marshal d obj T V) as (b & Hm & Hu).
    unfold encode in E. rewrite Hm in E. injection E as <-.
    unfold decode. rewrite base64_facts.DecodeString_EncodeToString, Hu.
    reflexivity.
Qed.

Lemma main_answers_the_offer_witness :
  exists token : string,
    encode (LocalDescription happy_world) = ret token
    /\ main 1 happy_world
       = (connecting_events happy_world sample_credentials
            ++ offering_events sample_offer
            ++ answering_events sample_answer token,
          Blocked)
    /\ (forall d obj, LocalDescription happy_world = Some d ->
                      valid_description d -> decode token obj = ret d).
Proof.
  apply (@main_answers_the_offer 1 happy_world sample_credentials
           sample_token sample_offer sample_answer);
    [repeat split; vm_compute; reflexivity | vm_compute; reflexivity ..].
Defined.

(** X10. When the transport rejects the offer, [main] panics with the error
    of [SetRemoteDescription]: no answer is created and no local description
    is set; the peer connection is closed on the way out, and when [Close]
    fails too its error is printed and the panic stays that of the
    rejection. *)
Theorem rejected_offer_closes_and_panics :
  forall (fuel : nat) (w : World) (c : TurnCredentials) (inp : string)
         (offer : webrtc.SessionDescription) (e : error),
    connects w c ->
    NewTrackLocalStaticRTP w = None ->
    AddTrack w = None ->
    result_of (readUntilNewline fuel (stdin w)) = Returned inp ->
    decode inp webrtc.zero = ret offer ->
    SetRemoteDescription w offer = Some e ->
    main fuel w
    = (connecting_events w c ++ offering_events offer ++ closing_events w,
       Panicked e)
    /\ count (is_Call "CreateAnswer") (trace (main fuel w)) = 0%nat
    /\ local_descriptions (trace (main fuel w)) = [].
Proof.
  intros fuel w c inp offer e C H1 H2 HR HD H3.
  assert (E : main fuel w
              = (connecting_events w c ++ offering_events offer
                   ++ closing_events w, Panicked e)).
  { rewrite (main_connects fuel C).
    rewrite (session_body_offer fuel w H1 H2 HR HD).
    rewrite H3. rewrite bind_returned. cbn. rewrite ?app_nil_r. reflexivity. }
  split; [exact E|]. rewrite E. unfold trace. cbn [fst].
  assert (Q : forall p, quiet p (getTurnCredentials w) ->
                count p (trace (getTurnCredentials w)) = 0%nat)
    by (intros p; apply quiet_count).
  split.
  - rewrite !count_app. unfold connecting_events. rewrite count_app.
    rewrite Q by (apply quiet_getTurnCredentials; reflexivity).
    unfold closing_events. destruct (Close w); reflexivity.
  - unfold local_descriptions, connecting_events.
    rewrite !flat_map_app.
    assert (L : flat_map (fun e0 => match e0 with
                                    | EvSetLocalDescription d => [d]
                                    | _ => []
                                    end) (trace (getTurnCredentials w)) = []).
    { destruct (url_Parse w (cloudflareTurnAPI w)) as [e'|] eqn:U.
      - rewrite (getTurnCredentials_bad_url _ U). reflexivity.
      - destruct (client_Do w (turn_request w)) as [resp|e'] eqn:D.
        + rewrite (getTurnCredentials_response _ U D). reflexivity.
        + rewrite (getTurnCredentials_transport_error _ U D). reflexivity. }
    rewrite L. unfold closing_events. destruct (Close w); reflexivity.
Qed.

Lemma rejected_offer_closes_and_panics_witness :
  main 1 rejecting_world
  = (connecting_events rejecting_world sample_credentials
       ++ offering_events sample_offer ++ closing_events rejecting_world,
     Panicked (External "invalid offer"))
  /\ count (is_Call "CreateAnswer") (trace (main 1 rejecting_world)) = 0%nat
  /\ local_descriptions (trace (main 1 rejecting_world)) = [].
Proof.
  apply (@rejected_offer_closes_and_panics 1 rejecting_world sample_credentials
           sample_token sample_offer (External "invalid offer"));
    [repeat split; vm_compute; reflexivity | vm_compute; reflexivity ..].
Defined.

(** X16. With the console at its end and no line with text on it (standard
    input closed or empty), [main] creates the peer connection, adds the
    track, starts the RTCP goroutine and then reads the console for ever:
    however many rounds it is given it has not panicked, has set no
    description and has not closed the connection. *)
Theorem main_spins_on_a_console_without_text :
  forall (fuel : nat) (w : World) (c : TurnCredentials),
    connects w c ->
    NewTrackLocalStaticRTP w = None ->
    AddTrack w = None ->
    is_EOF (bufio.at_end (stdin w)) = true ->
    existsb strings_spec.has_text (strings_spec.yielded (stdin w)) = false ->
    main fuel w
    = (connecting_events w c
         ++ [EvCall "NewTrackLocalStaticRTP"; EvCall "AddTrack"; EvGo "rtcp"],
       Spinning).
Proof.
  intros fuel w c C H1 H2 E Hno.
  assert (S : session_body fuel w
              = ([EvCall "NewTrackLocalStaticRTP"; EvCall "AddTrack";
                  EvGo "rtcp"], Spinning)).
  { unfold session_body, readUntilNewline.
    rewrite H1, H2, (@console_facts.readUntilNewline_loop_spins fuel _ E Hno).
    reflexivity. }
  rewrite (main_connects fuel C), S. unfold panics, trace, result_of.
  cbn [fst snd]. rewrite app_nil_r. reflexivity.
Qed.

Lemma main_spins_on_a_console_without_text_witness :
  main 1000 silent_world
  = (connecting_events silent_world sample_credentials
       ++ [EvCall "NewTrackLocalStaticRTP"; EvCall "AddTrack"; EvGo "rtcp"],
     Spinning).
Proof.
  apply (@main_spins_on_a_console_without_text 1000 silent_world
           sample_credentials);
    [repeat split; vm_compute; reflexivity | vm_compute; reflexivity ..].
Defined.

(** ** Further properties of the console and of the session codec *)

Module token_facts.
Import strings_spec.

(** *** The characters of a token *)

Lemma token_byte_encode i : (i < 64)%N -> token_byte (base64.encode i) = true.
Proof.
  intro H. rewrite <- (N2Nat.id i).
  assert (Hn : (N.to_nat i < 64)%nat) by lia.
  generalize dependent (N.to_nat i). clear H. intros n Hn.
  do 64 (destruct n as [|n]; [vm_compute; reflexivity|]).
  lia.
Qed.

Lemma Encode_token_bytes src : forallb token_byte (base64.Encode src) = true.
Proof.
  induction src as [| | |a b c l IH] using base64_facts.list_ind3;
    cbn [base64.Encode forallb];
    rewrite ?token_byte_encode
      by first [apply base64_facts.sextet_lt | apply base64_facts.sextet0_lt];
    try reflexivity.
  exact IH.
Qed.

Lemma Encode_not_nil src : src <> [] -> base64.Encode src <> [].
Proof.
  destruct src as [|a [|b [|c l]]]; intro H; [contradiction| | |];
    cbn [base64.Encode]; discriminate.
Qed.

Lemma token_byte_ascii c : token_byte c = true ->
  (u8 c < utf8.RuneSelf)%N /\ strings.asciiSpace c = false.
Proof.
  unfold token_byte. intro H. apply andb_true_iff in H. destruct H as [A B].
  apply N.ltb_lt in A. apply negb_true_iff in B. split; assumption.
Qed.

Lemma asciiSpace_ascii c : strings.asciiSpace c = true ->
  (utf8.RuneSelf <=? u8 c)%N = false.
Proof.
  unfold strings.asciiSpace, utf8.RuneSelf. intro H. apply N.leb_gt.
  apply orb_true_iff in H. destruct H as [H|H].
  - apply andb_true_iff in H. destruct H as [_ H]. apply N.leb_le in H. lia.
  - apply N.eqb_eq in H. lia.
Qed.

Lemma inline_space_spec c : inline_space c = true ->
  strings.asciiSpace c = true /\ Byte.eqb c x0a = false.
Proof.
  unfold inline_space. intro H. apply andb_true_iff in H. destruct H as [A B].
  apply negb_true_iff in B. split; assumption.
Qed.

Lemma forallb_inline_space ws : forallb inline_space ws = true ->
  forallb strings.asciiSpace ws = true.
Proof.
  induction ws as [|c ws IH]; [reflexivity|]. cbn [forallb]. intro H.
  apply andb_true_iff in H. destruct H as [Hc H].
  destruct (inline_space_spec _ Hc) as [-> _]. apply IH. exact H.
Qed.

(** *** [TrimSpace] on a token among white space *)

Lemma TrimSpace_start_spaces ws : forallb strings.asciiSpace ws = true ->
  strings.TrimSpace_start ws = [].
Proof.
  induction ws as [|c ws IH]; [reflexivity|]. cbn [forallb]. intro H.
  apply andb_true_iff in H. destruct H as [Hc H].
  cbn [strings.TrimSpace_start]. rewrite (asciiSpace_ascii _ Hc), Hc.
  apply IH. exact H.
Qed.

Lemma nth_app_r (a b : list byte) k :
  nth (List.length a + k) (a ++ b) x00 = nth k b x00.
Proof. rewrite app_nth2 by lia. f_equal. lia. Qed.

Lemma TrimSpace_stop_token tok c ws : forall k,
  token_byte c = true ->
  forallb strings.asciiSpace ws = true ->
  (k <= List.length ws)%nat ->
  strings.TrimSpace_stop ((tok ++ [c]) ++ ws) (List.length (tok ++ [c]) + k)
  = tok ++ [c].
Proof.
  intros k Hc Hws. destruct (token_byte_ascii _ Hc) as [A B].
  induction k as [|k IH]; intro Hk.
  - rewrite Nat.add_0_r, length_app. cbn [List.length].
    replace (List.length tok + 1)%nat with (S (List.length tok)) by lia.
    cbn [strings.TrimSpace_stop].
    rewrite <- app_assoc. cbn [app].
    rewrite nth_middle. apply N.leb_gt in A. rewrite A, B.
    replace (tok ++ c :: ws) with ((tok ++ [c]) ++ ws)
      by (rewrite <- app_assoc; reflexivity).
    replace (S (List.length tok)) with (List.length (tok ++ [c]) + 0)%nat
      by (rewrite length_app; cbn [List.length]; lia).
    rewrite firstn_app_2. cbn [firstn]. apply app_nil_r.
  - replace (List.length (tok ++ [c]) + S k)%nat
      with (S (List.length (tok ++ [c]) + k)) by lia.
    cbn [strings.TrimSpace_stop]. rewrite nth_app_r.
    assert (S : strings.asciiSpace (nth k ws x00) = true).
    { rewrite forallb_forall in Hws. apply Hws. apply nth_In. lia. }
    rewrite (asciiSpace_ascii _ S), S. apply IH. lia.
Qed.

Lemma TrimSpace_start_token_tail c tok ws :
  forallb token_byte (c :: tok) = true ->
  forallb strings.asciiSpace ws = true ->
  strings.TrimSpace_start ((c :: tok) ++ ws) = c :: tok.
Proof.
  intros Ht Hws.
  assert (Hc : token_byte c = true).
  { cbn [forallb] in Ht. apply andb_true_iff in Ht. tauto. }
  destruct (token_byte_ascii _ Hc) as [A B].
  cbn [app strings.TrimSpace_start]. apply N.leb_gt in A. rewrite A, B.
  destruct (exists_last (l := c :: tok) ltac:(discriminate)) as (tok' & c' & E).
  assert (Hc' : token_byte c' = true).
  { rewrite forallb_forall in Ht. apply Ht. rewrite E. apply in_or_app.
    right. left. reflexivity. }
  change (c :: tok ++ ws) with ((c :: tok) ++ ws). rewrite E.
  replace (List.length ((tok' ++ [c']) ++ ws))
    with (List.length (tok' ++ [c']) + List.length ws)%nat
    by (rewrite !length_app; lia).
  apply TrimSpace_stop_token; [exact Hc' | exact Hws | lia].
Qed.

(** [TrimSpace] gives back a token set in white space. *)
Lemma TrimSpace_start_token ws1 tok ws2 :
  tok <> [] ->
  forallb token_byte tok = true ->
  forallb strings.asciiSpace ws1 = true ->
  forallb strings.asciiSpace ws2 = true ->
  strings.TrimSpace_start (ws1 ++ tok ++ ws2) = tok.
Proof.
  intros Hne Ht H1 H2. induction ws1 as [|c ws1 IH].
  - destruct tok as [|c tok]; [contradiction|].
    apply TrimSpace_start_token_tail; assumption.
  - cbn [forallb] in H1. apply andb_true_iff in H1. destruct H1 as [Hc H1].
    cbn [app strings.TrimSpace_start]. rewrite (asciiSpace_ascii _ Hc), Hc.
    apply IH. exact H1.
Qed.

Lemma has_text_TrimSpace_start l :
  has_text l = negb (match strings.TrimSpace_start l with [] => true | _ => false end).
Proof.
  destruct (strings_facts.TrimSpace_start_spec l) as [[H1 H2] _].
  destruct (strings.TrimSpace_start l) as [|c t].
  - rewrite (H1 eq_refl). reflexivity.
  - destruct (has_text l); [reflexivity|]. discriminate (H2 eq_refl).
Qed.

(** *** The console on a pasted token *)

Lemma split_line_inline ws rest :
  forallb (fun c => negb (Byte.eqb c x0a)) ws = true ->
  bufio.split_line x0a (ws ++ x0a :: rest) = (ws ++ [x0a], Some rest).
Proof.
  induction ws as [|c ws IH]; intro H; [reflexivity|].
  cbn [forallb] in H. apply andb_true_iff in H. destruct H as [Hc H].
  apply negb_true_iff in Hc. cbn [app bufio.split_line]. rewrite Hc, (IH H).
  reflexivity.
Qed.

Lemma inline_space_no_newline ws : forallb inline_space ws = true ->
  forallb (fun c => negb (Byte.eqb c x0a)) ws = true.
Proof.
  induction ws as [|c ws IH]; [reflexivity|]. cbn [forallb]. intro H.
  apply andb_true_iff in H. destruct H as [Hc H].
  destruct (inline_space_spec _ Hc) as [_ ->]. apply IH. exact H.
Qed.

Lemma token_byte_no_newline tok : forallb token_byte tok = true ->
  forallb (fun c => negb (Byte.eqb c x0a)) tok = true.
Proof.
  induction tok as [|c tok IH]; [reflexivity|]. cbn [forallb]. intro H.
  apply andb_true_iff in H. destruct H as [Hc H]. rewrite (IH H), andb_true_r.
  destruct (Byte.eqb c x0a) eqn:E; [|reflexivity].
  apply byte_eqb_eq in E. subst c. discriminate Hc.
Qed.

Lemma forallb_app_true {A} (p : A -> bool) a b :
  forallb p a = true -> forallb p b = true -> forallb p (a ++ b) = true.
Proof. intros Ha Hb. rewrite forallb_app, Ha, Hb. reflexivity. Qed.

(** The loop of [readUntilNewline] skips the blank lines and returns the
    token. *)
Lemma readUntilNewline_loop_pasted ws1 tok ws2 rest e : forall blanks fuel,
  tok <> [] ->
  forallb token_byte tok = true ->
  Forall (fun b => forallb inline_space b = true) blanks ->
  forallb inline_space ws1 = true ->
  forallb inline_space ws2 = true ->
  (List.length blanks < fuel)%nat ->
  readUntilNewline_loop fuel
    {| bufio.unread := pasted blanks ws1 tok ws2 rest; bufio.at_end := e |}
  = ret (string_of_list_byte tok).
Proof.
  intros blanks fuel Hne Ht Hb H1 H2. revert fuel.
  induction Hb as [|b blanks Hb0 Hb IH]; intros fuel Hf;
    (destruct fuel as [|fuel]; [cbn in Hf; lia|]);
    rewrite console_facts.readUntilNewline_loop_step;
    cbn [bufio.unread bufio.at_end]; unfold pasted; cbn [map List.concat app].
  - replace (ws1 ++ tok ++ ws2 ++ x0a :: rest)
      with ((ws1 ++ tok ++ ws2) ++ x0a :: rest)
      by (rewrite <- !app_assoc; reflexivity).
    rewrite split_line_inline.
    2:{ apply forallb_app_true; [apply inline_space_no_newline, H1|].
        apply forallb_app_true;
          [apply token_byte_no_newline, Ht | apply inline_space_no_newline, H2]. }
    assert (T : strings.TrimSpace_start ((ws1 ++ tok ++ ws2) ++ [x0a]) = tok).
    { replace ((ws1 ++ tok ++ ws2) ++ [x0a]) with (ws1 ++ tok ++ (ws2 ++ [x0a]))
        by (rewrite <- !app_assoc; reflexivity).
      apply TrimSpace_start_token; [exact Hne | exact Ht | |].
      - apply forallb_inline_space, H1.
      - apply forallb_app_true; [apply forallb_inline_space, H2 | reflexivity]. }
    rewrite has_text_TrimSpace_start, T.
    destruct tok as [|c tok]; [contradiction|]. cbn [negb].
    unfold strings.TrimSpace, bytes.
    rewrite list_byte_of_string_of_list_byte, T. reflexivity.
  - rewrite <- !app_assoc. cbn [app].
    rewrite split_line_inline by (apply inline_space_no_newline, Hb0).
    assert (T : strings.TrimSpace_start (b ++ [x0a]) = []).
    { apply TrimSpace_start_spaces. apply forallb_app_true;
        [apply forallb_inline_space, Hb0 | reflexivity]. }
    rewrite has_text_TrimSpace_start, T. cbn [negb].
    apply IH. cbn [List.length] in Hf. lia.
Qed.

End token_facts.

Lemma readUntilNewline_loop_read_error : forall fuel r,
  is_EOF (bufio.at_end r) = false ->
  existsb strings_spec.has_text (strings_spec.yielded r) = false ->
  (List.length (bufio.unread r) < fuel)%nat ->
  readUntilNewline_loop fuel r = panic (bufio.at_end r).
Proof.
  induction fuel as [|fuel IH]; intros r E Hno Hf; [lia|].
  rewrite console_facts.readUntilNewline_loop_step.
  pose proof (console_facts.yielded_step r) as Y.
  pose proof (console_facts.split_line_rest_length (bufio.unread r)) as L.
  destruct (bufio.split_line x0a (bufio.unread r)) as [l [rest|]].
  - rewrite Y in Hno. cbn [existsb] in Hno. apply orb_false_iff in Hno.
    destruct Hno as [T Hno]. rewrite T.
    specialize (L l rest eq_refl).
    rewrite (IH {| bufio.unread := rest; bufio.at_end := bufio.at_end r |});
      [reflexivity | exact E | exact Hno | cbn [bufio.unread]; lia].
  - rewrite E. reflexivity.
Qed.

(** X11. A read error on the console other than the end of the file, met
    before any complete line with text, makes [readUntilNewline] panic with
    that error, whatever was read together with it; nothing is printed. *)
Theorem console_read_error_panics :
  forall (fuel : nat) (r : bufio.Reader),
    is_EOF (bufio.at_end r) = false ->
    existsb strings_spec.has_text (strings_spec.yielded r) = false ->
    (List.length (bufio.unread r) < fuel)%nat ->
    readUntilNewline fuel r = ([], Panicked (bufio.at_end r)).
Proof.
  intros fuel r E Hno Hf. unfold readUntilNewline.
  rewrite (readUntilNewline_loop_read_error r E Hno Hf). reflexivity.
Qed.

Lemma console_read_error_panics_witness :
  readUntilNewline 4 broken_console
  = ([], Panicked (External "read /dev/stdin: input/output error")).
Proof.
  apply (@console_read_error_panics 4 broken_console).
  - reflexivity.
  - vm_compute. reflexivity.
  - cbn. lia.
Defined.

(** X12. [readUntilNewline] prints one empty line, and only when it
    returns: while it skips blank lines, and when it panics, it prints
    nothing, and it emits no other event. *)
Theorem readUntilNewline_prints_one_empty_line :
  forall (fuel : nat) (r : bufio.Reader),
    trace (readUntilNewline fuel r)
    = (if returns (readUntilNewline fuel r) then [EvPrint newline] else []).
Proof.
  intros fuel r.
  pose proof (console_facts.readUntilNewline_loop_trace fuel r) as T.
  unfold readUntilNewline, returns, trace, result_of in *.
  destruct (readUntilNewline_loop fuel r) as [t [a|e|c| |]];
    cbn in *; subst t; reflexivity.
Qed.

(** X13. [encode] never panics, and the token it returns can be pasted as
    one line: it is not empty, holds only ASCII characters that are not
    white space, has a length that is a multiple of four, and is valid
    base64. *)
Theorem token_is_one_line_of_base64 :
  forall obj : option webrtc.SessionDescription,
    exists token : string,
      encode obj = ret token
      /\ token <> EmptyString
      /\ forallb token_byte (bytes token) = true
      /\ (exists n, String.length token = (4 * n)%nat)
      /\ base64_spec.valid_base64 token = true.
Proof.
  intro obj.
  assert (M : exists b, json.Marshal obj = Ok b /\ b <> []).
  { destruct obj as [d|]; eexists; (split; [reflexivity | discriminate]). }
  destruct M as (b & Hm & Hb).
  exists (base64.EncodeToString b). unfold encode. rewrite Hm.
  split; [reflexivity|]. unfold base64.EncodeToString, bytes.
  rewrite list_byte_of_string_of_list_byte.
  repeat split.
  - intro E. apply (token_facts.Encode_not_nil Hb).
    rewrite <- (list_byte_of_string_of_list_byte (base64.Encode b)), E.
    reflexivity.
  - apply token_facts.Encode_token_bytes.
  - exists ((List.length b + 2) / 3)%nat.
    rewrite console_facts.length_string_of_list_byte.
    apply base64_facts.Encode_length.
  - apply base64_valid.DecodeString_ok_iff. exists b.
    apply base64_facts.DecodeString_EncodeToString.
Qed.

(** X14. What one instance prints, another reads: for a valid description,
    when the operator pastes its token as a line, with white space around
    it, after any number of blank lines and before anything else,
    [readUntilNewline] returns exactly the token and [decode] gives the
    description back. *)
Theorem pasted_token_is_read_and_decoded :
  forall (d obj : webrtc.SessionDescription)
         (blanks : list (list byte)) (ws1 ws2 rest : list byte)
         (e : error) (fuel : nat),
    valid_description d ->
    Forall (fun b => forallb inline_space b = true) blanks ->
    forallb inline_space ws1 = true ->
    forallb inline_space ws2 = true ->
    (List.length blanks < fuel)%nat ->
    exists token : string,
      encode (Some d) = ret token
      /\ readUntilNewline fuel
           {| bufio.unread := pasted blanks ws1 (bytes token) ws2 rest;
              bufio.at_end := e |}
         = ([EvPrint newline], Returned token)
      /\ decode token obj = ret d.
Proof.
  intros d obj blanks ws1 ws2 rest e fuel [T V] Hb H1 H2 Hf.
  destruct (@json_facts.Unmarshal_Marshal d obj T V) as (b & Hm & Hu).
  exists (base64.EncodeToString b). unfold encode. rewrite Hm.
  split; [reflexivity|]. split.
  - assert (Hne : b <> []) by (injection Hm as <-; discriminate).
    unfold readUntilNewline, base64.EncodeToString, bytes.
    rewrite list_byte_of_string_of_list_byte.
    rewrite (@token_facts.readUntilNewline_loop_pasted ws1 (base64.Encode b)
               ws2 rest e blanks fuel
               (token_facts.Encode_not_nil Hne)
               (token_facts.Encode_token_bytes b) Hb H1 H2 Hf).
    reflexivity.
  - unfold decode. rewrite base64_facts.DecodeString_EncodeToString, Hu.
    reflexivity.
Qed.

Lemma pasted_token_is_read_and_decoded_witness :
  exists token : string,
    encode (Some sample_offer) = ret token
    /\ readUntilNewline 3
         {| bufio.unread := pasted [[x20]; [x0d]] [x09] (bytes token) [x0d]
                              [x64; x0a];
            bufio.at_end := External "closed" |}
       = ([EvPrint newline], Returned token)
    /\ decode token webrtc.zero = ret sample_offer.
Proof.
  apply (@pasted_token_is_read_and_decoded sample_offer webrtc.zero
           [[x20]; [x0d]] [x09] [x0d] [x64; x0a] (External "closed") 3).
  - split; [discriminate | reflexivity].
  - repeat constructor.
  - reflexivity.
  - reflexivity.
  - cbn. lia.
Defined.

(** X15. A description whose type was never set does not survive the round
    trip: [encode] writes the type as the text of [ErrUnknownType] without
    complaint, and [decode] panics with [ErrUnknownType] on the token. *)
Theorem unset_type_breaks_the_round_trip :
  forall d obj : webrtc.SessionDescription,
    webrtc.Type_ d = webrtc.SDPTypeUnknown ->
    utf8.ValidString (webrtc.SDP d) = true ->
    exists token : string,
      encode (Some d) = ret token
      /\ decode token obj = panic ErrUnknownType.
Proof.
  intros d obj T V.
  exists (base64.EncodeToString (json_spec.marshalled d)).
  split; [reflexivity|].
  unfold decode. rewrite base64_facts.DecodeString_EncodeToString.
  unfold json.Unmarshal. rewrite (json_facts.parse_document_marshalled _ V).
  rewrite T. unfold json.value_SessionDescription.
  cbn [json.object_SessionDescription].
  change (json.lookup_field ["type"; "sdp"]%string (bytes "type"))
    with (Some "type"%string).
  cbn iota. change ("type" =? "type")%string with true. cbn iota.
  change (json.SDPType_UnmarshalJSON
            (json.JString (bytes (webrtc.SDPType_String webrtc.SDPTypeUnknown))))
    with (@Err webrtc.SDPType ErrUnknownType).
  reflexivity.
Qed.

Lemma unset_type_breaks_the_round_trip_witness :
  exists token : string,
    encode (Some webrtc.zero) = ret token
    /\ decode token sample_offer = panic ErrUnknownType.
Proof.
  apply (@unset_type_breaks_the_round_trip webrtc.zero sample_offer);
    reflexivity.
Defined.

Lemma lookup_field_names names key f :
  json.lookup_field names key = Some f -> In f names.
Proof.
  unfold json.lookup_field. intro H.
  destruct (find (fun n => bytes_eqb (bytes n) key) names) as [n|] eqn:F.
  - injection H as <-. exact (proj1 (find_some _ _ F)).
  - exact (proj1 (find_some _ _ H)).
Qed.

(** The members of the object are stored one by one; a field that no
    member selects is left as it is. *)
Lemma object_SessionDescription_keeps ms : forall obj saved d s',
  json.object_SessionDescription ms obj saved = Ok (d, s') ->
  ((forall k v, In (k, v) ms ->
                json.lookup_field ["type"; "sdp"]%string k <> Some "sdp"%string) ->
   webrtc.SDP d = webrtc.SDP obj)
  /\ ((forall k v, In (k, v) ms ->
                   json.lookup_field ["type"; "sdp"]%string k <> Some "type"%string) ->
      webrtc.Type_ d = webrtc.Type_ obj).
Proof.
  induction ms as [|[key v] ms IH]; intros obj saved d s' H.
  - cbn in H. injection H as <- _. split; reflexivity.
  - cbn [json.object_SessionDescription] in H.
    destruct (json.lookup_field ["type"; "sdp"]%string key) as [f|] eqn:L.
    + pose proof (lookup_field_names _ _ L) as I.
      destruct I as [<-|[<-|[]]].
      * change ("type" =? "type")%string with true in H. cbn iota in H.
        destruct (json.SDPType_UnmarshalJSON v) as [t|e]; [|discriminate H].
        destruct (IH _ _ _ _ H) as [K1 K2]. split.
        -- intro A. rewrite K1; [reflexivity|].
           intros k v' I. apply (A k v'). right. exact I.
        -- intro A. exfalso. apply (A key v); [left; reflexivity | exact L].
      * change ("sdp" =? "type")%string with false in H. cbn iota in H.
        destruct (json.store_string "sdp" v (webrtc.SDP obj)) as [s e].
        destruct (IH _ _ _ _ H) as [K1 K2]. split.
        -- intro A. exfalso. apply (A key v); [left; reflexivity | exact L].
        -- intro A. rewrite K2; [reflexivity|].
           intros k v' I. apply (A k v'). right. exact I.
    + destruct (IH _ _ _ _ H) as [K1 K2]. split; intro A.
      * apply K1. intros k v' I. apply (A k v'). right. exact I.
      * apply K2. intros k v' I. apply (A k v'). right. exact I.
Qed.

(** X17. [decode] changes only what the token names: when the JSON object
    of the token has no member that selects [sdp] (by its exact name or
    with letters of another case), the SDP of the description is the one it
    held before the call, and likewise for the type. *)
Theorem decode_keeps_what_the_token_omits :
  forall (inp : string) (obj d : webrtc.SessionDescription)
         (data : list byte) (ms : list (list byte * json.value)),
    base64.DecodeString inp = Ok data ->
    json.parse_document data = Some (json.JObject ms) ->
    decode inp obj = ret d ->
    ((forall k v, In (k, v) ms ->
                  json.lookup_field ["type"; "sdp"]%string k <> Some "sdp"%string) ->
     webrtc.SDP d = webrtc.SDP obj)
    /\ ((forall k v, In (k, v) ms ->
                     json.lookup_field ["type"; "sdp"]%string k
                     <> Some "type"%string) ->
        webrtc.Type_ d = webrtc.Type_ obj).
Proof.
  intros inp obj d data ms HB HP HD. unfold decode in HD.
  rewrite HB in HD. unfold json.Unmarshal in HD. rewrite HP in HD.
  unfold json.value_SessionDescription in HD.
  destruct (json.object_SessionDescription ms obj None) as [[d' [e|]]|e] eqn:O;
    try discriminate HD.
  injection HD as <-. exact (object_SessionDescription_keeps _ _ _ O).
Qed.

Lemma decode_keeps_what_the_token_omits_witness :
  decode type_only_token sample_answer
  = ret {| webrtc.Type_ := webrtc.SDPTypeOffer; webrtc.SDP := "v=0" |}
  /\ webrtc.SDP {| webrtc.Type_ := webrtc.SDPTypeOffer; webrtc.SDP := "v=0" |}
     = webrtc.SDP sample_answer.
Proof.
  split; [vm_compute; reflexivity|].
  apply (proj1 (@decode_keeps_what_the_token_omits type_only_token sample_answer
                  {| webrtc.Type_ := webrtc.SDPTypeOffer; webrtc.SDP := "v=0" |}
                  type_only_text
                  [(bytes "type", json.JString (bytes "offer"))]
                  ltac:(vm_compute; reflexivity)
                  ltac:(vm_compute; reflexivity)
                  ltac:(vm_compute; reflexivity))).
  intros k v [H|[]]. injection H as <- _. vm_compute. discriminate.
Defined.
